(** * RFSN controller: resource and concurrency control layer

    A shallow embedding of [rfsn_controller/optimizations.py] and
    [rfsn_controller/llm_async.py], and the properties of the response cache,
    the plain, cached and streaming clients, the parallel fan-out, the worker
    pool, the termination heuristics, the retry and memoization wrappers,
    batch processing, the output limiter and the compression helpers.

    Conventions of the embedding.
    - A Python [str] is a sequence of Unicode code points ([pystr]); [bytes]
      is a sequence of 8-bit integers.  [str.encode("utf-8")] is modelled by
      [utf8_encode], which fails on lone surrogates exactly as CPython does.
    - A Python [float] is given by its exact value, a rational ([Q]); the
      infinities appear where an operation can produce them ([pyfloat]) and
      NaN is not modelled.  Clock readings, their differences and the
      comparisons are exact.  The other float operations of the source round
      to the nearest double and raise where CPython raises: [int / int]
      ([int_truediv]), the conversion of an [int] ([float_of_int]), the
      product of floats ([float_mul]) and [**] ([float_pow]).
    - A Python [int] is a [Z].
    - Wall-clock readings ([time.time()]) are arguments of the operation that
      reads the clock, one argument per reading, in source order.
    - A call that can raise returns a [result]. *)

From Stdlib Require Import ZArith QArith Qminmax Qpower Qround Qabs Lqa List
  String Ascii Lia Bool Sorted.
From stdpp Require Import base option list gmap pretty.
Import ListNotations.

Local Open Scope Z_scope.

(** ** Python values *)

Module Py.

(** Exceptions the modelled code can raise; the [string] is the message or
    a label describing the cause. *)
Inductive exn : Type :=
| RuntimeError (msg : string)
| UnicodeEncodeError
| UnicodeDecodeError
| ZeroDivisionError
| ValueError (msg : string)
| TypeError (msg : string)
| KeyError (msg : string)
| BadGzipFile
| HTTPError (label : string)
| JSONDecodeError
| OverflowError (msg : string)
| OSError (msg : string)
| RecursionError.

Inductive result (A : Type) : Type :=
| Ok (a : A)
| Raise (e : exn).
Arguments Ok {A} a.
Arguments Raise {A} e.

Definition bind {A B} (r : result A) (k : A -> result B) : result B :=
  match r with
  | Ok a => k a
  | Raise e => Raise e
  end.

Definition pystr := list Z.
Definition bytes := list Z.

(** A literal of the source, as code points. *)
Fixpoint lit (s : string) : pystr :=
  match s with
  | EmptyString => []
  | String a s' => Z.of_nat (nat_of_ascii a) :: lit s'
  end.

(** [len(x)] *)
Definition len {A} (l : list A) : Z := Z.of_nat (length l).

(** [x[:k]] *)
Definition slice_to {A} (k : Z) (l : list A) : list A :=
  if 0 <=? k then firstn (Z.to_nat k) l
  else firstn (Z.to_nat (len l + k)) l.

(** [x[-k:]]: Python reads the bound [-k]; a bound of [0] (that is [k = 0])
    is not negative and selects the whole list. *)
Definition slice_from_neg {A} (k : Z) (l : list A) : list A :=
  let start := - k in
  if 0 <=? start then skipn (Z.to_nat start) l
  else skipn (Z.to_nat (len l + start)) l.

(** [str(n)] for an [int]. *)
Definition str_of_int (n : Z) : pystr := lit (pretty n).

(** *** UTF-8 *)

Definition is_surrogate (c : Z) : bool := (0xD800 <=? c) && (c <=? 0xDFFF).

Definition encode_cp (c : Z) : option bytes :=
  if c <? 0 then None
  else if c <? 0x80 then Some [c]
  else if c <? 0x800 then Some [0xC0 + c / 64; 0x80 + c mod 64]
  else if is_surrogate c then None
  else if c <? 0x10000 then
    Some [0xE0 + c / 4096; 0x80 + (c / 64) mod 64; 0x80 + c mod 64]
  else if c <=? 0x10FFFF then
    Some [0xF0 + c / 262144; 0x80 + (c / 4096) mod 64;
          0x80 + (c / 64) mod 64; 0x80 + c mod 64]
  else None.

(** [s.encode("utf-8")] *)
Fixpoint utf8_encode (s : pystr) : result bytes :=
  match s with
  | [] => Ok []
  | c :: s' =>
      match encode_cp c with
      | None => Raise UnicodeEncodeError
      | Some bs => bind (utf8_encode s') (fun rest => Ok (bs ++ rest))
      end
  end.

Definition is_cont (b : Z) : bool := (0x80 <=? b) && (b <=? 0xBF).

(** [b.decode("utf-8")], strict: over-long forms, surrogates and values
    above U+10FFFF are rejected.  [fuel] bounds the number of code points. *)
Fixpoint utf8_decode_fuel (fuel : nat) (b : bytes) : result pystr :=
  match fuel with
  | O => match b with [] => Ok [] | _ => Raise UnicodeDecodeError end
  | S fuel' =>
      match b with
      | [] => Ok []
      | b0 :: r0 =>
          if (0 <=? b0) && (b0 <? 0x80) then
            bind (utf8_decode_fuel fuel' r0) (fun s => Ok (b0 :: s))
          else if (0xC2 <=? b0) && (b0 <=? 0xDF) then
            match r0 with
            | b1 :: r1 =>
                if is_cont b1 then
                  bind (utf8_decode_fuel fuel' r1)
                       (fun s => Ok ((b0 - 0xC0) * 64 + (b1 - 0x80) :: s))
                else Raise UnicodeDecodeError
            | _ => Raise UnicodeDecodeError
            end
          else if (0xE0 <=? b0) && (b0 <=? 0xEF) then
            match r0 with
            | b1 :: b2 :: r2 =>
                let c := (b0 - 0xE0) * 4096 + (b1 - 0x80) * 64 + (b2 - 0x80) in
                if is_cont b1 && is_cont b2 && (0x800 <=? c)
                   && negb (is_surrogate c) then
                  bind (utf8_decode_fuel fuel' r2) (fun s => Ok (c :: s))
                else Raise UnicodeDecodeError
            | _ => Raise UnicodeDecodeError
            end
          else if (0xF0 <=? b0) && (b0 <=? 0xF4) then
            match r0 with
            | b1 :: b2 :: b3 :: r3 =>
                let c := (b0 - 0xF0) * 262144 + (b1 - 0x80) * 4096
                         + (b2 - 0x80) * 64 + (b3 - 0x80) in
                if is_cont b1 && is_cont b2 && is_cont b3
                   && (0x10000 <=? c) && (c <=? 0x10FFFF) then
                  bind (utf8_decode_fuel fuel' r3) (fun s => Ok (c :: s))
                else Raise UnicodeDecodeError
            | _ => Raise UnicodeDecodeError
            end
          else Raise UnicodeDecodeError
      end
  end.

(** Every code point takes at least one byte, so [length b] is enough fuel. *)
Definition utf8_decode (b : bytes) : result pystr :=
  utf8_decode_fuel (length b) b.

End Py.

Import Py.

(** ** Resource limits ([optimizations.py], class [ResourceLimits]) *)

Module ResourceLimits.

Record t : Type := mk {
  max_memory_mb : Z;
  max_cpu_seconds : Q;
  max_file_size_mb : Z;
  max_output_size_mb : Z
}.

Definition default : t :=
  {| max_memory_mb := 4096; max_cpu_seconds := 300;
     max_file_size_mb := 100; max_output_size_mb := 10 |}.

Definition truncation_marker (dropped : Z) : pystr :=
  lit (String (ascii_of_nat 10) "... [truncated ") ++ str_of_int dropped
  ++ lit " chars]".

Definition limit_output (self : t) (output : pystr) : pystr :=
  let max_chars := max_output_size_mb self * 1024 * 1024 in
  if len output >? max_chars then
    slice_to max_chars output ++ truncation_marker (len output - max_chars)
  else output.

(** A text of 262145 copies of U+1F600, four bytes each in UTF-8. *)
Definition wide_text : pystr := repeat 0x1F600 (Z.to_nat 262145).

End ResourceLimits.

(** Comparisons of floats, as booleans. *)
Definition Qleb (a b : Q) : bool := Qle_bool a b.
Definition Qltb (a b : Q) : bool := negb (Qle_bool b a).

(** ** Floats (CPython's [float], an IEEE 754 binary64) *)

Module Float64.

(** What a float operation yields: a finite double, given by its exact
    value, or an infinity. *)
Inductive pyfloat : Type :=
| Fin (q : Q)
| PosInf
| NegInf.

Definition pow2 (k : Z) : Q := (2 ^ k)%Q.

(** The integer nearest to [x]; of two equally near, the even one. *)
Definition rne (x : Q) : Z :=
  let f := Qfloor x in
  match (x - inject_Z f ?= 1 # 2)%Q with
  | Lt => f
  | Gt => f + 1
  | Eq => if Z.even f then f else f + 1
  end.

(** The binary exponent of [q > 0]: the [k] with [2^k <= q < 2^(k+1)]. *)
Definition ilog2 (q : Q) : Z :=
  let k := Z.log2 (Qnum q) - Z.log2 (Zpos (Qden q)) in
  if Qle_bool (pow2 k) q then k else k - 1.

(** The double nearest to [q > 0]: a multiple of [2^e] with at most 53
    significant bits, where [e] is at least -1074 (below [2^-1022] the
    doubles are subnormal and evenly spaced). *)
Definition exponent (q : Q) : Z := Z.max (-1074) (ilog2 q - 52).

Definition mantissa (q : Q) : Z := rne (q / pow2 (exponent q)).

Definition round_pos (q : Q) : Q :=
  Qred (inject_Z (mantissa q) * pow2 (exponent q)).

(** Half-way between the largest double and [2^1024]: from here on,
    rounding to nearest overflows. *)
Definition overflow_threshold : Q := (pow2 1024 - pow2 970)%Q.

(** Rounding to nearest, ties to even. *)
Definition round64 (q : Q) : pyfloat :=
  match (q ?= 0)%Q with
  | Eq => Fin 0
  | Gt => if Qle_bool overflow_threshold q then PosInf else Fin (round_pos q)
  | Lt => if Qle_bool overflow_threshold (- q) then NegInf
          else Fin (- round_pos (- q))
  end.

(** The float that a decimal literal of the source denotes. *)
Definition double (q : Q) : Q :=
  match round64 q with
  | Fin y => y
  | _ => 0
  end.

(** The order of the floats. *)
Definition fle (a b : pyfloat) : Prop :=
  match a, b with
  | NegInf, _ => True
  | _, PosInf => True
  | Fin x, Fin y => (x <= y)%Q
  | _, _ => False
  end.

(** [x * y] on floats: an overflow gives an infinity and raises nothing. *)
Definition float_mul (x y : Q) : pyfloat := round64 (x * y).

(** The conversion of an [int] operand of a float operation. *)
Definition float_of_int (n : Z) : result Q :=
  match round64 (inject_Z n) with
  | Fin y => Ok y
  | _ => Raise (OverflowError "int too large to convert to float")
  end.

(** [a / b] on two [int]s: the quotient, rounded once. *)
Definition int_truediv (a b : Z) : result Q :=
  if b =? 0 then Raise ZeroDivisionError
  else
    match round64 (inject_Z a / inject_Z b) with
    | Fin y => Ok y
    | _ => Raise (OverflowError "integer division result too large for a float")
    end.

End Float64.

Import Float64.

(** ** Response compression ([optimizations.py]) *)

Module Compression.

(** The [gzip] module of the Python standard library. *)
Class Gzip : Type := {
  gzip_compress : bytes -> bytes;
  gzip_decompress : bytes -> result bytes
}.

(** What the library promises: decompression undoes compression. *)
Class GzipLossless (G : Gzip) : Prop :=
  gzip_roundtrip : forall b : bytes, gzip_decompress (gzip_compress b) = Ok b.

Section WithGzip.
Context {G : Gzip}.

Definition compress_response (content : pystr) : result bytes :=
  bind (utf8_encode content) (fun b => Ok (gzip_compress b)).

Definition decompress_response (data : bytes) : result pystr :=
  bind (gzip_decompress data) utf8_decode.

Definition compress_if_large (content : pystr) (threshold : Z)
  : result (bool * bytes) :=
  bind (utf8_encode content) (fun content_bytes =>
    if len content_bytes >=? threshold then
      let compressed := gzip_compress content_bytes in
      if Qltb (inject_Z (len compressed))
              (inject_Z (len content_bytes) * (9 # 10)) then
        Ok (true, compressed)
      else Ok (false, content_bytes)
    else Ok (false, content_bytes)).

Definition decompress_if_needed (is_compressed : bool) (data : bytes)
  : result pystr :=
  if is_compressed then bind (gzip_decompress data) utf8_decode
  else utf8_decode data.

End WithGzip.

(** A codec that stores its input behind a one-byte header; it is used to
    exhibit an instance of the [gzip] interface that is lossless. *)
Definition stored_compress (b : bytes) : bytes := 0x1f :: b.

Definition stored_decompress (b : bytes) : result bytes :=
  match b with
  | 0x1f :: r => Ok r
  | _ => Raise BadGzipFile
  end.

Definition stored_codec : Gzip :=
  {| gzip_compress := stored_compress; gzip_decompress := stored_decompress |}.

End Compression.

(** ** Early termination heuristics ([optimizations.py]) *)

(** [hashlib.sha256(b).hexdigest()] and the two float formats the code uses;
    their values are not computed here. *)
Class Hashlib : Type := { sha256_hexdigest : bytes -> pystr }.

Class FloatFormat : Type := {
  format_pct1 : Q -> pystr;   (* f"{x:.1%}" *)
  format_2f : Q -> pystr      (* f"{x:.2f}" *)
}.

(** Instances of the interfaces for running the code on examples: the
    digest is the text itself and a float prints as nothing.  No property
    below depends on them. *)
Definition toy_hashlib : Hashlib := {| sha256_hexdigest := fun b => b |}.
Definition toy_format : FloatFormat :=
  {| format_pct1 := fun _ => []; format_2f := fun _ => [] |}.

(** Sub-sequence test on strings: [sub in s]. *)
Fixpoint prefixb (p s : pystr) : bool :=
  match p, s with
  | [], _ => true
  | a :: p', b :: s' => (a =? b) && prefixb p' s'
  | _ :: _, [] => false
  end.

Fixpoint containsb (sub s : pystr) : bool :=
  prefixb sub s ||
  match s with
  | [] => false
  | _ :: s' => containsb sub s'
  end.

Definition contains (sub s : pystr) : Prop :=
  exists pre post, s = pre ++ sub ++ post.

Module TerminationHeuristics.

Record t : Type := mk {
  min_steps : Z;
  max_consecutive_failures : Z;
  max_similar_patches : Z;
  min_success_rate : Q;
  _patch_hashes : list pystr;      (* deque(maxlen=20), oldest first *)
  _consecutive_failures : Z;
  _total_attempts : Z;
  _successful_attempts : Z
}.

Definition maxlen : Z := 20.

(** [deque.append] on a deque bounded by [maxlen]: a full deque drops its
    leftmost item. *)
Definition deque_append {A} (d : list A) (x : A) : list A :=
  if len d <? maxlen then d ++ [x] else skipn 1 d ++ [x].

(** The dataclass constructor followed by [__post_init__]. *)
Definition init (min_steps max_consecutive_failures max_similar_patches : Z)
  (min_success_rate : Q) : t :=
  {| min_steps := min_steps;
     max_consecutive_failures := max_consecutive_failures;
     max_similar_patches := max_similar_patches;
     min_success_rate := min_success_rate;
     _patch_hashes := [];
     _consecutive_failures := 0;
     _total_attempts := 0;
     _successful_attempts := 0 |}.

(** The defaults of the dataclass; [0.05] is the double nearest to 5/100. *)
Definition default : t := init 3 5 3 (double (5 # 100)).

Definition set_counters (self : t) (cf ta sa : Z) : t :=
  {| min_steps := min_steps self;
     max_consecutive_failures := max_consecutive_failures self;
     max_similar_patches := max_similar_patches self;
     min_success_rate := min_success_rate self;
     _patch_hashes := _patch_hashes self;
     _consecutive_failures := cf;
     _total_attempts := ta;
     _successful_attempts := sa |}.

Definition set_hashes (self : t) (h : list pystr) : t :=
  {| min_steps := min_steps self;
     max_consecutive_failures := max_consecutive_failures self;
     max_similar_patches := max_similar_patches self;
     min_success_rate := min_success_rate self;
     _patch_hashes := h;
     _consecutive_failures := _consecutive_failures self;
     _total_attempts := _total_attempts self;
     _successful_attempts := _successful_attempts self |}.

(** The three rules of the specification, in its words; the quotient of
    the third is the float the code computes. *)
Definition rule_consecutive (self : t) : Prop :=
  _consecutive_failures self >= max_consecutive_failures self.

(** The buffer holds at least [max_similar_patches] entries and the most
    recent [max_similar_patches] of them are all the same hash. *)
Definition rule_identical (self : t) : Prop :=
  max_similar_patches self <= len (_patch_hashes self)
  /\ exists h : pystr,
       skipn (length (_patch_hashes self)
              - Z.to_nat (max_similar_patches self)) (_patch_hashes self)
       = repeat h (Z.to_nat (max_similar_patches self)).

(** [self._successful_attempts / self._total_attempts]: the division of
    two [int]s, which yields the float nearest to the quotient. *)
Definition success_rate (self : t) : result Q :=
  int_truediv (_successful_attempts self) (_total_attempts self).

Definition rule_rate (self : t) : Prop :=
  _total_attempts self >= min_steps self
  /\ exists rate : Q,
       success_rate self = Ok rate /\ (rate < min_success_rate self)%Q.

Section WithHash.
Context {H : Hashlib} {F : FloatFormat}.

(** [hashlib.sha256(diff.encode()).hexdigest()[:16]] *)
Definition patch_hash (diff : pystr) : result pystr :=
  bind (utf8_encode diff) (fun b => Ok (slice_to 16 (sha256_hexdigest b))).

(** [record_attempt] mutates [self]; the object after the call is returned
    beside the outcome, since the counters are already updated when the
    encoding of [diff] raises. *)
Definition record_attempt (self : t) (diff : pystr) (success : bool)
  : result unit * t :=
  let total := _total_attempts self + 1 in
  let self1 :=
    if success then
      set_counters self 0 total (_successful_attempts self + 1)
    else
      set_counters self (_consecutive_failures self + 1) total
                   (_successful_attempts self) in
  match patch_hash diff with
  | Raise e => (Raise e, self1)
  | Ok h => (Ok tt, set_hashes self1 (deque_append (_patch_hashes self1) h))
  end.

Definition consecutive_reason (n : Z) : pystr :=
  lit "Too many consecutive failures (" ++ str_of_int n ++ lit ")".

Definition identical_reason : pystr := lit "Repeated identical patches".

Definition rate_reason (rate : Q) : pystr :=
  lit "Success rate too low (" ++ format_pct1 rate ++ lit ")".

Definition should_terminate (self : t) : result (bool * pystr) :=
  if _consecutive_failures self >=? max_consecutive_failures self then
    Ok (true, consecutive_reason (_consecutive_failures self))
  else
    let similar :=
      if len (_patch_hashes self) >=? max_similar_patches self then
        let recent := slice_from_neg (max_similar_patches self)
                                     (_patch_hashes self) in
        len (remove_dups recent) =? 1
      else false in
    if similar then Ok (true, identical_reason)
    else if _total_attempts self >=? min_steps self then
      bind (int_truediv (_successful_attempts self) (_total_attempts self))
           (fun rate =>
              if Qltb rate (min_success_rate self)
              then Ok (true, rate_reason rate)
              else Ok (false, []))
    else Ok (false, []).

Definition reset (self : t) : t :=
  set_hashes (set_counters self 0 0 0) [].

(** The outcomes of a run: the object after the listed attempts, or the
    first exception. *)
Fixpoint record_all (self : t) (attempts : list (pystr * bool)) : result t :=
  match attempts with
  | [] => Ok self
  | (diff, success) :: rest =>
      match record_attempt self diff success with
      | (Ok _, self') => record_all self' rest
      | (Raise e, _) => Raise e
      end
  end.

End WithHash.

End TerminationHeuristics.

(** ** Retry with exponential backoff ([optimizations.py]) *)

Module Retry.

(** The platform under the interpreter, as far as the wrapper depends on
    it: [pow] of the C library, which [**] calls on a base that is positive
    and not 1, and the system call behind [time.sleep], which is given the
    length in nanoseconds and fails when the kernel refuses it or a signal
    handler raises. *)
Class Platform : Type := {
  libm_pow : Q -> Q -> pyfloat;
  clock_nanosleep : Z -> result unit
}.

(** A platform for running examples: [pow] rounds the exact power (of an
    integral exponent) and the kernel accepts every sleep. *)
Definition exact_platform : Platform :=
  {| libm_pow := fun x w => round64 (x ^ Qfloor w);
     clock_nanosleep := fun _ => Ok tt |}.

(** What the wrapper does to the outside world, in order. *)
Inductive event : Type :=
| Call                 (* one invocation of the wrapped function *)
| Sleep (delay : Q).   (* one [time.sleep(delay)] that returned *)

(** The arguments of the decorator; [base_delay], [max_delay] and
    [exponential_base] are floats. *)
Record policy : Type := mk {
  max_retries : Z;
  base_delay : Q;
  max_delay : Q;
  exponential_base : Q;
  retryable_exceptions : exn -> bool   (* isinstance(e, retryable_exceptions) *)
}.

Definition default : policy :=
  {| max_retries := 3; base_delay := 1; max_delay := 60;
     exponential_base := 2; retryable_exceptions := fun _ => true |}.

(** [min(a, b)]: [b] when [b < a], and [a] otherwise. *)
Definition py_min (a : pyfloat) (b : Q) : pyfloat :=
  match a with
  | Fin x => if Qltb b x then Fin b else Fin x
  | PosInf => Fin b
  | NegInf => NegInf
  end.

(** [range(n)] *)
Definition range (n : Z) : list Z := map Z.of_nat (seq 0 (Z.to_nat n)).

Definition sleep_overflow : exn :=
  OverflowError "timestamp too large to convert to C _PyTime_t".

Section WithPlatform.
Context {P : Platform}.

(** [x ** n] for a float [x] and an [int] [n]: the exponent is converted to
    a float, the cases CPython decides itself come first, and an infinite
    result of [pow] is an [OverflowError]. *)
Definition float_pow (x : Q) (n : Z) : result Q :=
  bind (float_of_int n) (fun w =>
    if Qeq_bool w 0 then Ok 1%Q
    else if Qeq_bool x 0 then
      if Qltb w 0 then Raise ZeroDivisionError else Ok 0%Q
    else
      let negate := Qltb x 0 && Z.odd (Qfloor w) in
      if Qeq_bool (Qabs x) 1 then Ok (if negate then (- (1))%Q else 1%Q)
      else
        match libm_pow (Qabs x) w with
        | Fin y => Ok (if negate then (- y)%Q else y)
        | _ => Raise (OverflowError "(34, 'Numerical result out of range')")
        end).

(** [min(base_delay * (exponential_base ** attempt), max_delay)] *)
Definition backoff_delay (p : policy) (attempt : Z) : result pyfloat :=
  bind (float_pow (exponential_base p) attempt) (fun pw =>
    Ok (py_min (float_mul (base_delay p) pw) (max_delay p))).

(** The length [time.sleep] hands to the kernel: the float number of
    nanoseconds, rounded away from zero. *)
Definition sleep_ns (d : Q) : Z :=
  match float_mul d 1000000000 with
  | Fin ns => if Qltb ns 0 then Qfloor ns else Qceiling ns
  | _ => 0
  end.

(** [time.sleep(d)] on a finite float.  The number of nanoseconds must lie
    between [-2^63] and [2^63]; a negative one is refused, and it is
    negative exactly when [d] is, or when it is [2^63], which the conversion
    to a 64-bit integer wraps around. *)
Definition sleep (d : Q) : result unit :=
  match float_mul d 1000000000 with
  | Fin ns =>
      if Qleb (- pow2 63) ns && Qleb ns (pow2 63) then
        if Qltb d 0 || Qeq_bool ns (pow2 63) then
          Raise (ValueError "sleep length must be non-negative")
        else clock_nanosleep (sleep_ns d)
      else Raise sleep_overflow
  | _ => Raise sleep_overflow
  end.

(** The length of the sleep that follows attempt [attempt], when the delay
    is computed and finite. *)
Definition delay_value (p : policy) (attempt : Z) : Q :=
  match backoff_delay p attempt with
  | Ok (Fin d) => d
  | _ => 0
  end.

Section Wrapper.
Context {S T : Type}.
Variable p : policy.
(** The wrapped function with its arguments applied; [S] is the state of
    the world it runs in, so that successive calls may differ. *)
Variable func : S -> result T * S.

(** An error raised inside the [except] block (by [**] or by [time.sleep])
    leaves the wrapper at once. *)
Fixpoint loop (attempts : list Z) (last_exception : option exn) (s : S)
  (trace : list event) : result T * S * list event :=
  match attempts with
  | [] =>
      (* raise last_exception *)
      match last_exception with
      | Some e => (Raise e, s, trace)
      | None =>
          (Raise (TypeError "exceptions must derive from BaseException"),
           s, trace)
      end
  | attempt :: rest =>
      let '(r, s') := func s in
      let trace' := trace ++ [Call] in
      match r with
      | Ok v => (Ok v, s', trace')
      | Raise e =>
          if retryable_exceptions p e then
            if attempt <? max_retries p then
              match backoff_delay p attempt with
              | Raise e' => (Raise e', s', trace')
              | Ok (Fin delay) =>
                  match sleep delay with
                  | Ok _ => loop rest (Some e) s' (trace' ++ [Sleep delay])
                  | Raise e' => (Raise e', s', trace')
                  end
              | Ok _ => (Raise sleep_overflow, s', trace')
              end
            else (Raise e, s', trace')
          else (Raise e, s', trace')
      end
  end.

Definition wrapper (s : S) : result T * S * list event :=
  loop (range (max_retries p + 1)) None s [].

End Wrapper.

(** Attempts [a, a+1, ..., a+n-1], each followed by its sleep. *)
Definition failed_attempts (p : policy) (a n : nat) : list event :=
  flat_map (fun k => [Call; Sleep (delay_value p (Z.of_nat k))]) (seq a n).

End WithPlatform.

Definition is_call (ev : event) : bool :=
  match ev with Call => true | Sleep _ => false end.

Definition calls (trace : list event) : Z := len (List.filter is_call trace).

Definition sleeps (trace : list event) : list Q :=
  omap (fun ev => match ev with Sleep d => Some d | _ => None end) trace.

(** The world after [k] calls of the wrapped function. *)
Definition state_after {S T} (func : S -> result T * S) (k : nat) (s : S) : S :=
  Nat.iter k (fun s' => snd (func s')) s.

(** A function that fails at every call, with an error that tells the calls
    apart; the state counts the calls made so far. *)
Definition always_failing (s : nat) : result unit * nat :=
  (Raise (RuntimeError (pretty s)), Datatypes.S s).

(** [raise last_exception], the statement after the loop. *)
Definition raise_last {T} (last : option exn) : result T :=
  match last with
  | Some e => Raise e
  | None => Raise (TypeError "exceptions must derive from BaseException")
  end.

End Retry.

(** ** Memoization with time-to-live ([optimizations.py]) *)

Module Memoize.

Section Wrapper.
Context {A V S : Type}.
(** [str((args, tuple(sorted(kwargs.items()))))] *)
Variable key_of : A -> pystr.
Variable ttl_seconds : Q.
Variable maxsize : Z.
(** The wrapped function; [S] is the state of the world it runs in. *)
Variable func : A -> S -> result V * S.

(** The closure's [cache]: a [dict], which keeps insertion order. *)
Definition dict : Type := list (pystr * (Q * V)).

Fixpoint dict_get (key : pystr) (d : dict) : option (Q * V) :=
  match d with
  | [] => None
  | (k, v) :: r => if bool_decide (k = key) then Some v else dict_get key r
  end.

(** [del cache[key]] *)
Definition dict_del (key : pystr) (d : dict) : dict :=
  List.filter (fun kv => negb (bool_decide (fst kv = key))) d.

(** [cache[key] = v]: an existing key keeps its place. *)
Fixpoint dict_set (key : pystr) (v : Q * V) (d : dict) : dict :=
  match d with
  | [] => [(key, v)]
  | (k, v0) :: r =>
      if bool_decide (k = key) then (k, v) :: r
      else (k, v0) :: dict_set key v r
  end.

(** [min(cache, key=lambda k: cache[k][0])]: the first key, in iteration
    order, among those of least timestamp. *)
Fixpoint min_from (best : pystr) (best_ts : Q) (rest : dict) : pystr :=
  match rest with
  | [] => best
  | (k, (ts, _)) :: r =>
      if Qltb ts best_ts then min_from k ts r else min_from best best_ts r
  end.

Definition oldest_key (d : dict) : result pystr :=
  match d with
  | [] => Raise (ValueError "min() arg is an empty sequence")
  | (k, (ts, _)) :: r => Ok (min_from k ts r)
  end.

(** One call of the wrapper at clock reading [now]: the outcome, the cache
    afterwards and the world afterwards. *)
Definition wrapper (args : A) (now : Q) (cache : dict) (s : S)
  : result V * dict * S :=
  let key := key_of args in
  let '(hit, cache1) :=
    match dict_get key cache with
    | Some (timestamp, value) =>
        if Qltb (now - timestamp) ttl_seconds then (Some value, cache)
        else (None, dict_del key cache)
    | None => (None, cache)
    end in
  match hit with
  | Some value => (Ok value, cache1, s)
  | None =>
      let '(r, s') := func args s in
      match r with
      | Raise e => (Raise e, cache1, s')
      | Ok value =>
          if len cache1 >=? maxsize then
            match oldest_key cache1 with
            | Raise e => (Raise e, cache1, s')
            | Ok k => (Ok value,
                       dict_set key (now, value) (dict_del k cache1), s')
            end
          else (Ok value, dict_set key (now, value) cache1, s')
      end
  end.

Definition keys (d : dict) : list pystr := map fst d.

(** The key of the call is absent from the cache, or its entry has
    expired. *)
Definition stale (args : A) (now : Q) (cache : dict) : Prop :=
  dict_get (key_of args) cache = None
  \/ exists ts v0, dict_get (key_of args) cache = Some (ts, v0)
                   /\ ~ (now - ts < ttl_seconds)%Q.

End Wrapper.

(** A wrapped function for examples: it takes no argument, returns 7 and
    counts its calls in the state. *)
Definition unit_key (_ : unit) : pystr := lit "((), ())".
Definition counting_func (_ : unit) (s : nat) : result Z * nat :=
  (Ok 7, Datatypes.S s).

End Memoize.

(** ** Subprocess pool ([optimizations.py]) *)

Module SubprocessPool.

(** A worker object.  [process] identifies the [Popen] handle by the
    process it started. *)
Record SubprocessWorker : Type := mkWorker {
  process : nat;
  last_used : Q;
  in_use : bool
}.

(** Worker objects live in a heap and are referred to by address: the pool's
    list and the caller of [acquire] hold the same object. *)
Abbreviation ref := nat.
Abbreviation heap := (gmap nat SubprocessWorker).

Record t : Type := mk {
  max_workers : Z;
  max_idle_time : Q;
  _workers : list ref
}.

(** The dataclass constructor followed by [__post_init__]. *)
Definition init (max_workers : Z) (max_idle_time : Q) : t :=
  {| max_workers := max_workers; max_idle_time := max_idle_time;
     _workers := [] |}.

Definition set_workers (self : t) (ws : list ref) : t :=
  {| max_workers := max_workers self; max_idle_time := max_idle_time self;
     _workers := ws |}.

(** The operating system, as far as the pool observes it: [running pid]
    says that [poll()] on that process returns [None], and [spawn] is what
    a new [Popen] does: it starts a process, or raises (the shell is
    missing, no process or descriptor is left). *)
Record os : Type := mkOs {
  running : nat -> bool;
  spawn : result nat
}.

(** A worker that [acquire] may hand out: not in use, and its process has
    not exited. *)
Definition available (o : os) (h : heap) (w : ref) : Prop :=
  exists worker, h !! w = Some worker /\ in_use worker = false
                 /\ running o (process worker) = true.

(** The scan of [acquire]: the first worker, in list order, that is not in
    use and whose process has not exited. *)
Fixpoint find_available (o : os) (h : heap) (ws : list ref) : option ref :=
  match ws with
  | [] => None
  | w :: rest =>
      match h !! w with
      | Some worker =>
          if negb (in_use worker) && running o (process worker) then Some w
          else find_available o h rest
      | None => find_available o h rest
      end
  end.

(** [_create_worker]: when [Popen] returns, the new object is allocated at
    an unused address; when it raises, no object is made. *)
Definition _create_worker (o : os) (now : Q) (h : heap)
  : result (ref * heap) :=
  bind (spawn o) (fun pid =>
    let w := fresh (dom h) in
    Ok (w, <[w := {| process := pid; last_used := now; in_use := false |}]> h)).

(** [acquire]: the outcome, the heap and the pool afterwards.  An error of
    [_create_worker] leaves the [with] block, and so [acquire], with the
    pool as it was. *)
Definition acquire (o : os) (now : Q) (h : heap) (self : t)
  : result (option ref) * heap * t :=
  match find_available o h (_workers self) with
  | Some w =>
      (Ok (Some w),
       alter (fun worker => {| process := process worker; last_used := now;
                               in_use := true |}) w h,
       self)
  | None =>
      if len (_workers self) <? max_workers self then
        match _create_worker o now h with
        | Raise e => (Raise e, h, self)
        | Ok (w, h1) =>
            let h2 := alter (fun worker => {| process := process worker;
                                              last_used := last_used worker;
                                              in_use := true |}) w h1 in
            (Ok (Some w), h2, set_workers self (_workers self ++ [w]))
        end
      else (Ok None, h, self)
  end.


(** What [cleanup] and [shutdown] send to a process. *)
Inductive signal : Type :=
| Terminate (pid : nat)   (* process.terminate() *)
| Kill (pid : nat).       (* process.kill() *)

(** Stopping one worker: [terminate()], then [wait(timeout=5)]; when the
    wait times out the handler calls [kill()].  [exits pid] says that the
    process exits within the wait. *)
Definition stop (exits : nat -> bool) (pid : nat) : list signal :=
  if exits pid then [Terminate pid] else [Terminate pid; Kill pid].

(** The test of [cleanup]: not in use and idle for longer than
    [max_idle_time]. *)
Definition idle_expired (self : t) (now : Q) (worker : SubprocessWorker)
  : bool :=
  negb (in_use worker) && Qltb (max_idle_time self) (now - last_used worker).

(** The loop of [cleanup]: the workers kept, in order, and the signals
    sent. *)
Fixpoint cleanup_scan (self : t) (now : Q) (exits : nat -> bool) (h : heap)
  (ws : list ref) : list ref * list signal :=
  match ws with
  | [] => ([], [])
  | w :: rest =>
      let '(active, sent) := cleanup_scan self now exits h rest in
      match h !! w with
      | Some worker =>
          if idle_expired self now worker
          then (active, stop exits (process worker) ++ sent)
          else (w :: active, sent)
      | None => (w :: active, sent)
      end
  end.

Definition cleanup (self : t) (now : Q) (exits : nat -> bool) (h : heap)
  : t * list signal :=
  let '(active, sent) := cleanup_scan self now exits h (_workers self) in
  (set_workers self active, sent).

Definition shutdown (self : t) (exits : nat -> bool) (h : heap)
  : t * list signal :=
  (set_workers self [],
   flat_map (fun w => match h !! w with
                      | Some worker => stop exits (process worker)
                      | None => []
                      end) (_workers self)).

End SubprocessPool.

(** ** Asynchronous model client ([llm_async.py]) *)

Module LlmAsync.

Record AsyncLLMResponse : Type := mkResponse {
  content : pystr;
  model : pystr;
  temperature : Q;
  prompt_tokens : Z;
  completion_tokens : Z;
  latency_ms : Q;
  cached : bool
}.

(** A literal between double quotes. *)
Definition quoted (s : string) : pystr := [34] ++ lit s ++ [34].

(** The content of the mock response; the source's literal is
    [{"mode": "tool_request", "requests": [], "why": "Mocked - no API key"}]
    with the JSON quotes as written there. *)
Definition mock_content : pystr :=
  lit "{" ++ quoted "mode" ++ lit ": " ++ quoted "tool_request" ++ lit ", "
  ++ quoted "requests" ++ lit ": [], " ++ quoted "why" ++ lit ": "
  ++ quoted "Mocked - no API key" ++ lit "}".

(** The process environment the client reads. *)
Record env : Type := mkEnv {
  HTTPX_AVAILABLE : bool;
  DEEPSEEK_API_KEY : option pystr    (* os.environ.get("DEEPSEEK_API_KEY") *)
}.

(** [if not api_key]: unset, or set to the empty string. *)
Definition no_api_key (e : env) : bool :=
  match DEEPSEEK_API_KEY e with
  | None => true
  | Some k => len k =? 0
  end.

Record request : Type := mkRequest {
  authorization : pystr;
  body_model : pystr;
  body_messages : list (pystr * pystr);   (* role, content *)
  body_temperature : Q;
  request_timeout : Q
}.

(** The decoded body of a chat completion, as far as the client reads it. *)
Record chat_data : Type := mkData {
  first_choice_content : result pystr;  (* data["choices"][0]["message"]["content"] *)
  usage_prompt_tokens : option Z;       (* usage.get("prompt_tokens") *)
  usage_completion_tokens : option Z
}.

Record reply : Type := mkReply {
  raise_for_status : result unit;
  json : result chat_data
}.

Inductive exchange : Type :=
| PostRaises (e : exn)      (* transport failure or timeout inside [client.post] *)
| Replied (r : reply).

(** What the network and the clock do during one call. *)
Record net : Type := mkNet {
  post : request -> exchange;
  start_time : Q;
  end_time : Q
}.

Definition truthy (s : option pystr) : bool :=
  match s with
  | None => false
  | Some x => negb (len x =? 0)
  end.

Definition call_deepseek_async (e : env) (n : net) (prompt : pystr)
  (temperature : Q) (model : pystr) (system_prompt : option pystr)
  (timeout : Q) : result AsyncLLMResponse :=
  if negb (HTTPX_AVAILABLE e) then
    Raise (RuntimeError "httpx not installed. Run: pip install httpx")
  else if no_api_key e then
    Ok {| content := mock_content; model := model;
          temperature := temperature; prompt_tokens := 0;
          completion_tokens := 0; latency_ms := 0; cached := false |}
  else
    let api_key := default [] (DEEPSEEK_API_KEY e) in
    let messages :=
      (if truthy system_prompt
       then [(lit "system", default [] system_prompt)] else [])
      ++ [(lit "user", prompt)] in
    let req := {| authorization := lit "Bearer " ++ api_key;
                  body_model := model; body_messages := messages;
                  body_temperature := temperature;
                  request_timeout := timeout |} in
    match post n req with
    | PostRaises ex => Raise ex
    | Replied r =>
        bind (raise_for_status r) (fun _ =>
        bind (json r) (fun data =>
        let latency := ((end_time n - start_time n) * 1000)%Q in
        bind (first_choice_content data) (fun c =>
        Ok {| content := c; model := model; temperature := temperature;
              prompt_tokens := default 0 (usage_prompt_tokens data);
              completion_tokens := default 0 (usage_completion_tokens data);
              latency_ms := latency; cached := false |})))
    end.

(** *** [asyncio.gather] with [return_exceptions=True]

    The event loop completes the tasks in some order; [gather] keeps one
    slot per task, in the order the tasks were passed, and a finished task
    stores its outcome (its value, or the exception it raised) in its own
    slot.  [gather] returns once every slot is filled. *)

Abbreviation slots A := (list (option A)).

Fixpoint gather_run {A} (completion : list nat) (outcomes : list A)
  (sl : slots A) : slots A :=
  match completion with
  | [] => sl
  | i :: rest =>
      match outcomes !! i with
      | Some r => gather_run rest outcomes (<[i := Some r]> sl)
      | None => gather_run rest outcomes sl
      end
  end.

Fixpoint collect {A} (sl : slots A) : option (list A) :=
  match sl with
  | [] => Some []
  | None :: _ => None
  | Some r :: rest => option_map (cons r) (collect rest)
  end.

Definition gather {A} (completion : list nat) (outcomes : list A)
  : option (list A) :=
  collect (gather_run completion outcomes (replicate (length outcomes) None)).

(** [call_parallel]: task [i] is the call for the [i]-th pair and talks to
    the network through [nets i]. *)
Definition tasks (e : env) (nets : nat -> net) (prompts : list (pystr * Q))
  (model : pystr) (system_prompt : option pystr) (timeout : Q)
  : list (result AsyncLLMResponse) :=
  imap (fun i pt => call_deepseek_async e (nets i) (fst pt) (snd pt) model
                                        system_prompt timeout) prompts.

Definition call_parallel (e : env) (nets : nat -> net)
  (completion : list nat) (prompts : list (pystr * Q)) (model : pystr)
  (system_prompt : option pystr) (timeout : Q)
  : option (list (result AsyncLLMResponse)) :=
  gather completion (tasks e nets prompts model system_prompt timeout).

(** A network for examples: the call of task 1 fails in transport, every
    other call gets the reply [{}]. *)
Definition ok_reply (c : pystr) : exchange :=
  Replied (mkReply (Ok tt) (Ok (mkData (Ok c) (Some 10) (Some 20)))).

Definition second_fails (i : nat) : net :=
  mkNet (fun _ => if (i =? 1)%nat then PostRaises (HTTPError "503")
                  else ok_reply (lit "{}")) 0 1.

(** A parsed patch: the dictionaries [generate_patches_parallel] builds. *)
Inductive patch (J : Type) : Type :=
| ErrorPatch (error : exn)         (* {"mode": "error", "error": str(resp)} *)
| InvalidJson (raw : pystr)        (* to_dict on content that is not JSON *)
| Parsed (value : J).
Arguments ErrorPatch {J} error.
Arguments InvalidJson {J} raw.
Arguments Parsed {J} value.

Section Patches.
Context {J : Type}.
(** [json.loads] on a text: the document, [JSONDecodeError], or another
    error ([RecursionError] on a document nested too deeply). *)
Variable json_loads : pystr -> result J.

(** Only [JSONDecodeError] is caught. *)
Definition to_dict (r : AsyncLLMResponse) : result (patch J) :=
  match json_loads (content r) with
  | Ok v => Ok (Parsed v)
  | Raise JSONDecodeError => Ok (InvalidJson (content r))
  | Raise e => Raise e
  end.

(** The loop over the responses: the patches, or the first error of
    [to_dict], which loses the patches built so far. *)
Fixpoint patches_of (responses : list (result AsyncLLMResponse))
  : result (list (patch J)) :=
  match responses with
  | [] => Ok []
  | resp :: rest =>
      bind (match resp with
            | Raise ex => Ok (ErrorPatch ex)
            | Ok r => to_dict r
            end) (fun pt =>
      bind (patches_of rest) (fun pts => Ok (pt :: pts)))
  end.

Definition DEFAULT_TIMEOUT : Q := 120.

Definition generate_patches_parallel (e : env) (nets : nat -> net)
  (completion : list nat) (prompt : pystr) (temperatures : option (list Q))
  (model : pystr) (system_prompt : option pystr)
  : option (result (list (patch J))) :=
  let temperatures :=
    default [0%Q; double (2 # 10); double (4 # 10)] temperatures in
  let prompts := map (fun temp => (prompt, temp)) temperatures in
  option_map patches_of
    (call_parallel e nets completion prompts model system_prompt
                   DEFAULT_TIMEOUT).

End Patches.

End LlmAsync.

(** ** Response cache ([llm_async.py], class [LLMCache]) *)

Module LLMCache.

(** One row of the SQLite table [cache]. *)
Record row : Type := mkRow {
  prompt_hash : pystr;      (* TEXT PRIMARY KEY *)
  prompt : pystr;
  model : pystr;
  temperature : Q;
  response : pystr;
  created_at : Q;
  hit_count : Z
}.

(** The cache object and its database.  [_conn] says whether the connection
    is open ([self._conn] is not [None]); [table] is the content of the
    database file, in rowid order, which outlives the connection. *)
Record t : Type := mk {
  max_age_hours : Z;
  max_entries : Z;
  _conn : bool;
  table : list row
}.

Definition set_table (self : t) (rows : list row) : t :=
  {| max_age_hours := max_age_hours self; max_entries := max_entries self;
     _conn := _conn self; table := rows |}.

(** A new cache on an empty database: the constructor and [_ensure_db]. *)
Definition init (max_age_hours max_entries : Z) : t :=
  {| max_age_hours := max_age_hours; max_entries := max_entries;
     _conn := true; table := [] |}.

Definition close (self : t) : t :=
  {| max_age_hours := max_age_hours self; max_entries := max_entries self;
     _conn := false; table := table self |}.

Definition has_hash (h : pystr) (r : row) : bool :=
  bool_decide (prompt_hash r = h).

(** [SELECT ... WHERE prompt_hash = ?] followed by [fetchone()]. *)
Definition select_by_hash (h : pystr) (rows : list row) : option row :=
  List.find (has_hash h) rows.

(** [DELETE FROM cache WHERE prompt_hash = ?] *)
Definition delete_by_hash (h : pystr) (rows : list row) : list row :=
  List.filter (fun r => negb (has_hash h r)) rows.

(** [UPDATE cache SET hit_count = hit_count + 1 WHERE prompt_hash = ?] *)
Definition bump_hit_count (h : pystr) (rows : list row) : list row :=
  map (fun r => if has_hash h r then
                  {| prompt_hash := prompt_hash r; prompt := prompt r;
                     model := model r; temperature := temperature r;
                     response := response r; created_at := created_at r;
                     hit_count := hit_count r + 1 |}
                else r) rows.

(** [INSERT OR REPLACE]: a row with the same primary key is removed and the
    new row takes the next rowid, so it comes last. *)
Definition insert_or_replace (r : row) (rows : list row) : list row :=
  delete_by_hash (prompt_hash r) rows ++ [r].

(** [ORDER BY created_at ASC]: rows with equal [created_at] stay in rowid
    order, as in a scan of the index [idx_created]. *)
Fixpoint insert_by_created (r : row) (l : list row) : list row :=
  match l with
  | [] => [r]
  | x :: l' =>
      if Qleb (created_at r) (created_at x) then r :: l
      else x :: insert_by_created r l'
  end.

Definition order_by_created_at (rows : list row) : list row :=
  fold_right insert_by_created [] rows.

Section WithHash.
Context {H : Hashlib} {F : FloatFormat}.

Definition _hash_prompt (prompt model : pystr) (temperature : Q)
  : result pystr :=
  let key := model ++ lit ":" ++ format_2f temperature ++ lit ":" ++ prompt in
  bind (utf8_encode key) (fun b => Ok (slice_to 32 (sha256_hexdigest b))).

(** [get] at clock reading [now]: the outcome and the cache afterwards. *)
Definition get (self : t) (now : Q) (prompt model : pystr) (temperature : Q)
  : result (option LlmAsync.AsyncLLMResponse) * t :=
  if negb (_conn self) then (Ok None, self)
  else
    match _hash_prompt prompt model temperature with
    | Raise e => (Raise e, self)
    | Ok h =>
        match select_by_hash h (table self) with
        | None => (Ok None, self)
        | Some r =>
            let age_hours := ((now - created_at r) / 3600)%Q in
            if Qltb (inject_Z (max_age_hours self)) age_hours then
              (Ok None, set_table self (delete_by_hash h (table self)))
            else
              (Ok (Some {| LlmAsync.content := response r;
                           LlmAsync.model := model;
                           LlmAsync.temperature := temperature;
                           LlmAsync.prompt_tokens := 0;
                           LlmAsync.completion_tokens := 0;
                           LlmAsync.latency_ms := 0;
                           LlmAsync.cached := true |}),
               set_table self (bump_hit_count h (table self)))
        end
    end.

(** [time.time() - (self.max_age_hours * 3600)] at clock reading [now]: the
    [int] is converted to a float, which raises when it is too large. *)
Definition cutoff (self : t) (now : Q) : result Q :=
  bind (float_of_int (max_age_hours self * 3600))
       (fun age => Ok (now - age)%Q).

(** The largest [int] SQLite takes as a parameter. *)
Definition SQLITE_INT_MAX : Z := 9223372036854775807.

(** [_cleanup] at clock reading [now]: the outcome and the cache
    afterwards.  The cutoff is computed before any statement runs; the
    [LIMIT] parameter is bound after the first [DELETE]. *)
Definition _cleanup (self : t) (now : Q) : result unit * t :=
  if negb (_conn self) then (Ok tt, self)
  else
    match cutoff self now with
    | Raise e => (Raise e, self)
    | Ok cutoff =>
        let rows1 :=
          List.filter (fun r => negb (Qltb (created_at r) cutoff))
                      (table self) in
        let count := len rows1 in
        if count >? max_entries self then
          let excess := count - max_entries self in
          if excess >? SQLITE_INT_MAX then
            (Raise (OverflowError
                      "Python int too large to convert to SQLite INTEGER"),
             set_table self rows1)
          else
            let victims :=
              map prompt_hash
                  (firstn (Z.to_nat excess) (order_by_created_at rows1)) in
            (Ok tt,
             set_table self
               (List.filter
                  (fun r => negb (bool_decide (prompt_hash r ∈ victims)))
                  rows1))
        else (Ok tt, set_table self rows1)
    end.

(** [set]: [now] is the clock reading stored in the row, [now'] the one
    [_cleanup] takes afterwards.  The parameters of the [INSERT] are bound
    as UTF-8: the prompt and the model were encoded for the key already, so
    the response is the one text whose binding can still raise; nothing is
    written then.  An error of [_cleanup] comes after the row is written. *)
Definition set (self : t) (now now' : Q) (prompt model : pystr)
  (temperature : Q) (response : pystr) : result unit * t :=
  if negb (_conn self) then (Ok tt, self)
  else
    match _hash_prompt prompt model temperature with
    | Raise e => (Raise e, self)
    | Ok h =>
        match utf8_encode response with
        | Raise e => (Raise e, self)
        | Ok _ =>
            let r := {| prompt_hash := h; prompt := slice_to 1000 prompt;
                        model := model; temperature := temperature;
                        response := response; created_at := now;
                        hit_count := 0 |} in
            _cleanup (set_table self (insert_or_replace r (table self))) now'
        end
    end.

End WithHash.

(** The primary key is unique. *)
Definition keys_unique (rows : list row) : Prop :=
  NoDup (map prompt_hash rows).


(** The rows [_cleanup] keeps on account of their age: those not created
    before the cutoff. *)
Definition not_expired (cutoff : Q) (rows : list row) : list row :=
  List.filter (fun r => negb (Qltb (created_at r) cutoff)) rows.

(** [stats]: the answer on a closed cache, or the three aggregates of the
    query.  [SUM] and [AVG] over no row are [NULL], which the code replaces
    by [0] and [0.0]. *)
Inductive stats_result : Type :=
| NotConnected                                   (* {"error": "not connected"} *)
| Stats (entries total_hits : Z) (avg_hits : Q).

Definition sum_hit_count (rows : list row) : Z :=
  fold_right Z.add 0 (map hit_count rows).

Definition stats (self : t) : stats_result :=
  if negb (_conn self) then NotConnected
  else
    let entries := len (table self) in
    let total_hits := sum_hit_count (table self) in
    Stats entries total_hits
          (if entries =? 0 then 0%Q
           else (inject_Z total_hits / inject_Z entries)%Q).

End LLMCache.

(** ** Cached client ([llm_async.py], [call_deepseek_cached]) *)

Module CachedClient.
Import LlmAsync.

Section WithHash.
Context {H : Hashlib} {F : FloatFormat}.

(** [cache] is the cache object the call works on (the argument, or the
    default cache); an [LLMCache] object is always true in a condition.
    The clock is read by [get] ([t_get]), by [set] ([t_set]) and by
    [_cleanup] ([t_cleanup]).  The API call is made with the default
    timeout. *)
Definition call_deepseek_cached (e : env) (n : net)
  (t_get t_set t_cleanup : Q) (prompt : pystr) (temperature : Q)
  (model : pystr) (system_prompt : option pystr) (use_cache : bool)
  (cache : LLMCache.t) : result AsyncLLMResponse * LLMCache.t :=
  let '(looked_up, cache1) :=
    if use_cache then LLMCache.get cache t_get prompt model temperature
    else (Ok None, cache) in
  match looked_up with
  | Raise ex => (Raise ex, cache1)
  | Ok (Some cached_response) => (Ok cached_response, cache1)
  | Ok None =>
      match call_deepseek_async e n prompt temperature model system_prompt
                                DEFAULT_TIMEOUT with
      | Raise ex => (Raise ex, cache1)
      | Ok response =>
          if use_cache && negb (cached response) then
            match LLMCache.set cache1 t_set t_cleanup prompt model
                               temperature (content response) with
            | (Raise ex, cache2) => (Raise ex, cache2)
            | (Ok _, cache2) => (Ok response, cache2)
            end
          else (Ok response, cache1)
      end
  end.

End WithHash.

End CachedClient.

(** ** Streaming client ([llm_async.py], [call_deepseek_streaming]) *)

Module LlmStreaming.
Import LlmAsync.

(** What [client.stream] gives back: the status check, the lines
    [aiter_lines] delivers, and how the iteration ends once they are
    delivered (normally, or with a transport error). *)
Record stream_reply : Type := mkStreamReply {
  stream_status : result unit;      (* response.raise_for_status() *)
  stream_lines : list pystr;
  stream_end : result unit
}.

Inductive stream_exchange : Type :=
| StreamRaises (e : exn)
| Streaming (r : stream_reply).

Section Stream.
Context {J : Type}.
(** [json.loads]; [None] stands for [JSONDecodeError]. *)
Variable json_loads : pystr -> option J.
(** [data["choices"][0].get("delta", {}).get("content", "")]; the lookups
    raise on a document of another shape, and a content that is absent or
    null is the empty text. *)
Variable delta_content : J -> result pystr.

(** The body of the [async for]: the chunks yielded, in order, and how the
    generator ends. *)
Fixpoint consume (lines : list pystr) (ending : result unit)
  : list pystr * result unit :=
  match lines with
  | [] => ([], ending)
  | line :: rest =>
      if prefixb (lit "data: ") line then
        let data_str := skipn 6 line in
        if bool_decide (data_str = lit "[DONE]") then ([], Ok tt)
        else
          match json_loads data_str with
          | None => consume rest ending
          | Some data =>
              match delta_content data with
              | Raise ex => ([], Raise ex)
              | Ok content =>
                  if 0 <? len content then
                    let '(chunks, r) := consume rest ending in
                    (content :: chunks, r)
                  else consume rest ending
              end
          end
      else consume rest ending
  end.

Definition call_deepseek_streaming (e : env)
  (stream : request -> stream_exchange) (prompt : pystr) (temperature : Q)
  (model : pystr) (system_prompt : option pystr) (timeout : Q)
  : list pystr * result unit :=
  if negb (HTTPX_AVAILABLE e) then
    ([], Raise (RuntimeError "httpx not installed. Run: pip install httpx"))
  else if no_api_key e then ([mock_content], Ok tt)
  else
    let api_key := default [] (DEEPSEEK_API_KEY e) in
    let messages :=
      (if truthy system_prompt
       then [(lit "system", default [] system_prompt)] else [])
      ++ [(lit "user", prompt)] in
    let req := {| authorization := lit "Bearer " ++ api_key;
                  body_model := model; body_messages := messages;
                  body_temperature := temperature;
                  request_timeout := timeout |} in
    match stream req with
    | StreamRaises ex => ([], Raise ex)
    | Streaming r =>
        match stream_status r with
        | Raise ex => ([], Raise ex)
        | Ok _ => consume (stream_lines r) (stream_end r)
        end
    end.

End Stream.

End LlmStreaming.

(** ** Batch processing ([optimizations.py], [batch_process]) *)

Module Batch.

(** [results[idx] = result] on a list of [len(items)] slots. *)
Fixpoint fill {A B} (processor : A -> result B) (indexed : list (nat * A))
  (results : list (option B)) : result (list (option B)) :=
  match indexed with
  | [] => Ok results
  | (idx, item) :: rest =>
      match processor item with
      | Raise ex => Raise ex
      | Ok r => fill processor rest (<[idx := Some r]> results)
      end
  end.

(** [processor] is a function of its item.  [executor.map] hands back the
    results in the order of the items, and raises the error of the first
    item, in that order, whose processing failed.  [ThreadPoolExecutor]
    refuses a [max_workers] that is not positive. *)
Definition batch_process {A B} (items : list A) (processor : A -> result B)
  (batch_size max_workers : Z) : result (list (option B)) :=
  let results := replicate (length items) None in
  if max_workers <=? 0 then
    Raise (ValueError "max_workers must be greater than 0")
  else fill processor (imap (fun idx item => (idx, item)) items) results.

End Batch.

(** * Properties *)

(** ** Lists and slices *)

Module PyFacts.

Lemma len_nonneg {A} (l : list A) : 0 <= len l.
Proof. unfold len. lia. Qed.

Lemma len_app {A} (l1 l2 : list A) : len (l1 ++ l2) = len l1 + len l2.
Proof. unfold len. rewrite length_app. lia. Qed.

Lemma len_repeat {A} (x : A) (n : nat) : len (repeat x n) = Z.of_nat n.
Proof. unfold len. now rewrite repeat_length. Qed.

Lemma slice_to_nonneg {A} (k : Z) (l : list A) :
  0 <= k -> slice_to k l = firstn (Z.to_nat k) l.
Proof.
  intros Hk. unfold slice_to.
  destruct (0 <=? k) eqn:E; [reflexivity | lia].
Qed.

Lemma len_firstn {A} (k : Z) (l : list A) :
  0 <= k <= len l -> len (firstn (Z.to_nat k) l) = k.
Proof.
  unfold len. intros Hk. rewrite length_firstn. lia.
Qed.

Lemma utf8_encode_repeat (c : Z) (bs : bytes) (n : nat) :
  encode_cp c = Some bs ->
  utf8_encode (repeat c n) = Ok (concat (repeat bs n)).
Proof.
  intros Hc. induction n as [|n IH]; simpl.
  - reflexivity.
  - rewrite Hc, IH. reflexivity.
Qed.

Lemma len_concat_repeat {A} (bs : list A) (n : nat) :
  len (concat (repeat bs n)) = Z.of_nat n * len bs.
Proof.
  induction n as [|n IH].
  - reflexivity.
  - cbn [repeat concat]. rewrite len_app, IH. lia.
Qed.

Lemma Qltb_lt (a b : Q) : Qltb a b = true <-> (a < b)%Q.
Proof.
  unfold Qltb. rewrite negb_true_iff, <- not_true_iff_false, Qle_bool_iff.
  split; [apply Qnot_le_lt | apply Qlt_not_le].
Qed.

End PyFacts.

(** ** Floats *)

Module Float64Facts.

Lemma pow2_pos (k : Z) : (0 < pow2 k)%Q.
Proof. apply Qpower_0_lt. reflexivity. Qed.

Lemma pow2_add (a b : Z) : (pow2 (a + b) == pow2 a * pow2 b)%Q.
Proof. apply Qpower_plus. discriminate. Qed.

Lemma pow2_sub (a b : Z) : (pow2 (a - b) == pow2 a / pow2 b)%Q.
Proof. apply Qpower_minus. discriminate. Qed.

Lemma pow2_le (a b : Z) : a <= b -> (pow2 a <= pow2 b)%Q.
Proof. intros H. apply Qpower_le_compat_l; [exact H | discriminate]. Qed.

Lemma pow2_lt (a b : Z) : a < b -> (pow2 a < pow2 b)%Q.
Proof. intros H. apply Qpower_lt_compat_l; [exact H | reflexivity]. Qed.

Lemma pow2_lt_inv (a b : Z) : (pow2 a < pow2 b)%Q -> a < b.
Proof. intros H. apply (Qpower_lt_compat_l_inv 2); [exact H | reflexivity]. Qed.

Lemma pow2_inject (k : Z) : 0 <= k -> (inject_Z (2 ^ k) == pow2 k)%Q.
Proof. intros H. apply (Zpower_Qpower 2 k H). Qed.

(** *** Rounding to the nearest integer *)

Lemma rne_cases (x : Q) :
  (rne x = Qfloor x /\ (x - inject_Z (Qfloor x) <= 1 # 2)%Q)
  \/ (rne x = Qfloor x + 1 /\ (1 # 2 <= x - inject_Z (Qfloor x))%Q).
Proof.
  unfold rne. destruct (Qcompare_spec (x - inject_Z (Qfloor x)) (1 # 2))
    as [E|L|G].
  - destruct (Z.even (Qfloor x)).
    + left. split; [reflexivity|]. rewrite E. apply Qle_refl.
    + right. split; [reflexivity|]. rewrite E. apply Qle_refl.
  - left. split; [reflexivity|]. now apply Qlt_le_weak.
  - right. split; [reflexivity|]. now apply Qlt_le_weak.
Qed.

Lemma rne_inject (n : Z) : rne (inject_Z n) = n.
Proof.
  unfold rne. rewrite Qfloor_Z.
  destruct (Qcompare_spec (inject_Z n - inject_Z n) (1 # 2)) as [E|L|G].
  - exfalso. ring_simplify in E. discriminate E.
  - reflexivity.
  - exfalso. ring_simplify in G. discriminate G.
Qed.

Lemma floor_bounds (x : Q) :
  (inject_Z (Qfloor x) <= x)%Q /\ (x < inject_Z (Qfloor x) + 1)%Q.
Proof.
  split; [apply Qfloor_le|].
  pose proof (Qlt_floor x) as H. rewrite inject_Z_plus in H. exact H.
Qed.

Lemma rne_mono (x y : Q) : (x <= y)%Q -> rne x <= rne y.
Proof.
  intros Hxy. pose proof (Qfloor_resp_le x y Hxy) as Hf.
  destruct (Z.eq_dec (Qfloor x) (Qfloor y)) as [E|N].
  - (* same floor: compare the fractional parts *)
    unfold rne. rewrite <- E.
    destruct (Qcompare_spec (x - inject_Z (Qfloor x)) (1 # 2)) as [E1|L1|G1];
      destruct (Qcompare_spec (y - inject_Z (Qfloor x)) (1 # 2))
        as [E2|L2|G2]; try destruct (Z.even (Qfloor x)); try lia;
      exfalso; lra.
  - assert (Hlt : Qfloor x + 1 <= Qfloor y) by lia.
    destruct (rne_cases x) as [[-> _]|[-> _]];
      destruct (rne_cases y) as [[-> Hy]|[-> _]]; try lia.
Qed.

Lemma rne_le_Z (x : Q) (n : Z) : (x <= inject_Z n)%Q -> rne x <= n.
Proof. intros H. rewrite <- (rne_inject n). now apply rne_mono. Qed.

Lemma rne_ge_Z (x : Q) (n : Z) : (inject_Z n <= x)%Q -> n <= rne x.
Proof. intros H. rewrite <- (rne_inject n). now apply rne_mono. Qed.

(** *** The binary exponent *)

Lemma ilog2_spec (q : Q) :
  (0 < q)%Q -> (pow2 (ilog2 q) <= q)%Q /\ (q < pow2 (ilog2 q + 1))%Q.
Proof.
  intros Hq. destruct q as [n d]. unfold ilog2. cbn [Qnum Qden].
  assert (Hn : 0 < n) by (unfold Qlt in Hq; simpl in Hq; lia).
  set (a := Z.log2 n). set (b := Z.log2 (Z.pos d)).
  destruct (Z.log2_spec n Hn) as [Ha1 Ha2]. fold a in Ha1, Ha2.
  destruct (Z.log2_spec (Z.pos d) ltac:(lia)) as [Hb1 Hb2].
  fold b in Hb1, Hb2.
  assert (Ha0 : 0 <= a) by apply Z.log2_nonneg.
  assert (Hb0 : 0 <= b) by apply Z.log2_nonneg.
  assert (Hq' : (n # d == inject_Z n / inject_Z (Z.pos d))%Q)
    by apply Qmake_Qdiv.
  assert (Hdpos : (0 < inject_Z (Z.pos d))%Q) by reflexivity.
  assert (Hup : (n # d < pow2 (a - b + 1))%Q).
  { replace (a - b + 1) with ((a + 1) - b) by lia.
    rewrite pow2_sub, Hq'.
    apply Qlt_shift_div_l; [apply pow2_pos|].
    assert (E : (inject_Z n / inject_Z (Z.pos d) * pow2 b
                 == inject_Z n * (pow2 b / inject_Z (Z.pos d)))%Q)
      by (field; discriminate).
    rewrite E. clear E.
    apply Qle_lt_trans with (inject_Z n).
    - rewrite <- (Qmult_1_r (inject_Z n)) at 2.
      apply Qmult_le_l; [unfold Qlt; simpl; lia|].
      apply Qle_shift_div_r; [exact Hdpos|]. rewrite Qmult_1_l.
      rewrite <- pow2_inject by lia. rewrite <- Zle_Qle. exact Hb1.
    - rewrite <- pow2_inject by lia. rewrite <- Zlt_Qlt. exact Ha2. }
  assert (Hlow : (pow2 (a - b - 1) < n # d)%Q).
  { replace (a - b - 1) with (a - (b + 1)) by lia.
    rewrite pow2_sub, Hq'.
    apply Qlt_shift_div_r; [apply pow2_pos|].
    assert (E : (inject_Z n / inject_Z (Z.pos d) * pow2 (b + 1)
                 == inject_Z n * (pow2 (b + 1) / inject_Z (Z.pos d)))%Q)
      by (field; discriminate).
    rewrite E. clear E.
    apply Qle_lt_trans with (inject_Z n).
    - rewrite <- pow2_inject by lia. rewrite <- Zle_Qle. exact Ha1.
    - rewrite <- (Qmult_1_r (inject_Z n)) at 1.
      apply Qmult_lt_l; [unfold Qlt; simpl; lia|].
      apply Qlt_shift_div_l; [exact Hdpos|]. rewrite Qmult_1_l.
      rewrite <- pow2_inject by lia. rewrite <- Zlt_Qlt. exact Hb2. }
  destruct (Qle_bool (pow2 (a - b)) (n # d)) eqn:E.
  - apply Qle_bool_iff in E. split; [exact E | exact Hup].
  - split; [now apply Qlt_le_weak|].
    replace (a - b - 1 + 1) with (a - b) by lia.
    apply Qnot_le_lt. intros Hle. apply Qle_bool_iff in Hle. congruence.
Qed.

Lemma ilog2_mono (q q' : Q) : (0 < q)%Q -> (q <= q')%Q -> ilog2 q <= ilog2 q'.
Proof.
  intros Hq Hle.
  destruct (ilog2_spec q Hq) as [H1 _].
  destruct (ilog2_spec q') as [_ H2]; [eapply Qlt_le_trans; eauto|].
  assert (H : (pow2 (ilog2 q) < pow2 (ilog2 q' + 1))%Q).
  { eapply Qle_lt_trans; [exact H1|]. eapply Qle_lt_trans; eauto. }
  apply pow2_lt_inv in H. lia.
Qed.


(** *** Rounding a positive rational *)

Lemma round_pos_eq (q : Q) :
  (round_pos q == inject_Z (mantissa q) * pow2 (exponent q))%Q.
Proof. unfold round_pos. apply Qred_correct. Qed.

Lemma mantissa_nonneg (q : Q) : (0 <= q)%Q -> 0 <= mantissa q.
Proof.
  intros Hq. unfold mantissa. apply rne_ge_Z.
  apply Qle_shift_div_l; [apply pow2_pos|]. now rewrite Qmult_0_l.
Qed.

Lemma mantissa_le (q : Q) : (0 < q)%Q -> mantissa q <= 2 ^ 53.
Proof.
  intros Hq. unfold mantissa. apply rne_le_Z.
  apply Qle_shift_div_r; [apply pow2_pos|].
  rewrite pow2_inject by lia. rewrite <- pow2_add.
  destruct (ilog2_spec q Hq) as [_ H]. apply Qlt_le_weak.
  eapply Qlt_le_trans; [exact H|]. apply pow2_le. unfold exponent. lia.
Qed.

Lemma mantissa_ge (q : Q) :
  (0 < q)%Q -> -1074 < exponent q -> 2 ^ 52 <= mantissa q.
Proof.
  intros Hq He. unfold mantissa. apply rne_ge_Z.
  apply Qle_shift_div_l; [apply pow2_pos|].
  rewrite pow2_inject by lia. rewrite <- pow2_add.
  destruct (ilog2_spec q Hq) as [H _].
  eapply Qle_trans; [|exact H]. apply pow2_le. unfold exponent in *. lia.
Qed.

Lemma round_pos_nonneg (q : Q) : (0 <= q)%Q -> (0 <= round_pos q)%Q.
Proof.
  intros Hq. rewrite round_pos_eq. apply Qmult_le_0_compat.
  - change 0%Q with (inject_Z 0). rewrite <- Zle_Qle.
    now apply mantissa_nonneg.
  - apply Qlt_le_weak, pow2_pos.
Qed.

Lemma round_pos_mono (q q' : Q) :
  (0 < q)%Q -> (q <= q')%Q -> (round_pos q <= round_pos q')%Q.
Proof.
  intros Hq Hle. assert (Hq' : (0 < q')%Q) by (eapply Qlt_le_trans; eauto).
  rewrite !round_pos_eq.
  pose proof (ilog2_mono q q' Hq Hle) as Hlog.
  destruct (Z.eq_dec (exponent q) (exponent q')) as [E|N].
  - unfold mantissa. rewrite <- E.
    apply Qmult_le_compat_r; [|apply Qlt_le_weak, pow2_pos].
    rewrite <- Zle_Qle. apply rne_mono. apply Qmult_le_compat_r; [exact Hle|].
    apply Qlt_le_weak, Qinv_lt_0_compat, pow2_pos.
  - assert (Hlt : exponent q + 1 <= exponent q')
      by (unfold exponent in *; lia).
    assert (Hn : -1074 < exponent q') by (unfold exponent in *; lia).
    apply Qle_trans with (pow2 (53 + exponent q)).
    + rewrite pow2_add, <- (pow2_inject 53) by lia.
      apply Qmult_le_compat_r; [|apply Qlt_le_weak, pow2_pos].
      rewrite <- Zle_Qle. now apply mantissa_le.
    + apply Qle_trans with (pow2 (52 + exponent q')).
      * apply pow2_le. lia.
      * rewrite pow2_add, <- (pow2_inject 52) by lia.
        apply Qmult_le_compat_r; [|apply Qlt_le_weak, pow2_pos].
        rewrite <- Zle_Qle. now apply mantissa_ge.
Qed.


(** *** Rounding any rational *)

Lemma fle_refl (a : pyfloat) : fle a a.
Proof. destruct a; simpl; auto. apply Qle_refl. Qed.

Lemma round64_pos (q : Q) :
  (0 < q)%Q ->
  round64 q = if Qle_bool overflow_threshold q then PosInf
              else Fin (round_pos q).
Proof.
  intros Hq. unfold round64.
  destruct (Qcompare_spec q 0) as [E|L|G]; [| |reflexivity].
  - rewrite E in Hq. discriminate Hq.
  - exfalso. exact (Qlt_irrefl _ (Qlt_trans _ _ _ Hq L)).
Qed.

Lemma round64_neg (q : Q) :
  (q < 0)%Q ->
  round64 q = if Qle_bool overflow_threshold (- q) then NegInf
              else Fin (- round_pos (- q)).
Proof.
  intros Hq. unfold round64.
  destruct (Qcompare_spec q 0) as [E|L|G]; [|reflexivity|].
  - rewrite E in Hq. discriminate Hq.
  - exfalso. exact (Qlt_irrefl _ (Qlt_trans _ _ _ Hq G)).
Qed.

Lemma round64_zero (q : Q) : (q == 0)%Q -> round64 q = Fin 0.
Proof.
  intros Hq. unfold round64.
  destruct (Qcompare_spec q 0) as [E|L|G]; [reflexivity| |].
  - rewrite Hq in L. discriminate L.
  - rewrite Hq in G. discriminate G.
Qed.

(** A rational that is not negative rounds to a float that is not. *)
Lemma round64_nonneg (q : Q) : (0 <= q)%Q -> fle (Fin 0) (round64 q).
Proof.
  intros Hq. destruct (Qlt_le_dec 0 q) as [Hpos|Hle].
  - rewrite (round64_pos q Hpos).
    destruct (Qle_bool overflow_threshold q); simpl; [exact I|].
    now apply round_pos_nonneg.
  - rewrite round64_zero; [apply Qle_refl|]. now apply Qle_antisym.
Qed.

Lemma round64_nonpos (q : Q) : (q <= 0)%Q -> fle (round64 q) (Fin 0).
Proof.
  intros Hq. destruct (Qlt_le_dec q 0) as [Hneg|Hle].
  - rewrite (round64_neg q Hneg).
    destruct (Qle_bool overflow_threshold (- q)); simpl; [exact I|].
    assert (H : (0 <= round_pos (- q))%Q) by (apply round_pos_nonneg; lra).
    lra.
  - rewrite round64_zero; [apply Qle_refl|]. now apply Qle_antisym.
Qed.

Lemma fle_trans_0 (a b : pyfloat) : fle a (Fin 0) -> fle (Fin 0) b -> fle a b.
Proof.
  destruct a as [x| |], b as [y| |]; simpl; try tauto.
  intros. eapply Qle_trans; eauto.
Qed.

(** Rounding is monotone. *)
Lemma round64_mono (q q' : Q) : (q <= q')%Q -> fle (round64 q) (round64 q').
Proof.
  intros Hle.
  destruct (Qlt_le_dec 0 q) as [Hpos|Hnp].
  - assert (Hpos' : (0 < q')%Q) by exact (Qlt_le_trans _ _ _ Hpos Hle).
    rewrite (round64_pos q Hpos), (round64_pos q' Hpos').
    destruct (Qle_bool overflow_threshold q) eqn:E.
    + apply Qle_bool_iff in E.
      assert (E' : Qle_bool overflow_threshold q' = true)
        by (apply Qle_bool_iff; exact (Qle_trans _ _ _ E Hle)).
      rewrite E'. exact I.
    + destruct (Qle_bool overflow_threshold q'); simpl; [exact I|].
      now apply round_pos_mono.
  - destruct (Qlt_le_dec q' 0) as [Hneg'|Hnn'].
    + assert (Hneg : (q < 0)%Q) by exact (Qle_lt_trans _ _ _ Hle Hneg').
      rewrite (round64_neg q Hneg), (round64_neg q' Hneg').
      destruct (Qle_bool overflow_threshold (- q')) eqn:E'.
      * apply Qle_bool_iff in E'.
        assert (E : Qle_bool overflow_threshold (- q) = true)
          by (apply Qle_bool_iff; lra).
        rewrite E. exact I.
      * destruct (Qle_bool overflow_threshold (- q)); simpl; [exact I|].
        assert (H : (round_pos (- q') <= round_pos (- q))%Q)
          by (apply round_pos_mono; lra).
        lra.
    + apply fle_trans_0; [now apply round64_nonpos | now apply round64_nonneg].
Qed.

(** The conversions and the quotient of two [int]s in range. *)
Lemma int_truediv_unit (a b : Z) :
  0 <= a <= b -> 0 < b ->
  exists rate : Q, int_truediv a b = Ok rate /\ (0 <= rate)%Q.
Proof.
  intros Ha Hb. unfold int_truediv.
  destruct (Z.eqb_spec b 0) as [E|_]; [lia|].
  assert (Hb' : (0 < inject_Z b)%Q)
    by (change 0%Q with (inject_Z 0); now rewrite <- Zlt_Qlt).
  assert (Hq : (0 <= inject_Z a / inject_Z b)%Q).
  { apply Qle_shift_div_l; [exact Hb'|]. rewrite Qmult_0_l.
    change 0%Q with (inject_Z 0). rewrite <- Zle_Qle. lia. }
  assert (Hq1 : (inject_Z a / inject_Z b <= 1)%Q).
  { apply Qle_shift_div_r; [exact Hb'|]. rewrite Qmult_1_l.
    rewrite <- Zle_Qle. lia. }
  pose proof (round64_nonneg _ Hq) as Hn.
  destruct (Qlt_le_dec 0 (inject_Z a / inject_Z b)) as [Hpos|Hle].
  - rewrite (round64_pos _ Hpos) in *.
    destruct (Qle_bool overflow_threshold (inject_Z a / inject_Z b)) eqn:E.
    + apply Qle_bool_iff in E. exfalso.
      assert (H1 : (1 < overflow_threshold)%Q) by reflexivity.
      lra.
    + eexists. split; [reflexivity|exact Hn].
  - rewrite round64_zero in * by (now apply Qle_antisym).
    eexists. split; [reflexivity|exact Hn].
Qed.

(** *** Integers a double holds exactly *)

Lemma ilog2_inject (n : Z) : 0 < n -> ilog2 (inject_Z n) = Z.log2 n.
Proof.
  intros Hn. unfold ilog2, inject_Z. cbn [Qnum Qden].
  change (Z.log2 1) with 0. rewrite Z.sub_0_r.
  destruct (Z.log2_spec n Hn) as [H1 _].
  assert (E : Qle_bool (pow2 (Z.log2 n)) (n # 1) = true).
  { apply Qle_bool_iff. rewrite <- pow2_inject by apply Z.log2_nonneg.
    change (n # 1) with (inject_Z n). now rewrite <- Zle_Qle. }
  now rewrite E.
Qed.

Lemma round_pos_inject (n : Z) :
  0 < n <= 2 ^ 53 -> round_pos (inject_Z n) = inject_Z n.
Proof.
  intros Hn. unfold round_pos, mantissa, exponent.
  rewrite ilog2_inject by lia.
  destruct (Z.log2_spec n ltac:(lia)) as [H1 H2].
  assert (H0 : 0 <= Z.log2 n) by apply Z.log2_nonneg.
  assert (H53 : Z.log2 n <= 53).
  { change 53 with (Z.log2 (2 ^ 53)). apply Z.log2_le_mono. lia. }
  rewrite Z.max_r by lia.
  set (e := Z.log2 n - 52).
  assert (Hk : exists k : Z, (inject_Z n / pow2 e == inject_Z k)%Q).
  { destruct (Z.le_gt_cases e 0) as [Hle|Hgt].
    - exists (n * 2 ^ (- e)). rewrite inject_Z_mult, pow2_inject by lia.
      unfold pow2. rewrite Qpower_opp. field.
      apply Qpower_not_0. discriminate.
    - assert (He : e = 1) by (unfold e in *; lia).
      assert (Hn53 : n = 2 ^ 53).
      { unfold e in He. assert (Z.log2 n = 53) by lia.
        rewrite H in H1. lia. }
      exists (2 ^ 52). rewrite He, Hn53. reflexivity. }
  destruct Hk as (k & Hk).
  assert (Hr : rne (inject_Z n / pow2 e) = k).
  { rewrite <- (rne_inject k). apply Z.le_antisymm; apply rne_mono;
      rewrite Hk; apply Qle_refl. }
  rewrite Hr, <- (inject_Z_Qred n). apply Qred_complete.
  rewrite <- Hk. field. apply Qpower_not_0. discriminate.
Qed.

Lemma round64_inject (n : Z) :
  Z.abs n <= 2 ^ 53 -> round64 (inject_Z n) = Fin (inject_Z n).
Proof.
  intros Hn.
  assert (Hsmall : forall m : Z, 0 < m <= 2 ^ 53 ->
            Qle_bool overflow_threshold (inject_Z m) = false).
  { intros m Hm. destruct (Qle_bool overflow_threshold (inject_Z m)) eqn:E;
      [|reflexivity].
    apply Qle_bool_iff in E. exfalso.
    assert (H1 : (inject_Z m <= inject_Z (2 ^ 53))%Q)
      by (rewrite <- Zle_Qle; lia).
    assert (H2 : (inject_Z (2 ^ 53) < overflow_threshold)%Q) by reflexivity.
    exact (Qlt_not_le _ _ H2 (Qle_trans _ _ _ E H1)). }
  destruct (Z.lt_trichotomy n 0) as [Hneg|[->|Hpos]].
  - rewrite round64_neg
      by (change 0%Q with (inject_Z 0); now rewrite <- Zlt_Qlt).
    rewrite <- inject_Z_opp, Hsmall by lia.
    rewrite round_pos_inject by lia.
    rewrite inject_Z_opp. f_equal. unfold Qopp, inject_Z. simpl.
    now rewrite Z.opp_involutive.
  - reflexivity.
  - rewrite round64_pos
      by (change 0%Q with (inject_Z 0); now rewrite <- Zlt_Qlt).
    rewrite Hsmall by lia. now rewrite round_pos_inject by lia.
Qed.

(** An [int] of at most 53 bits converts to the float of the same value. *)
Lemma float_of_int_exact (n : Z) :
  Z.abs n <= 2 ^ 53 -> float_of_int n = Ok (inject_Z n).
Proof. intros Hn. unfold float_of_int. now rewrite round64_inject. Qed.

End Float64Facts.

(** ** Resource limits *)

Module ResourceLimitsSpec.
Import ResourceLimits PyFacts.

(** C9, as stated, fails: the budget of [limit_output] counts characters,
    not bytes.  With a budget of one megabyte, a text of 262145 four-byte
    characters holds 1048580 bytes, more than the 1048576 of the budget,
    and is returned unchanged. *)
Lemma limit_output_ignores_byte_size :
  (exists b : bytes,
     utf8_encode wide_text = Ok b /\ len b = 1048580
     /\ (len b >? 1 * 1024 * 1024) = true)
  /\ limit_output (mk 4096 300 100 1) wide_text = wide_text.
Proof.
  unfold wide_text. split.
  - exists (concat (repeat [0xF0; 0x9F; 0x98; 0x80] (Z.to_nat 262145))).
    assert (Hl : len (concat (repeat [0xF0; 0x9F; 0x98; 0x80]
                                     (Z.to_nat 262145))) = 1048580).
    { rewrite len_concat_repeat. change (len [0xF0; 0x9F; 0x98; 0x80]) with 4.
      rewrite Z2Nat.id by lia. reflexivity. }
    split; [|split].
    + apply utf8_encode_repeat. reflexivity.
    + exact Hl.
    + rewrite Hl. reflexivity.
  - unfold limit_output. cbn [max_output_size_mb].
    rewrite len_repeat, Z2Nat.id by lia. reflexivity.
Qed.

(** C9, amended: [limit_output] is total (it never raises); with
    [max_chars = max_output_size_mb * 1024 * 1024] counted in characters,
    a text longer than [max_chars] characters is cut to its first
    [max_chars] characters, followed by the marker that gives the number of
    characters dropped, and a text of at most [max_chars] characters is
    returned unchanged. *)
Theorem limit_output_chars (self : t) (output : pystr) :
  0 <= max_output_size_mb self ->
  let max_chars := max_output_size_mb self * 1024 * 1024 in
  (len output > max_chars ->
     let kept := firstn (Z.to_nat max_chars) output in
     limit_output self output
       = kept ++ truncation_marker (len output - max_chars)
     /\ len kept = max_chars
     /\ len output - len kept = len output - max_chars)
  /\ (len output <= max_chars -> limit_output self output = output).
Proof.
  intros Hmb max_chars. unfold limit_output. fold max_chars.
  assert (Hmax : 0 <= max_chars) by (unfold max_chars; lia).
  split.
  - intros Hgt.
    destruct (len output >? max_chars) eqn:E; [|lia].
    rewrite slice_to_nonneg by exact Hmax.
    assert (Hk : len (firstn (Z.to_nat max_chars) output) = max_chars).
    { apply len_firstn. lia. }
    repeat split; [exact Hk | rewrite Hk; reflexivity].
  - intros Hle. destruct (len output >? max_chars) eqn:E; [lia | reflexivity].
Qed.

Lemma limit_output_chars_witness :
  limit_output (mk 4096 300 100 0) (lit "abc")
  = [] ++ truncation_marker 3.
Proof.
  apply (limit_output_chars (mk 4096 300 100 0) (lit "abc")).
  - simpl. lia.
  - vm_compute. reflexivity.
Defined.

End ResourceLimitsSpec.

(** ** UTF-8: decoding undoes encoding *)

Module Utf8Facts.

Ltac cmp_cases :=
  repeat match goal with
  | |- context [?a <=? ?b] => destruct (Z.leb_spec a b); try lia
  | |- context [?a <? ?b] => destruct (Z.ltb_spec a b); try lia
  end.

Lemma encode_cp_nonempty c bs : encode_cp c = Some bs -> bs <> [].
Proof.
  unfold encode_cp.
  repeat match goal with |- context [if ?b then _ else _] => destruct b end;
    intros E; inversion E; discriminate.
Qed.

Lemma decode_cons c bs rest fuel :
  encode_cp c = Some bs ->
  utf8_decode_fuel (S fuel) (bs ++ rest)
  = bind (utf8_decode_fuel fuel rest) (fun s => Ok (c :: s)).
Proof.
  unfold encode_cp, is_surrogate.
  destruct (Z.ltb_spec c 0); [discriminate|].
  destruct (Z.ltb_spec c 0x80).
  { intros E; inversion E; subst. cbn [app utf8_decode_fuel].
    cmp_cases. reflexivity. }
  destruct (Z.ltb_spec c 0x800).
  { intros E; inversion E; subst. cbn [app utf8_decode_fuel].
    pose proof (Z.div_mod c 64 ltac:(lia)) as Hdm.
    pose proof (Z.mod_pos_bound c 64 ltac:(lia)) as Hm.
    set (q := c / 64) in *. set (r := c mod 64) in *.
    unfold is_cont. cmp_cases. cbn [andb].
    replace ((0xC0 + q - 0xC0) * 64 + (0x80 + r - 0x80)) with c by lia.
    reflexivity. }
  destruct (Z.leb_spec 0xD800 c); destruct (Z.leb_spec c 0xDFFF);
    cbn [andb]; try discriminate.
  all: destruct (Z.ltb_spec c 0x10000); try lia.
  all: try destruct (Z.leb_spec c 0x10FFFF); try discriminate; try lia.
  all: intros E; inversion E; subst; clear E; cbn [app utf8_decode_fuel].
  all: pose proof (Z.div_mod c 64 ltac:(lia)) as Hdm;
    pose proof (Z.mod_pos_bound c 64 ltac:(lia)) as Hm;
    pose proof (Z.div_mod (c / 64) 64 ltac:(lia)) as Hdm2;
    pose proof (Z.mod_pos_bound (c / 64) 64 ltac:(lia)) as Hm2;
    pose proof (Z.div_div c 64 64 ltac:(lia) ltac:(lia)) as Hdd;
    change (64 * 64) with 4096 in Hdd.
  all: try (pose proof (Z.div_mod (c / 4096) 64 ltac:(lia)) as Hdm3;
    pose proof (Z.mod_pos_bound (c / 4096) 64 ltac:(lia)) as Hm3;
    pose proof (Z.div_div c 4096 64 ltac:(lia) ltac:(lia)) as Hdd3;
    change (4096 * 64) with 262144 in Hdd3).
  all: rewrite ?Hdd in *; 
    set (q1 := c / 4096) in *; set (r2 := (c / 64) mod 64) in *;
    set (r3 := c mod 64) in *; set (q0 := c / 64) in *.
  all: try (set (q4 := c / 262144) in *; set (r1 := q1 mod 64) in * ).
  all: unfold is_cont, is_surrogate; cmp_cases; cbn [andb negb].
  all: match goal with
       | Hc : 0 ≤ ?x |- context [Ok (?e :: _)] =>
           replace e with x by lia
       end.
  all: reflexivity.
Qed.

Lemma encode_length s : forall b, utf8_encode s = Ok b -> (length s <= length b)%nat.
Proof.
  induction s as [|c s IH]; intros b; simpl.
  - intros _. lia.
  - destruct (encode_cp c) as [bs|] eqn:Ec; [|discriminate].
    destruct (utf8_encode s) as [rest|] eqn:Es; [|discriminate].
    simpl. intros E; inversion E; subst.
    specialize (IH rest eq_refl). rewrite length_app.
    pose proof (encode_cp_nonempty _ _ Ec). destruct bs; [congruence|]. simpl. lia.
Qed.

Lemma decode_fuel_encode s : forall b fuel,
  utf8_encode s = Ok b -> (length s <= fuel)%nat -> utf8_decode_fuel fuel b = Ok s.
Proof.
  induction s as [|c s IH]; intros b fuel; simpl.
  - intros E _. inversion E. destruct fuel; reflexivity.
  - destruct (encode_cp c) as [bs|] eqn:Ec; [|discriminate].
    destruct (utf8_encode s) as [rest|] eqn:Es; [|discriminate].
    simpl. intros E Hf; inversion E; subst.
    destruct fuel as [|fuel]; [lia|].
    rewrite (decode_cons _ _ _ _ Ec), (IH rest fuel eq_refl) by lia.
    reflexivity.
Qed.

Lemma utf8_roundtrip s b : utf8_encode s = Ok b -> utf8_decode b = Ok s.
Proof.
  intros E. apply decode_fuel_encode; [exact E|]. now apply encode_length.
Qed.

End Utf8Facts.

(** ** Response compression *)

Module CompressionSpec.
Import Compression Utf8Facts.

Lemma stored_codec_lossless : GzipLossless stored_codec.
Proof. intros b. reflexivity. Qed.

(** C10, as stated, fails: a [str] may hold a lone surrogate (here U+D800),
    which UTF-8 cannot encode, and then both compressing helpers raise
    [UnicodeEncodeError] before anything is compressed, whatever [gzip]
    does. *)
Lemma compress_rejects_lone_surrogate :
  (fun G : Gzip => @compress_response G [0xD800])
    = (fun _ => Raise UnicodeEncodeError)
  /\ (fun G : Gzip => @compress_if_large G [0xD800] 1000)
    = (fun _ => Raise UnicodeEncodeError).
Proof. split; reflexivity. Qed.

(** C10, amended: for every string [s] that UTF-8 can encode (one without
    lone surrogates), [decompress_response (compress_response s)] is [s],
    and for every threshold [decompress_if_needed] applied to the pair
    returned by [compress_if_large s threshold] is [s]; [gzip] is any
    lossless codec. *)
Theorem compression_roundtrip {G : Gzip} {L : GzipLossless G}
  (s : pystr) (b : bytes) :
  utf8_encode s = Ok b ->
  bind (compress_response s) decompress_response = Ok s
  /\ forall threshold : Z,
       bind (compress_if_large s threshold)
            (fun p => decompress_if_needed (fst p) (snd p)) = Ok s.
Proof.
  intros E. pose proof (utf8_roundtrip s b E) as D. split.
  - unfold compress_response, decompress_response. rewrite E. cbn [bind].
    rewrite (L b). exact D.
  - intros threshold. unfold compress_if_large, decompress_if_needed.
    rewrite E. cbn [bind].
    destruct (len b >=? threshold); [|exact D].
    destruct (Qltb _ _); cbn [bind fst snd]; [|exact D].
    rewrite (L b). exact D.
Qed.

Lemma compression_roundtrip_witness :
  bind (compress_response (G := stored_codec) (lit "fix"))
       (decompress_response (G := stored_codec)) = Ok (lit "fix").
Proof.
  apply (compression_roundtrip (L := stored_codec_lossless)
                               (lit "fix") (lit "fix")).
  reflexivity.
Defined.

End CompressionSpec.

(** ** Sub-strings *)

Module StringFacts.

Lemma prefixb_spec (p s : pystr) : prefixb p s = true <-> exists post, s = p ++ post.
Proof.
  revert s. induction p as [|a p IH]; intros s; simpl.
  - split; [intros _; now exists s | reflexivity].
  - destruct s as [|b s].
    + split; [discriminate | intros [post E]; discriminate].
    + rewrite andb_true_iff, Z.eqb_eq, IH. split.
      * intros [-> [post ->]]. now exists post.
      * intros [post E]. inversion E; subst. split; [reflexivity | now exists post].
Qed.

Lemma containsb_spec (sub s : pystr) : containsb sub s = true <-> contains sub s.
Proof.
  unfold contains. induction s as [|b s IH]; simpl.
  - rewrite orb_false_r, prefixb_spec. split.
    + intros [post E]. exists [], post. exact E.
    + intros [pre [post E]]. destruct pre; [now exists post|discriminate].
  - rewrite orb_true_iff, prefixb_spec, IH. split.
    + intros [[post E] | [pre [post E]]].
      * exists [], post. exact E.
      * exists (b :: pre), post. simpl. now rewrite E.
    + intros [pre [post E]]. destruct pre as [|x pre].
      * left. now exists post.
      * right. inversion E; subst. now exists pre, post.
Qed.

Lemma contains_middle (pre sub post : pystr) : contains sub (pre ++ sub ++ post).
Proof. now exists pre, post. Qed.

End StringFacts.

(** ** Early termination heuristics *)

Module TerminationSpec.
Import TerminationHeuristics StringFacts PyFacts Float64Facts.

Lemma remove_dups_single {A} `{EqDecision A} (l : list A) :
  len (remove_dups l) = 1 <-> exists h, l <> [] /\ l = repeat h (length l).
Proof.
  unfold len. split.
  - intros Hl. destruct (remove_dups l) as [|h [|? ?]] eqn:E; simpl in Hl; try lia.
    exists h. assert (Hall : forall x, x ∈ l -> x = h).
    { intros x Hx. apply elem_of_remove_dups in Hx. rewrite E in Hx.
      apply list_elem_of_singleton in Hx. exact Hx. }
    split.
    + intros ->. discriminate.
    + clear E Hl. induction l as [|x l IH]; [reflexivity|]. simpl.
      rewrite (Hall x) by (left). f_equal. apply IH.
      intros y Hy. apply Hall. now right.
  - intros [h [Hne ->]]. 
    assert (Hn : length l <> 0%nat) by (destruct l; simpl; congruence).
    clear Hne. induction (length l) as [|n IH]; [congruence|].
    simpl. destruct n as [|n].
    + simpl. destruct (decide_rel elem_of h []) as [Hin|]; [inversion Hin | reflexivity].
    + destruct (decide_rel elem_of h (repeat h (S n))) as [Hin|Hnin].
      * apply IH. lia.
      * exfalso. apply Hnin. simpl. left.
Qed.


Lemma slice_from_neg_recent {A} (m : Z) (l : list A) :
  1 <= m <= len l ->
  slice_from_neg m l = skipn (length l - Z.to_nat m) l.
Proof.
  unfold slice_from_neg, len. intros Hm.
  destruct (Z.leb_spec 0 (- m)); [lia|].
  f_equal. lia.
Qed.

Section WithHash.
Context {H : Hashlib} {F : FloatFormat}.

Lemma identical_check_spec (self : t) :
  1 <= max_similar_patches self ->
  (if len (_patch_hashes self) >=? max_similar_patches self
   then len (remove_dups (slice_from_neg (max_similar_patches self)
                                         (_patch_hashes self))) =? 1
   else false) = true
  <-> rule_identical self.
Proof.
  intros Hm. unfold rule_identical.
  set (m := max_similar_patches self) in *. set (l := _patch_hashes self).
  destruct (Z.geb_spec (len l) m) as [Hge|Hlt].
  - rewrite slice_from_neg_recent by lia.
    assert (Hlen : length (skipn (length l - Z.to_nat m) l) = Z.to_nat m).
    { rewrite length_skipn. unfold len in Hge. lia. }
    rewrite Z.eqb_eq, remove_dups_single, Hlen. split.
    + intros [h [_ E]]. split; [lia | now exists h].
    + intros [_ [h E]]. exists h. split; [|exact E].
      intros E0. rewrite E0 in Hlen. simpl in Hlen. lia.
  - split; [discriminate | intros [Hle _]; lia].
Qed.

Lemma should_terminate_consecutive (self : t) :
  rule_consecutive self ->
  should_terminate self
  = Ok (true, consecutive_reason (_consecutive_failures self)).
Proof.
  unfold rule_consecutive, should_terminate. intros Hc.
  destruct (Z.geb_spec (_consecutive_failures self)
                       (max_consecutive_failures self)); [reflexivity | lia].
Qed.

Lemma consecutive_reason_contains (n : Z) :
  contains (lit "consecutive failures") (consecutive_reason n).
Proof.
  exists (lit "Too many "), (lit " (" ++ str_of_int n ++ lit ")").
  reflexivity.
Qed.

Lemma rate_reason_contains (rate : Q) :
  contains (format_pct1 rate) (rate_reason rate).
Proof. apply contains_middle. Qed.

Lemma should_terminate_rest (self : t) :
  1 <= max_similar_patches self ->
  (_total_attempts self = 0 -> 1 <= min_steps self) ->
  0 <= _successful_attempts self <= _total_attempts self ->
  ~ rule_consecutive self ->
  (rule_identical self -> should_terminate self = Ok (true, identical_reason))
  /\ (~ rule_identical self -> rule_rate self ->
      exists rate : Q,
        success_rate self = Ok rate
        /\ (rate < min_success_rate self)%Q
        /\ should_terminate self = Ok (true, rate_reason rate))
  /\ (~ rule_identical self -> ~ rule_rate self ->
      should_terminate self = Ok (false, [])).
Proof.
  intros Hm Hz Hcount Hn1. pose proof (identical_check_spec self Hm) as Hi.
  unfold should_terminate, rule_consecutive, rule_rate, success_rate in *.
  destruct (Z.geb_spec (_consecutive_failures self)
                       (max_consecutive_failures self)); [lia|].
  destruct (if len (_patch_hashes self) >=? max_similar_patches self
            then _ else false) eqn:Ei.
  - split; [intros _; reflexivity|].
    split; intros Hni; exfalso; apply Hni, Hi; reflexivity.
  - assert (Hni : ~ rule_identical self).
    { intros Hr. apply Hi in Hr. discriminate. }
    split; [intros Hr; contradiction|].
    destruct (Z.geb_spec (_total_attempts self) (min_steps self)) as [Hge|Hlt].
    + assert (Hpos : 0 < _total_attempts self).
      { destruct (Z.eq_dec (_total_attempts self) 0) as [E0|N0];
          [specialize (Hz E0); lia | lia]. }
      destruct (int_truediv_unit _ _ Hcount Hpos) as (rate & Hrate & _).
      rewrite Hrate. cbn [bind].
      destruct (Qltb rate (min_success_rate self)) eqn:Er.
      * split.
        -- intros _ _. exists rate. split; [reflexivity|].
           split; [now apply Qltb_lt | reflexivity].
        -- intros _ Hnr. exfalso. apply Hnr. split; [lia|].
           exists rate. split; [reflexivity | now apply Qltb_lt].
      * split; [|reflexivity].
        intros _ (_ & rate' & Hr' & Hlt). exfalso.
        assert (rate' = rate) by congruence. subst rate'.
        apply Qltb_lt in Hlt. congruence.
    + split; [intros _ [Hge _]; lia | reflexivity].
Qed.

Lemma record_attempt_spec (self : t) (diff hash : pystr) (success : bool) :
  patch_hash diff = Ok hash ->
  let self' := snd (record_attempt self diff success) in
  fst (record_attempt self diff success) = Ok tt
  /\ _total_attempts self' = _total_attempts self + 1
  /\ _successful_attempts self'
     = _successful_attempts self + (if success then 1 else 0)
  /\ _consecutive_failures self'
     = (if success then 0 else _consecutive_failures self + 1)
  /\ _patch_hashes self'
     = (if len (_patch_hashes self) <? maxlen then _patch_hashes self
        else skipn 1 (_patch_hashes self)) ++ [hash]
  /\ (len (_patch_hashes self) <= maxlen -> len (_patch_hashes self') <= maxlen)
  /\ (min_steps self', max_consecutive_failures self',
      max_similar_patches self', min_success_rate self')
     = (min_steps self, max_consecutive_failures self,
        max_similar_patches self, min_success_rate self).
Proof.
  intros Hh. unfold record_attempt. rewrite Hh.
  destruct success; cbn -[Z.add maxlen Z.ltb]; unfold deque_append.
  all: repeat split; try lia.
  all: try (destruct (Z.ltb_spec (len (_patch_hashes self)) maxlen); reflexivity).
  all: intros Hb; destruct (Z.ltb_spec (len (_patch_hashes self)) maxlen);
    unfold len, maxlen in *; rewrite length_app, ?length_skipn; simpl; lia.
Qed.

Lemma record_failures (attempts : list (pystr * bool)) : forall self : t,
  Forall (fun a => snd a = false /\ exists h, patch_hash (fst a) = Ok h)
         attempts ->
  exists self', record_all self attempts = Ok self'
    /\ _consecutive_failures self'
       = _consecutive_failures self + len attempts
    /\ max_consecutive_failures self' = max_consecutive_failures self.
Proof.
  induction attempts as [|[diff success] rest IH]; intros self Hall.
  - exists self. unfold len. simpl. repeat split; lia.
  - inversion Hall as [|? ? [Hs [h Hh]] Hrest]; subst. simpl in Hs, Hh. subst.
    pose proof (record_attempt_spec self diff h false Hh) as Hr.
    cbn zeta in Hr. destruct Hr as (Hok & _ & _ & Hc & _ & _ & Hcfg).
    simpl. destruct (record_attempt self diff false) as [r self1].
    simpl in *. subst r.
    destruct (IH self1 Hrest) as (self' & Hrec & Hc' & Hm').
    exists self'. split; [exact Hrec|].
    unfold len in *. simpl length. split; [lia|].
    rewrite Hm'. congruence.
Qed.

End WithHash.

(** C4, as stated, fails in five places.  (1) The reason of the second rule
    is the text [Repeated identical patches], with a capital R, which is
    not, and does not contain, [repeated identical patches].  (2) With
    [min_steps = 0] a fresh object divides by zero attempts: the call raises
    [ZeroDivisionError] instead of returning no termination.  (3) With
    [max_similar_patches = 0] and an empty buffer the second rule holds as
    worded, yet no termination is returned.  (4) A patch that UTF-8 cannot
    encode makes [record_attempt] raise after the counters are updated, and
    nothing is appended to the buffer.  (5) The rate compared with the
    threshold is the float nearest to the quotient: with the default
    threshold [0.05] (a double slightly above 5/100) and 1 success in 20
    attempts, 1/20 is below the threshold, but the float quotient is the
    threshold itself and no termination is returned. *)
Lemma should_terminate_diverges :
  ((fun F : FloatFormat =>
      @should_terminate F
        (mk 3 5 3 (double (5 # 100)) [lit "aa"; lit "aa"; lit "aa"] 0 3 3))
   = (fun _ => Ok (true, lit "Repeated identical patches"))
   /\ containsb (lit "repeated identical patches")
                (lit "Repeated identical patches") = false)
  /\ (fun F : FloatFormat =>
        @should_terminate F (init 0 5 3 (double (5 # 100))))
     = (fun _ => Raise ZeroDivisionError)
  /\ (rule_identical (init 3 5 0 (double (5 # 100)))
      /\ (fun F : FloatFormat =>
            @should_terminate F (init 3 5 0 (double (5 # 100))))
         = (fun _ => Ok (false, [])))
  /\ (fun H : Hashlib => @record_attempt H default [0xD800] false)
     = (fun _ => (Raise UnicodeEncodeError,
                  mk 3 5 3 (double (5 # 100)) [] 1 1 0))
  /\ (Qltb (1 # 20) (double (5 # 100)) = true
      /\ int_truediv 1 20 = Ok (double (5 # 100))
      /\ (fun F : FloatFormat =>
            @should_terminate F (mk 3 5 3 (double (5 # 100)) [] 0 20 1))
         = (fun _ => Ok (false, []))).
Proof.
  split; [split; reflexivity|].
  split; [reflexivity|].
  split.
  { split; [|reflexivity]. split; [reflexivity|]. exists []. reflexivity. }
  split; [reflexivity|].
  split; [vm_compute; reflexivity|].
  split; vm_compute; reflexivity.
Qed.

(** C4, amended: [record_attempt] on a patch that UTF-8 can encode
    increments the total, on success increments the successes and resets the
    consecutive failures to 0, on failure increments the consecutive
    failures, and appends the truncated hash to the buffer bounded by 20,
    dropping the oldest entry of a full buffer.  With
    [max_similar_patches >= 1], [min_steps >= 1] when no attempt is
    recorded, and counters with [0 <= successes <= total] (as
    [record_attempt] keeps them), [should_terminate] takes the first rule
    that holds: (1) [consecutive failures >= max], reason containing
    [consecutive failures]; (2) at least [max_similar_patches] entries, the
    most recent [max_similar_patches] all identical, reason
    [Repeated identical patches]; (3) [total >= min_steps] and the float
    nearest to [successes / total] is below [min_success_rate], reason
    containing that float, formatted; otherwise no termination.  From a
    fresh state, exactly [max_consecutive_failures] failing attempts give a
    termination whose reason contains [consecutive failures], and fewer do
    not reach the first rule. *)
Theorem termination_reference {H : Hashlib} {F : FloatFormat} (self : t) :
  1 <= max_similar_patches self ->
  (_total_attempts self = 0 -> 1 <= min_steps self) ->
  0 <= _successful_attempts self <= _total_attempts self ->
  (forall (diff hash : pystr) (success : bool),
     patch_hash diff = Ok hash ->
     let self' := snd (record_attempt self diff success) in
     fst (record_attempt self diff success) = Ok tt
     /\ _total_attempts self' = _total_attempts self + 1
     /\ _successful_attempts self'
        = _successful_attempts self + (if success then 1 else 0)
     /\ _consecutive_failures self'
        = (if success then 0 else _consecutive_failures self + 1)
     /\ _patch_hashes self'
        = (if len (_patch_hashes self) <? maxlen then _patch_hashes self
           else skipn 1 (_patch_hashes self)) ++ [hash]
     /\ (len (_patch_hashes self) <= maxlen ->
         len (_patch_hashes self') <= maxlen))
  /\ (rule_consecutive self ->
      exists reason, should_terminate self = Ok (true, reason)
                     /\ contains (lit "consecutive failures") reason)
  /\ (~ rule_consecutive self -> rule_identical self ->
      should_terminate self = Ok (true, lit "Repeated identical patches"))
  /\ (~ rule_consecutive self -> ~ rule_identical self -> rule_rate self ->
      exists (rate : Q) (reason : pystr),
        int_truediv (_successful_attempts self) (_total_attempts self)
        = Ok rate
        /\ (rate < min_success_rate self)%Q
        /\ should_terminate self = Ok (true, reason)
        /\ contains (format_pct1 rate) reason)
  /\ (~ rule_consecutive self -> ~ rule_identical self -> ~ rule_rate self ->
      should_terminate self = Ok (false, []))
  /\ (forall attempts : list (pystr * bool),
       Forall (fun a => snd a = false /\ exists h, patch_hash (fst a) = Ok h)
              attempts ->
       exists self', record_all (reset self) attempts = Ok self'
         /\ (len attempts = max_consecutive_failures self ->
             exists reason, should_terminate self' = Ok (true, reason)
                            /\ contains (lit "consecutive failures") reason)
         /\ (len attempts < max_consecutive_failures self ->
             ~ rule_consecutive self')).
Proof.
  intros Hm Hz Hcount.
  split; [|split; [|split; [|split; [|split]]]].
  - intros diff hash success Hh.
    pose proof (record_attempt_spec self diff hash success Hh) as Hr.
    cbn zeta in *. tauto.
  - intros Hc. exists (consecutive_reason (_consecutive_failures self)).
    split; [now apply should_terminate_consecutive
           | apply consecutive_reason_contains].
  - intros Hn. now apply should_terminate_rest.
  - intros Hn Hi Hr.
    destruct (should_terminate_rest self Hm Hz Hcount Hn) as (_ & Hrate & _).
    destruct (Hrate Hi Hr) as (rate & Hq & Hlt & Hst).
    exists rate, (rate_reason rate).
    split; [exact Hq|]. split; [exact Hlt|].
    split; [exact Hst | apply rate_reason_contains].
  - intros Hn. now apply should_terminate_rest.
  - intros attempts Hall.
    destruct (record_failures attempts (reset self) Hall)
      as (self' & Hrec & Hc & Hmax).
    exists self'. split; [exact Hrec|]. simpl in Hc, Hmax. split.
    + intros Hlen. exists (consecutive_reason (_consecutive_failures self')).
      split; [|apply consecutive_reason_contains].
      apply should_terminate_consecutive. unfold rule_consecutive. lia.
    + intros Hlen. unfold rule_consecutive. lia.
Qed.

(** Four recorded failures of four different patches: the first two rules
    do not hold, the rate [0 / 4] is below the default threshold and the
    third rule terminates; and from a fresh state five failures reach the
    first rule. *)
Lemma termination_reference_witness :
  (exists (rate : Q) (reason : pystr),
     int_truediv 0 4 = Ok rate
     /\ (rate < double (5 # 100))%Q
     /\ should_terminate (F := toy_format)
          (mk 3 5 3 (double (5 # 100))
              [lit "a"; lit "b"; lit "c"; lit "d"] 4 4 0)
        = Ok (true, reason)
     /\ contains (format_pct1 (FloatFormat := toy_format) rate) reason)
  /\ exists self',
       record_all (H := toy_hashlib)
         (reset (mk 3 5 3 (double (5 # 100))
                    [lit "a"; lit "b"; lit "c"; lit "d"] 4 4 0))
         [(lit "a", false); (lit "b", false); (lit "c", false);
          (lit "d", false); (lit "e", false)] = Ok self'
       /\ exists reason,
            should_terminate (F := toy_format) self' = Ok (true, reason)
            /\ contains (lit "consecutive failures") reason.
Proof.
  destruct (termination_reference (H := toy_hashlib) (F := toy_format)
              (mk 3 5 3 (double (5 # 100))
                  [lit "a"; lit "b"; lit "c"; lit "d"] 4 4 0))
    as (_ & _ & _ & Hrate & _ & Hrun).
  - simpl. lia.
  - simpl. lia.
  - simpl. lia.
  - split.
    + apply Hrate.
      * unfold rule_consecutive. simpl. lia.
      * intros [_ [h Hh]]. vm_compute in Hh. congruence.
      * split; [simpl; lia|]. exists 0%Q.
        split; [vm_compute; reflexivity | vm_compute; reflexivity].
    + destruct (Hrun [(lit "a", false); (lit "b", false); (lit "c", false);
                      (lit "d", false); (lit "e", false)])
        as (self' & Hrec & Hfive & _).
      * repeat constructor; simpl; eexists; reflexivity.
      * exists self'. split; [exact Hrec|]. apply Hfive. reflexivity.
Defined.

End TerminationSpec.

(** ** Retry with exponential backoff *)

Module RetrySpec.
Import Retry PyFacts Float64Facts.

Lemma py_min_le_r (a : pyfloat) (b : Q) : fle (py_min a b) (Fin b).
Proof.
  destruct a as [x| |]; simpl; [|apply Qle_refl|exact I].
  destruct (Qltb b x) eqn:E; simpl; [apply Qle_refl|].
  apply Qnot_lt_le. intros Hlt. apply Qltb_lt in Hlt. congruence.
Qed.


(** The smaller of a float that is not negative and a bound that is not
    negative is a finite float between 0 and the bound. *)
Lemma py_min_bounded (a : pyfloat) (b : Q) :
  fle (Fin 0) a -> (0 <= b)%Q ->
  exists d : Q, py_min a b = Fin d /\ (0 <= d)%Q /\ (d <= b)%Q.
Proof.
  intros Ha Hb. pose proof (py_min_le_r a b) as Hle.
  destruct a as [x| |]; simpl in *; [| |contradiction].
  - destruct (Qltb b x); eexists; (split; [reflexivity|]); split;
      assumption.
  - exists b. split; [reflexivity|]. split; [exact Hb | apply Qle_refl].
Qed.

Lemma float_mul_nonneg (x y : Q) :
  (0 <= x)%Q -> (0 <= y)%Q -> fle (Fin 0) (float_mul x y).
Proof.
  intros Hx Hy. apply round64_nonneg. now apply Qmult_le_0_compat.
Qed.


Lemma float_mul_mono_l (x x' y : Q) :
  (0 <= y)%Q -> (x <= x')%Q -> fle (float_mul x y) (float_mul x' y).
Proof. intros Hy Hx. apply round64_mono. now apply Qmult_le_compat_r. Qed.

Lemma calls_app (t1 t2 : list event) : calls (t1 ++ t2) = calls t1 + calls t2.
Proof. unfold calls, len. rewrite List.filter_app, length_app. lia. Qed.

Lemma sleeps_app (t1 t2 : list event) : sleeps (t1 ++ t2) = sleeps t1 ++ sleeps t2.
Proof. unfold sleeps. apply omap_app. Qed.

Section WithPlatform.
Context {P : Platform}.

Lemma calls_failed_attempts (p : policy) (n a : nat) :
  calls (failed_attempts p a n) = Z.of_nat n.
Proof.
  revert a. induction n as [|n IH]; intros a; [reflexivity|].
  unfold failed_attempts in *. cbn [seq flat_map].
  rewrite calls_app, IH. unfold calls, len. simpl. lia.
Qed.

Lemma sleeps_failed_attempts (p : policy) (n a : nat) :
  sleeps (failed_attempts p a n)
  = map (delay_value p) (map Z.of_nat (seq a n)).
Proof.
  revert a. induction n as [|n IH]; intros a; [reflexivity|].
  unfold failed_attempts in *. cbn [seq flat_map map].
  rewrite sleeps_app, IH. reflexivity.
Qed.

(** The number of nanoseconds of a length between 0 and 9223372036
    seconds. *)
Lemma sleep_ns_spec (d : Q) :
  (0 <= d)%Q -> (d <= 9223372036)%Q ->
  exists ns : Q,
    float_mul d 1000000000 = Fin ns
    /\ (0 <= ns)%Q /\ (ns <= 9223372036000000000)%Q
    /\ sleep_ns d = Qceiling ns.
Proof.
  intros H0 Hd.
  pose proof (float_mul_nonneg d 1000000000 H0 ltac:(discriminate)) as Hn.
  pose proof (float_mul_mono_l d 9223372036 1000000000 ltac:(discriminate) Hd)
    as Hm.
  assert (Hc : float_mul 9223372036 1000000000 = Fin 9223372036000000000)
    by (vm_compute; reflexivity).
  rewrite Hc in Hm. unfold sleep_ns.
  destruct (float_mul d 1000000000) as [ns| |]; simpl in *; try contradiction.
  exists ns. split; [reflexivity|]. split; [exact Hn|]. split; [exact Hm|].
  destruct (Qltb ns 0) eqn:E; [|reflexivity].
  apply Qltb_lt in E. exfalso. exact (Qlt_not_le _ _ E Hn).
Qed.

Lemma sleep_ns_mono (d d' : Q) :
  (0 <= d)%Q -> (d <= d')%Q -> (d' <= 9223372036)%Q ->
  0 <= sleep_ns d <= sleep_ns d'.
Proof.
  intros H0 Hdd Hd'.
  destruct (sleep_ns_spec d H0 (Qle_trans _ _ _ Hdd Hd'))
    as (ns & Hns & Hn0 & _ & ->).
  destruct (sleep_ns_spec d' (Qle_trans _ _ _ H0 Hdd) Hd')
    as (ns' & Hns' & _ & _ & ->).
  pose proof (float_mul_mono_l d d' 1000000000 ltac:(discriminate) Hdd) as Hm.
  rewrite Hns, Hns' in Hm. simpl in Hm. split.
  - change 0 with (Qceiling 0). now apply Qceiling_resp_le.
  - now apply Qceiling_resp_le.
Qed.

(** [time.sleep] returns on a length that is not negative and that the
    kernel accepts. *)
Lemma sleep_ok (d bound : Q) :
  (0 <= d)%Q -> (d <= bound)%Q -> (bound <= 9223372036)%Q ->
  (forall t : Z, 0 <= t <= sleep_ns bound -> clock_nanosleep t = Ok tt) ->
  sleep d = Ok tt.
Proof.
  intros H0 Hdb Hb Hker.
  destruct (sleep_ns_spec d H0 (Qle_trans _ _ _ Hdb Hb))
    as (ns & Hns & Hn0 & Hn1 & Hceil).
  unfold sleep. rewrite Hns.
  assert (E1 : Qleb (- pow2 63) ns = true).
  { apply Qle_bool_iff. eapply Qle_trans; [|exact Hn0]. discriminate. }
  assert (E2 : Qleb ns (pow2 63) = true).
  { apply Qle_bool_iff. eapply Qle_trans; [exact Hn1|]. discriminate. }
  rewrite E1, E2. cbn [andb].
  assert (E3 : Qltb d 0 = false).
  { destruct (Qltb d 0) eqn:E; [|reflexivity]. apply Qltb_lt in E.
    exfalso. exact (Qlt_not_le _ _ E H0). }
  assert (E4 : Qeq_bool ns (pow2 63) = false).
  { destruct (Qeq_bool ns (pow2 63)) eqn:E; [|reflexivity].
    apply Qeq_bool_iff in E. rewrite E in Hn1. exfalso.
    apply Hn1. reflexivity. }
  rewrite E3, E4. cbn [orb]. apply Hker.
  now apply sleep_ns_mono.
Qed.

(** The delay after an attempt whose power is computed and not negative. *)
Lemma backoff_delay_spec (p : policy) (a : Z) (pw : Q) :
  (0 <= base_delay p)%Q -> (0 <= max_delay p)%Q ->
  float_pow (exponential_base p) a = Ok pw -> (0 <= pw)%Q ->
  backoff_delay p a = Ok (Fin (delay_value p a))
  /\ Fin (delay_value p a)
     = py_min (float_mul (base_delay p) pw) (max_delay p)
  /\ (0 <= delay_value p a)%Q /\ (delay_value p a <= max_delay p)%Q.
Proof.
  intros Hbase Hmax Hpw Hpos. unfold delay_value, backoff_delay.
  rewrite Hpw. cbn [bind].
  destruct (py_min_bounded (float_mul (base_delay p) pw) (max_delay p))
    as (d & Hd & Hd0 & Hd1); [now apply float_mul_nonneg | exact Hmax |].
  rewrite Hd. auto.
Qed.


Section Wrapper.
Context {S T : Type}.
Variable p : policy.
Variable func : S -> result T * S.
Hypothesis Hbase : (0 <= base_delay p)%Q.
Hypothesis Hmax : (0 <= max_delay p)%Q.
Hypothesis Hcap : (max_delay p <= 9223372036)%Q.
(** The attempts whose power is known to be computed. *)
Variable npow : Z.
Hypothesis Hpow : forall k : Z,
  0 <= k < npow ->
  exists pw : Q, float_pow (exponential_base p) k = Ok pw /\ (0 <= pw)%Q.
Hypothesis Hker : forall t : Z,
  0 <= t <= sleep_ns (max_delay p) -> clock_nanosleep t = Ok tt.

Lemma state_after_S (k : nat) (s : S) :
  state_after func (Datatypes.S k) s = state_after func k (snd (func s)).
Proof. unfold state_after. rewrite Nat.iter_succ_r. reflexivity. Qed.

(** The loop from attempt [a] on, when the calls [0 .. k-1] from [s] fail
    with a retryable error and a later attempt remains for each. *)
Lemma loop_failures (k : nat) : forall (a : nat) (rest : list Z)
  (last : option exn) (s : S) (trace : list event),
  (forall j, (j < k)%nat ->
     exists e, fst (func (state_after func j s)) = Raise e
               /\ retryable_exceptions p e = true) ->
  Z.of_nat (a + k) <= max_retries p ->
  Z.of_nat (a + k) <= npow ->
  exists last',
    loop p func (map Z.of_nat (seq a k) ++ rest) last s trace
    = loop p func rest last' (state_after func k s)
           (trace ++ failed_attempts p a k)
    /\ (k = 0%nat -> last' = last)
    /\ (forall e, (0 < k)%nat ->
          fst (func (state_after func (k - 1) s)) = Raise e ->
          last' = Some e).
Proof.
  induction k as [|k IH]; intros a rest last s trace Hfail Hle Hlen.
  - exists last. cbn. rewrite app_nil_r.
    split; [reflexivity|]. split; [reflexivity|]. intros; lia.
  - destruct (Hfail 0%nat ltac:(lia)) as (e0 & He0 & Hr0).
    change (state_after func 0 s) with s in He0.
    cbn [seq map app loop].
    destruct (func s) as [r s1] eqn:Ef. simpl in He0. subst r.
    rewrite Hr0.
    destruct (Z.ltb_spec (Z.of_nat a) (max_retries p)); [|lia].
    destruct (Hpow (Z.of_nat a) ltac:(lia)) as (pw & Hpw & Hpos).
    destruct (backoff_delay_spec p (Z.of_nat a) pw Hbase Hmax Hpw Hpos)
      as (Hd & _ & Hd0 & Hd1).
    rewrite Hd.
    rewrite (sleep_ok (delay_value p (Z.of_nat a)) (max_delay p)
               Hd0 Hd1 Hcap Hker).
    destruct (IH (Datatypes.S a) rest (Some e0) s1
                 ((trace ++ [Call])
                  ++ [Sleep (delay_value p (Z.of_nat a))]))
      as (last' & Hl & H0 & H1).
    + intros j Hj. specialize (Hfail (Datatypes.S j) ltac:(lia)).
      rewrite state_after_S, Ef in Hfail. exact Hfail.
    + lia.
    + lia.
    + exists last'. split; [|split].
      * rewrite state_after_S, Ef. cbn [snd].
        rewrite Hl. f_equal. unfold failed_attempts.
        cbn [seq flat_map app]. rewrite <- !List.app_assoc. reflexivity.
      * intros; lia.
      * intros e _ He. replace (Datatypes.S k - 1)%nat with k in He by lia.
        destruct k as [|k].
        -- change (state_after func 0 s) with s in He.
           rewrite Ef in He. simpl in He.
           rewrite (H0 eq_refl). congruence.
        -- apply H1; [lia|]. rewrite state_after_S, Ef in He.
           replace (Datatypes.S k - 1)%nat with k by lia. exact He.
Qed.

Lemma range_split (n k : nat) :
  (k <= n)%nat ->
  range (Z.of_nat n + 1)
  = map Z.of_nat (seq 0 k)
    ++ Z.of_nat k :: map Z.of_nat (seq (Datatypes.S k) (n - k)).
Proof.
  intros Hk. unfold range.
  replace (Z.to_nat (Z.of_nat n + 1)) with (k + Datatypes.S (n - k))%nat by lia.
  rewrite seq_app, map_app. reflexivity.
Qed.


Lemma wrapper_stops (s : S) (k : nat) (r : result T) :
  (k <= Z.to_nat (max_retries p))%nat -> 0 <= max_retries p ->
  Z.of_nat k <= npow ->
  (forall j, (j < k)%nat ->
     exists e, fst (func (state_after func j s)) = Raise e
               /\ retryable_exceptions p e = true) ->
  fst (func (state_after func k s)) = r ->
  match r with
  | Ok _ => True
  | Raise e => retryable_exceptions p e = false
  end ->
  wrapper p func s
  = (r, state_after func (Datatypes.S k) s,
     failed_attempts p 0 k ++ [Call]).
Proof.
  intros Hk Hn Hnp Hfail Hr Hstop. set (n := Z.to_nat (max_retries p)) in *.
  unfold wrapper. replace (max_retries p) with (Z.of_nat n) at 1 by lia.
  rewrite (range_split n k) by lia.
  destruct (loop_failures k 0%nat
              (Z.of_nat k :: map Z.of_nat (seq (Datatypes.S k) (n - k)))
              None s [] Hfail ltac:(lia) ltac:(lia))
    as (last' & Hl & _ & _).
  rewrite Hl. cbn [loop app].
  change (state_after func (Datatypes.S k) s)
    with (snd (func (state_after func k s))).
  destruct (func (state_after func k s)) as [r0 s'] eqn:Ef.
  simpl in Hr. subst r0. destruct r as [v|e]; [reflexivity|].
  rewrite Hstop. reflexivity.
Qed.

End Wrapper.

End WithPlatform.




End RetrySpec.

(** ** Memoization with time-to-live *)

Module MemoizeSpec.
Import Memoize PyFacts.

Section Dict.
Context {V : Type}.
Implicit Types (d : @dict V) (key k : pystr) (v : Q * V).

Lemma dict_get_none key d : dict_get key d = None <-> key ∉ keys d.
Proof.
  induction d as [|[k v] d IH]; simpl.
  - split; [intros _ Hin; inversion Hin | reflexivity].
  - rewrite not_elem_of_cons. case_bool_decide as Hk.
    + split; [discriminate | intros [Hne _]; congruence].
    + rewrite IH. split; [intros Hn; split; [congruence | exact Hn] | tauto].
Qed.

Lemma dict_get_elem key d v : dict_get key d = Some v -> (key, v) ∈ d.
Proof.
  induction d as [|[k v0] d IH]; simpl; [discriminate|].
  case_bool_decide as Hk.
  - intros E. inversion E; subst. left.
  - intros E. right. now apply IH.
Qed.

Lemma dict_del_cons k0 v0 key d :
  dict_del key ((k0, v0) :: d)
  = if bool_decide (k0 = key) then dict_del key d
    else (k0, v0) :: dict_del key d.
Proof.
  unfold dict_del. simpl. case_bool_decide; reflexivity.
Qed.

Lemma keys_dict_del key d x : x ∈ keys (dict_del key d) <-> x <> key /\ x ∈ keys d.
Proof.
  induction d as [|[k v] d IH].
  - simpl. split; [intros Hin; inversion Hin | intros [_ Hin]; inversion Hin].
  - rewrite dict_del_cons. case_bool_decide as Hk; simpl.
    + rewrite IH, elem_of_cons. subst. tauto.
    + rewrite !elem_of_cons, IH. split; [|tauto].
      intros [->|[? ?]]; tauto.
Qed.

Lemma dict_del_absent key d : key ∉ keys d -> dict_del key d = d.
Proof.
  induction d as [|[k v] d IH]; [reflexivity|].
  rewrite dict_del_cons. cbn [keys map fst]. rewrite not_elem_of_cons.
  intros [Hne Hn]. case_bool_decide; [congruence|].
  now rewrite IH.
Qed.

Lemma dict_set_absent key v d : key ∉ keys d -> dict_set key v d = d ++ [(key, v)].
Proof.
  induction d as [|[k v0] d IH]; [reflexivity|].
  simpl. rewrite not_elem_of_cons. intros [Hne Hn].
  case_bool_decide; [congruence|]. now rewrite IH.
Qed.

Lemma NoDup_dict_del key d : NoDup (keys d) -> NoDup (keys (dict_del key d)).
Proof.
  induction d as [|[k v] d IH]; [intros; constructor|].
  rewrite dict_del_cons. change (keys ((k, v) :: d)) with (k :: keys d).
  rewrite NoDup_cons.
  intros [Hn Hd]. case_bool_decide; [now apply IH|].
  change (keys ((k, v) :: dict_del key d)) with (k :: keys (dict_del key d)).
  apply NoDup_cons. split; [|now apply IH].
  rewrite keys_dict_del. tauto.
Qed.

Lemma len_dict_del key d :
  NoDup (keys d) -> key ∈ keys d -> len (dict_del key d) = len d - 1.
Proof.
  unfold len. induction d as [|[k v] d IH].
  - intros _ Hin. inversion Hin.
  - rewrite dict_del_cons. cbn [keys map fst].
    rewrite NoDup_cons, elem_of_cons. intros [Hn Hd] Hin.
    case_bool_decide as Hk.
    + subst. rewrite dict_del_absent by exact Hn. simpl. lia.
    + destruct Hin as [->|Hin]; [congruence|]. simpl.
      specialize (IH Hd Hin). lia.
Qed.

Lemma len_dict_del_le key d : len (dict_del key d) <= len d.
Proof.
  unfold len. induction d as [|[k v] d IH]; [simpl; lia|].
  rewrite dict_del_cons. case_bool_decide; simpl; lia.
Qed.

Lemma min_from_spec (rest : @dict V) : forall (best : pystr) (best_ts : Q),
  exists ts,
    ((min_from best best_ts rest = best /\ ts = best_ts)
     \/ exists val, (min_from best best_ts rest, (ts, val)) ∈ rest)
    /\ (ts <= best_ts)%Q
    /\ forall k' ts' y', (k', (ts', y')) ∈ rest -> (ts <= ts')%Q.
Proof.
  induction rest as [|[k [ts0 v0]] rest IH]; intros best best_ts; simpl.
  - exists best_ts. split; [now left|]. split; [apply Qle_refl|].
    intros ? ? ? Hin. inversion Hin.
  - destruct (Qltb ts0 best_ts) eqn:E.
    + apply Qltb_lt in E.
      destruct (IH k ts0) as (ts & Hwho & Hle & Hall).
      exists ts. split; [|split].
      * right. destruct Hwho as [[-> ->]|[val Hin]].
        -- exists v0. left.
        -- exists val. now right.
      * apply Qlt_le_weak. eapply Qle_lt_trans; eauto.
      * intros k' ts' y' Hin. apply elem_of_cons in Hin as [Hin|Hin].
        -- inversion Hin; subst. exact Hle.
        -- eapply Hall; eauto.
    + assert (Hge : (best_ts <= ts0)%Q).
      { apply Qnot_lt_le. intros Hlt. apply Qltb_lt in Hlt. congruence. }
      destruct (IH best best_ts) as (ts & Hwho & Hle & Hall).
      exists ts. split; [|split].
      * destruct Hwho as [[-> ->]|[val Hin]]; [now left|].
        right. exists val. now right.
      * exact Hle.
      * intros k' ts' y' Hin. apply elem_of_cons in Hin as [Hin|Hin].
        -- inversion Hin; subst. eapply Qle_trans; eauto.
        -- eapply Hall; eauto.
Qed.

Lemma oldest_key_spec d :
  d <> [] ->
  exists k ts val,
    oldest_key d = Ok k /\ (k, (ts, val)) ∈ d
    /\ forall k' ts' y', (k', (ts', y')) ∈ d -> (ts <= ts')%Q.
Proof.
  destruct d as [|[k0 [ts0 v0]] rest]; [congruence|]. intros _. simpl.
  destruct (min_from_spec rest k0 ts0) as (ts & Hwho & Hle & Hall).
  destruct Hwho as [[Hk ->]|[val Hin]].
  - exists (min_from k0 ts0 rest), ts0, v0. split; [reflexivity|].
    rewrite Hk. split; [left|].
    intros k' ts' y' Hin. apply elem_of_cons in Hin as [Hin|Hin].
    + inversion Hin; subst. apply Qle_refl.
    + eapply Hall; eauto.
  - exists (min_from k0 ts0 rest), ts, val. split; [reflexivity|].
    split; [now right|].
    intros k' ts' y' Hin'. apply elem_of_cons in Hin' as [Hin'|Hin'].
    + inversion Hin'; subst. exact Hle.
    + eapply Hall; eauto.
Qed.

Lemma elem_keys k v d : (k, v) ∈ d -> k ∈ keys d.
Proof. intros Hin. unfold keys. apply (list_elem_of_fmap_2 fst) in Hin. exact Hin. Qed.

Lemma NoDup_keys_snoc key v d :
  NoDup (keys d) -> key ∉ keys d -> NoDup (keys (d ++ [(key, v)])).
Proof.
  intros Hd Hn. unfold keys in *. rewrite map_app. simpl.
  apply NoDup_app. split; [exact Hd|]. split; [|apply NoDup_singleton].
  intros x Hx Hx'. apply list_elem_of_singleton in Hx'. subst. contradiction.
Qed.

End Dict.

Section Wrapper.
Context {A V S : Type}.
Variable key_of : A -> pystr.
Variable ttl_seconds : Q.
Variable maxsize : Z.
Variable func : A -> S -> result V * S.

Local Abbreviation run := (wrapper key_of ttl_seconds maxsize func).
Local Abbreviation stale := (Memoize.stale key_of ttl_seconds).

Lemma wrapper_hit (args : A) (now : Q) (cache : @dict V) (s : S) ts v :
  dict_get (key_of args) cache = Some (ts, v) ->
  (now - ts < ttl_seconds)%Q ->
  run args now cache s = (Ok v, cache, s).
Proof.
  intros Hg Hf. unfold wrapper. rewrite Hg.
  apply Qltb_lt in Hf. rewrite Hf. reflexivity.
Qed.

(** On a stale key the wrapper continues with the cache without that key. *)
Lemma wrapper_stale (args : A) (now : Q) (cache : @dict V) (s : S) :
  stale args now cache ->
  run args now cache s
  = let c1 := dict_del (key_of args) cache in
    let '(r, s') := func args s in
    match r with
    | Raise e => (Raise e, c1, s')
    | Ok value =>
        if len c1 >=? maxsize then
          match oldest_key c1 with
          | Raise e => (Raise e, c1, s')
          | Ok k => (Ok value,
                     dict_set (key_of args) (now, value) (dict_del k c1), s')
          end
        else (Ok value, dict_set (key_of args) (now, value) c1, s')
    end.
Proof.
  intros [Hn | (ts & v0 & Hg & Hexp)]; unfold wrapper.
  - rewrite Hn. rewrite dict_del_absent by now apply dict_get_none.
    reflexivity.
  - rewrite Hg. destruct (Qltb (now - ts) ttl_seconds) eqn:E.
    + apply Qltb_lt in E. contradiction.
    + reflexivity.
Qed.

Lemma wrapper_miss (args : A) (now : Q) (cache : @dict V) (s s' : S) (v : V) :
  1 <= maxsize -> NoDup (keys cache) ->
  stale args now cache ->
  func args s = (Ok v, s') ->
  (len (dict_del (key_of args) cache) < maxsize ->
     run args now cache s
     = (Ok v, dict_del (key_of args) cache ++ [(key_of args, (now, v))], s'))
  /\ (len (dict_del (key_of args) cache) >= maxsize ->
      exists k ts val,
        (k, (ts, val)) ∈ dict_del (key_of args) cache
        /\ (forall k' ts' y',
              (k', (ts', y')) ∈ dict_del (key_of args) cache ->
              (ts <= ts')%Q)
        /\ run args now cache s
           = (Ok v,
              dict_del k (dict_del (key_of args) cache)
              ++ [(key_of args, (now, v))], s')
        /\ len (dict_del k (dict_del (key_of args) cache))
           = len (dict_del (key_of args) cache) - 1).
Proof.
  intros Hmax Hnd Hst Hf. rewrite (wrapper_stale _ _ _ _ Hst). cbn zeta.
  rewrite Hf. set (c1 := dict_del (key_of args) cache).
  assert (Hk1 : key_of args ∉ keys c1).
  { unfold c1. rewrite keys_dict_del. tauto. }
  assert (Hnd1 : NoDup (keys c1)) by now apply NoDup_dict_del.
  split; intros Hlen.
  - destruct (Z.geb_spec (len c1) maxsize); [lia|].
    now rewrite dict_set_absent.
  - destruct (Z.geb_spec (len c1) maxsize); [|lia].
    assert (Hne : c1 <> []).
    { intros E. rewrite E in Hlen. unfold len in Hlen. simpl in Hlen. lia. }
    destruct (oldest_key_spec c1 Hne) as (k & ts & val & Ho & Hin & Hmin).
    exists k, ts, val. rewrite Ho.
    split; [exact Hin|]. split; [exact Hmin|]. split.
    + rewrite dict_set_absent; [reflexivity|].
      rewrite keys_dict_del. tauto.
    + apply len_dict_del; [exact Hnd1|]. eapply elem_keys; eauto.
Qed.

Lemma wrapper_bound (args : A) (now : Q) (cache : @dict V) (s : S) :
  1 <= maxsize -> NoDup (keys cache) -> len cache <= maxsize ->
  NoDup (keys (snd (fst (run args now cache s))))
  /\ len (snd (fst (run args now cache s))) <= maxsize.
Proof.
  intros Hmax Hnd Hlen.
  destruct (dict_get (key_of args) cache) as [[ts v0]|] eqn:Hg.
  - destruct (Qltb (now - ts) ttl_seconds) eqn:E.
    + apply Qltb_lt in E. rewrite (wrapper_hit _ _ _ _ _ _ Hg E). now split.
    + assert (Hst : stale args now cache).
      { right. exists ts, v0. split; [exact Hg|].
        intros Hlt. apply Qltb_lt in Hlt. congruence. }
      destruct (func args s) as [[v|e] s'] eqn:Hf.
      * pose proof (len_dict_del_le (key_of args) cache).
        pose proof (NoDup_dict_del (key_of args) cache Hnd) as Hnd1.
        assert (Hk1 : key_of args ∉ keys (dict_del (key_of args) cache))
          by (rewrite keys_dict_del; tauto).
        destruct (wrapper_miss _ _ _ _ _ _ Hmax Hnd Hst Hf) as [Hlt Hge].
        destruct (Z.lt_ge_cases (len (dict_del (key_of args) cache)) maxsize)
          as [Hc|Hc].
        -- rewrite (Hlt Hc). cbn [fst snd]. split.
           ++ now apply NoDup_keys_snoc.
           ++ rewrite len_app. unfold len at 2. simpl. lia.
        -- destruct (Hge ltac:(lia)) as (k & ts' & val & _ & _ & Hr & Hl).
           rewrite Hr. cbn [fst snd]. split.
           ++ apply NoDup_keys_snoc; [now apply NoDup_dict_del|].
              rewrite keys_dict_del. tauto.
           ++ rewrite len_app, Hl. unfold len at 2. simpl. lia.
      * rewrite (wrapper_stale _ _ _ _ Hst). cbn zeta. rewrite Hf.
        cbn [fst snd]. split; [now apply NoDup_dict_del|].
        pose proof (len_dict_del_le (key_of args) cache). lia.
  - assert (Hst : stale args now cache) by now left.
    assert (Hd : dict_del (key_of args) cache = cache)
      by (apply dict_del_absent; now apply dict_get_none).
    assert (Hk1 : key_of args ∉ keys cache) by now apply dict_get_none.
    destruct (func args s) as [[v|e] s'] eqn:Hf.
    + destruct (wrapper_miss _ _ _ _ _ _ Hmax Hnd Hst Hf) as [Hlt Hge].
      rewrite Hd in *.
      destruct (Z.lt_ge_cases (len cache) maxsize) as [Hc|Hc].
      * rewrite (Hlt Hc). cbn [fst snd]. split.
        -- now apply NoDup_keys_snoc.
        -- rewrite len_app. unfold len at 2. simpl. lia.
      * destruct (Hge ltac:(lia)) as (k & ts' & val & _ & _ & Hr & Hl).
        rewrite Hr. cbn [fst snd]. split.
        -- apply NoDup_keys_snoc; [now apply NoDup_dict_del|].
           rewrite keys_dict_del. tauto.
        -- rewrite len_app, Hl. unfold len at 2. simpl. lia.
    + rewrite (wrapper_stale _ _ _ _ Hst). cbn zeta. rewrite Hf, Hd.
      cbn [fst snd]. now split.
Qed.

End Wrapper.

(** C6, as stated, fails: with [maxsize = 0] the cache is empty when the
    wrapper looks for an oldest entry to evict, [min] of an empty [dict]
    raises [ValueError], and the call fails after the function has run
    (the state counts one call), with nothing stored. *)
Lemma memoize_maxsize_zero_raises :
  wrapper unit_key 300 0 counting_func tt 0 [] 0%nat
  = (Raise (ValueError "min() arg is an empty sequence"), [], 1%nat).
Proof. reflexivity. Qed.

(** C6, amended: for [maxsize >= 1] and a cache with distinct keys holding
    at most [maxsize] entries, a call whose key is cached with age strictly
    less than [ttl_seconds] returns the cached value without invoking the
    function and leaves the cache as it is; a call whose key is absent or
    expired deletes the expired entry, invokes the function and, when it
    returns, stores the value under the key with the time of the call: if
    the cache then holds fewer than [maxsize] entries the new entry is
    added, otherwise exactly one entry, one of least timestamp, is evicted
    first; in every case the cache afterwards has distinct keys and at most
    [maxsize] entries. *)
Theorem memoize_contract {A V S : Type} (key_of : A -> pystr)
  (ttl_seconds : Q) (maxsize : Z) (func : A -> S -> result V * S)
  (args : A) (now : Q) (cache : @dict V) (s : S) :
  1 <= maxsize -> NoDup (keys cache) -> len cache <= maxsize ->
  (forall ts v,
     dict_get (key_of args) cache = Some (ts, v) ->
     (now - ts < ttl_seconds)%Q ->
     wrapper key_of ttl_seconds maxsize func args now cache s
     = (Ok v, cache, s))
  /\ (forall v s',
        stale key_of ttl_seconds args now cache ->
        func args s = (Ok v, s') ->
        (len (dict_del (key_of args) cache) < maxsize ->
           wrapper key_of ttl_seconds maxsize func args now cache s
           = (Ok v,
              dict_del (key_of args) cache ++ [(key_of args, (now, v))], s'))
        /\ (len (dict_del (key_of args) cache) >= maxsize ->
            exists k ts val,
              (k, (ts, val)) ∈ dict_del (key_of args) cache
              /\ (forall k' ts' y',
                    (k', (ts', y')) ∈ dict_del (key_of args) cache ->
                    (ts <= ts')%Q)
              /\ wrapper key_of ttl_seconds maxsize func args now cache s
                 = (Ok v,
                    dict_del k (dict_del (key_of args) cache)
                    ++ [(key_of args, (now, v))], s')
              /\ len (dict_del k (dict_del (key_of args) cache))
                 = len (dict_del (key_of args) cache) - 1))
  /\ NoDup (keys (snd (fst (wrapper key_of ttl_seconds maxsize func
                                    args now cache s))))
  /\ len (snd (fst (wrapper key_of ttl_seconds maxsize func
                            args now cache s))) <= maxsize.
Proof.
  intros Hmax Hnd Hlen. split; [|split].
  - intros ts v. apply wrapper_hit.
  - intros v s'. now apply wrapper_miss.
  - now apply wrapper_bound.
Qed.

Lemma memoize_contract_witness :
  wrapper unit_key 300 1 counting_func tt 5 [(unit_key tt, (0%Q, 7))] 0%nat
  = (Ok 7, [(unit_key tt, (0%Q, 7))], 0%nat).
Proof.
  refine (proj1 (memoize_contract unit_key 300 1 counting_func tt 5
                                  [(unit_key tt, (0%Q, 7))] 0%nat _ _ _)
                 0%Q 7 _ _).
  - lia.
  - apply NoDup_singleton.
  - unfold len. simpl. lia.
  - reflexivity.
  - reflexivity.
Defined.

End MemoizeSpec.

(** ** Subprocess pool *)

Module PoolSpec.
Import SubprocessPool.

Lemma not_available (o : os) (h : heap) (w : ref) :
  match h !! w with
  | Some worker => negb (in_use worker) && running o (process worker) = false
  | None => True
  end -> ~ available o h w.
Proof.
  intros Hn (worker & Hl & Hu & Hr). rewrite Hl, Hu, Hr in Hn. discriminate.
Qed.

(** The scan returns the first available worker of the list, if any. *)
Lemma find_available_spec (o : os) (h : heap) (ws : list ref) :
  match find_available o h ws with
  | Some w =>
      exists i : nat,
        ws !! i = Some w /\ available o h w
        /\ forall (j : nat) (w' : ref),
             (j < i)%nat -> ws !! j = Some w' -> ~ available o h w'
  | None => forall w', w' ∈ ws -> ~ available o h w'
  end.
Proof.
  induction ws as [|w ws IH]; simpl.
  - intros w' Hin. inversion Hin.
  - destruct (h !! w) as [worker|] eqn:Hl.
    + destruct (negb (in_use worker) && running o (process worker)) eqn:Ha.
      * exists 0%nat. split; [reflexivity|]. split.
        -- exists worker. apply andb_true_iff in Ha as [Hu Hr].
           apply negb_true_iff in Hu. auto.
        -- intros j w' Hj. lia.
      * assert (Hnw : ~ available o h w).
        { apply not_available. now rewrite Hl. }
        destruct (find_available o h ws) as [w0|].
        -- destruct IH as (i & Hi & Hav & Hbefore).
           exists (Datatypes.S i). split; [exact Hi|]. split; [exact Hav|].
           intros [|j] w' Hj Hw'; simpl in Hw'.
           ++ now inversion Hw'; subst.
           ++ eapply Hbefore; [|exact Hw']. lia.
        -- intros w' Hin. apply elem_of_cons in Hin as [->|Hin]; auto.
    + assert (Hnw : ~ available o h w).
      { apply not_available. now rewrite Hl. }
      destruct (find_available o h ws) as [w0|].
      * destruct IH as (i & Hi & Hav & Hbefore).
        exists (Datatypes.S i). split; [exact Hi|]. split; [exact Hav|].
        intros [|j] w' Hj Hw'; simpl in Hw'.
        -- now inversion Hw'; subst.
        -- eapply Hbefore; [|exact Hw']. lia.
      * intros w' Hin. apply elem_of_cons in Hin as [->|Hin]; auto.
Qed.

Lemma find_available_none (o : os) (h : heap) (ws : list ref) :
  (forall w, w ∈ ws -> ~ available o h w) -> find_available o h ws = None.
Proof.
  intros Hn. pose proof (find_available_spec o h ws) as Hs.
  destruct (find_available o h ws) as [w|]; [|reflexivity].
  destruct Hs as (i & Hi & Hav & _). exfalso.
  eapply Hn; [|exact Hav]. eapply list_elem_of_lookup_2; eauto.
Qed.

Lemma acquire_reuse (o : os) (now : Q) (h : heap) (self : t) (w : ref) :
  find_available o h (_workers self) = Some w ->
  exists (i : nat) (worker : SubprocessWorker),
    _workers self !! i = Some w
    /\ h !! w = Some worker /\ in_use worker = false
    /\ running o (process worker) = true
    /\ (forall (j : nat) (w' : ref),
          (j < i)%nat -> _workers self !! j = Some w' -> ~ available o h w')
    /\ exists h',
         acquire o now h self = (Ok (Some w), h', self)
         /\ h' !! w = Some {| process := process worker; last_used := now;
                              in_use := true |}
         /\ forall w', w' <> w -> h' !! w' = h !! w'.
Proof.
  intros Hf. pose proof (find_available_spec o h (_workers self)) as Hs.
  rewrite Hf in Hs. destruct Hs as (i & Hi & (worker & Hl & Hu & Hr) & Hb).
  exists i, worker. repeat (split; [assumption|]).
  unfold acquire. rewrite Hf. eexists. split; [reflexivity|]. split.
  - rewrite lookup_alter_eq, Hl. reflexivity.
  - intros w' Hne. now rewrite lookup_alter_ne.
Qed.

Lemma acquire_spawn (o : os) (now : Q) (h : heap) (self : t) (pid : nat) :
  find_available o h (_workers self) = None ->
  len (_workers self) < max_workers self ->
  spawn o = Ok pid ->
  exists (w : ref) (h' : heap),
    acquire o now h self
    = (Ok (Some w), h', set_workers self (_workers self ++ [w]))
    /\ h !! w = None
    /\ h' !! w = Some {| process := pid; last_used := now; in_use := true |}
    /\ forall w', w' <> w -> h' !! w' = h !! w'.
Proof.
  intros Hf Hlen Hsp. unfold acquire, _create_worker. rewrite Hf, Hsp.
  destruct (Z.ltb_spec (len (_workers self)) (max_workers self)); [|lia].
  cbn [bind]. eexists _, _. split; [reflexivity|]. split; [|split].
  - apply not_elem_of_dom, is_fresh.
  - rewrite lookup_alter_eq, lookup_insert_eq. reflexivity.
  - intros w' Hne. rewrite lookup_alter_ne, lookup_insert_ne by done.
    reflexivity.
Qed.

(** An error of [Popen] is the outcome of [acquire]; nothing changes. *)
Lemma acquire_spawn_fails (o : os) (now : Q) (h : heap) (self : t) (e : exn) :
  find_available o h (_workers self) = None ->
  len (_workers self) < max_workers self ->
  spawn o = Raise e ->
  acquire o now h self = (Raise e, h, self).
Proof.
  intros Hf Hlen Hsp. unfold acquire, _create_worker. rewrite Hf, Hsp.
  destruct (Z.ltb_spec (len (_workers self)) (max_workers self)); [|lia].
  reflexivity.
Qed.

Lemma acquire_exhausted (o : os) (now : Q) (h : heap) (self : t) :
  find_available o h (_workers self) = None ->
  max_workers self <= len (_workers self) ->
  acquire o now h self = (Ok None, h, self).
Proof.
  intros Hf Hlen. unfold acquire. rewrite Hf.
  destruct (Z.ltb_spec (len (_workers self)) (max_workers self));
    [lia | reflexivity].
Qed.


Lemma in_use_not_available (o : os) (h : heap) (w : ref)
  (worker : SubprocessWorker) :
  h !! w = Some worker -> in_use worker = true -> ~ available o h w.
Proof.
  intros Hl Hu (worker' & Hl' & Hu' & _). congruence.
Qed.




End PoolSpec.

(** ** The model client without a credential *)

Module ClientSpec.
Import LlmAsync.

(** C8, as stated, fails: the check that [httpx] is importable comes before
    the check of the credential, so without [httpx] and without a
    credential the call raises [RuntimeError] instead of returning the
    placeholder, whatever the network does. *)
Lemma no_credential_without_httpx_raises :
  (fun n : net =>
     call_deepseek_async (mkEnv false None) n (lit "fix the bug") 0
                         (lit "deepseek-chat") None 120)
  = (fun _ => Raise (RuntimeError "httpx not installed. Run: pip install httpx")).
Proof. reflexivity. Qed.

(** C8, amended: when [httpx] is importable and no API credential is
    configured (the variable is unset or empty), the call raises nothing and
    returns the placeholder response: the fixed mock content, the model and
    temperature of the call, no tokens, no latency, not cached; it does not
    depend on the prompt, the system prompt, the timeout or the network, so
    two such calls with the same model and temperature yield the identical
    response.  When [httpx] is not importable the call raises
    [RuntimeError], whether a credential is configured or not and whatever
    the other arguments are. *)
Theorem no_credential_placeholder (e : env) (n n' : net)
  (prompt prompt' : pystr) (temperature : Q) (model : pystr)
  (system_prompt system_prompt' : option pystr) (timeout timeout' : Q) :
  (HTTPX_AVAILABLE e = true ->
   no_api_key e = true ->
   call_deepseek_async e n prompt temperature model system_prompt timeout
   = Ok {| content := mock_content; model := model;
           temperature := temperature; prompt_tokens := 0;
           completion_tokens := 0; latency_ms := 0; cached := false |}
   /\ call_deepseek_async e n' prompt' temperature model system_prompt'
                          timeout'
      = call_deepseek_async e n prompt temperature model system_prompt
                            timeout)
  /\ (HTTPX_AVAILABLE e = false ->
      call_deepseek_async e n prompt temperature model system_prompt timeout
      = Raise (RuntimeError "httpx not installed. Run: pip install httpx")).
Proof.
  split.
  - intros Hx Hk. unfold call_deepseek_async. rewrite Hx, Hk.
    split; reflexivity.
  - intros Hx. unfold call_deepseek_async. rewrite Hx. reflexivity.
Qed.

(** With [httpx] and an empty credential the placeholder is returned over a
    network that fails; without [httpx] the call raises although a
    credential is configured. *)
Lemma no_credential_placeholder_witness :
  call_deepseek_async (mkEnv true (Some []))
    (mkNet (fun _ => PostRaises (HTTPError "unreachable")) 0 0)
    (lit "fix the bug") (2 # 10) (lit "deepseek-chat") None 120
  = Ok {| content := mock_content; model := lit "deepseek-chat";
          temperature := 2 # 10; prompt_tokens := 0;
          completion_tokens := 0; latency_ms := 0; cached := false |}
  /\ call_deepseek_async (mkEnv false (Some (lit "sk-key")))
       (mkNet (fun _ => ok_reply (lit "{}")) 0 1)
       (lit "fix the bug") (2 # 10) (lit "deepseek-chat") None 120
     = Raise (RuntimeError "httpx not installed. Run: pip install httpx").
Proof.
  split.
  - apply (no_credential_placeholder (mkEnv true (Some []))
             (mkNet (fun _ => PostRaises (HTTPError "unreachable")) 0 0)
             (mkNet (fun _ => PostRaises (HTTPError "unreachable")) 0 0)
             (lit "fix the bug") (lit "fix the bug") (2 # 10)
             (lit "deepseek-chat") None None 120 120); reflexivity.
  - apply (no_credential_placeholder (mkEnv false (Some (lit "sk-key")))
             (mkNet (fun _ => ok_reply (lit "{}")) 0 1)
             (mkNet (fun _ => ok_reply (lit "{}")) 0 1)
             (lit "fix the bug") (lit "fix the bug") (2 # 10)
             (lit "deepseek-chat") None None 120 120). reflexivity.
Defined.

End ClientSpec.

(** ** Parallel calls *)

Module ParallelSpec.
Import LlmAsync.

Section Gather.
Context {A : Type}.
Implicit Types (outcomes : list A) (sl : slots A).

Lemma gather_run_length completion outcomes : forall sl,
  length (gather_run completion outcomes sl) = length sl.
Proof.
  induction completion as [|j rest IH]; intros sl; simpl; [reflexivity|].
  destruct (outcomes !! j); rewrite IH; [apply length_insert | reflexivity].
Qed.

(** A slot holds the outcome of its own task once that task has completed,
    and is untouched before. *)
Lemma gather_run_lookup completion outcomes : forall sl (i : nat),
  length sl = length outcomes ->
  gather_run completion outcomes sl !! i
  = match outcomes !! i with
    | Some r => if decide (i ∈ completion) then Some (Some r) else sl !! i
    | None => sl !! i
    end.
Proof.
  induction completion as [|j rest IH]; intros sl i Hlen; simpl.
  - destruct (outcomes !! i); [|reflexivity].
    destruct (decide (i ∈ [])) as [Hin|]; [inversion Hin | reflexivity].
  - destruct (outcomes !! j) as [rj|] eqn:Hj.
    + rewrite IH by (rewrite length_insert; exact Hlen).
      destruct (outcomes !! i) as [ri|] eqn:Hi.
      * destruct (decide (i ∈ rest)) as [Hin|Hnin].
        -- rewrite decide_True by (now right). reflexivity.
        -- destruct (decide (i = j)) as [->|Hne].
           ++ rewrite decide_True by left.
              rewrite list_lookup_insert_eq; [congruence|].
              rewrite Hlen. eapply lookup_lt_Some; eauto.
           ++ rewrite list_lookup_insert_ne by congruence.
              rewrite decide_False; [reflexivity|].
              rewrite elem_of_cons. tauto.
      * destruct (decide (i = j)) as [->|Hne]; [congruence|].
        now rewrite list_lookup_insert_ne by congruence.
    + rewrite IH by exact Hlen.
      destruct (outcomes !! i) as [ri|] eqn:Hi; [|reflexivity].
      destruct (decide (i = j)) as [->|Hne]; [congruence|].
      destruct (decide (i ∈ rest)) as [Hin|Hnin].
      * rewrite decide_True by (now right). reflexivity.
      * rewrite decide_False; [reflexivity|]. rewrite elem_of_cons. tauto.
Qed.

Lemma collect_Some outcomes : collect (map Some outcomes) = Some outcomes.
Proof.
  induction outcomes as [|r l IH]; simpl; [reflexivity|]. now rewrite IH.
Qed.

Lemma gather_complete completion outcomes :
  (forall i : nat, (i < length outcomes)%nat -> i ∈ completion) ->
  gather completion outcomes = Some outcomes.
Proof.
  intros Hall. unfold gather.
  replace (gather_run completion outcomes
             (replicate (length outcomes) None))
    with (map Some outcomes); [apply collect_Some|].
  apply list_eq. intros i.
  rewrite gather_run_lookup by apply length_replicate.
  rewrite list_lookup_fmap.
  destruct (outcomes !! i) as [r|] eqn:Hi; simpl.
  - rewrite decide_True; [reflexivity|].
    apply Hall. eapply lookup_lt_Some; eauto.
  - symmetry. apply lookup_replicate_None. 
    apply lookup_ge_None in Hi. lia.
Qed.

End Gather.

Lemma call_parallel_complete (e : env) (nets : nat -> net)
  (completion : list nat) (prompts : list (pystr * Q)) (model : pystr)
  (system_prompt : option pystr) (timeout : Q) :
  (forall i : nat, (i < length prompts)%nat -> i ∈ completion) ->
  call_parallel e nets completion prompts model system_prompt timeout
  = Some (tasks e nets prompts model system_prompt timeout).
Proof.
  intros Hall. unfold call_parallel. apply gather_complete.
  unfold tasks. rewrite length_imap. exact Hall.
Qed.

Lemma tasks_lookup (e : env) (nets : nat -> net) (prompts : list (pystr * Q))
  (model : pystr) (system_prompt : option pystr) (timeout : Q) (i : nat) :
  tasks e nets prompts model system_prompt timeout !! i
  = (fun pt => call_deepseek_async e (nets i) (fst pt) (snd pt) model
                                   system_prompt timeout) <$> prompts !! i.
Proof. unfold tasks. apply list_lookup_imap. Qed.

(** C3: when every task completes, in whatever order, [call_parallel]
    returns exactly one result per request; the [i]-th result is the outcome
    of the call for the [i]-th request, a response or the exception that
    call raised; and changing what happens to one request (its network
    exchange, for instance making it fail), or the order of completion,
    leaves the results of the other requests as they were. *)
Theorem call_parallel_isolated (e : env) (nets : nat -> net)
  (completion : list nat) (prompts : list (pystr * Q)) (model : pystr)
  (system_prompt : option pystr) (timeout : Q) :
  (forall i : nat, (i < length prompts)%nat -> i ∈ completion) ->
  exists results : list (result AsyncLLMResponse),
    call_parallel e nets completion prompts model system_prompt timeout
    = Some results
    /\ length results = length prompts
    /\ (forall (i : nat) (prompt : pystr) (temp : Q),
          prompts !! i = Some (prompt, temp) ->
          results !! i
          = Some (call_deepseek_async e (nets i) prompt temp model
                                      system_prompt timeout))
    /\ (forall (nets' : nat -> net) (completion' : list nat) (j : nat),
          (forall i : nat, i <> j -> nets' i = nets i) ->
          (forall i : nat, (i < length prompts)%nat -> i ∈ completion') ->
          exists results' : list (result AsyncLLMResponse),
            call_parallel e nets' completion' prompts model system_prompt
                          timeout = Some results'
            /\ length results' = length prompts
            /\ forall i : nat, i <> j -> results' !! i = results !! i).
Proof.
  intros Hall.
  exists (tasks e nets prompts model system_prompt timeout).
  split; [now apply call_parallel_complete|].
  split; [unfold tasks; apply length_imap|]. split.
  - intros i prompt temp Hi. rewrite tasks_lookup, Hi. reflexivity.
  - intros nets' completion' j Hsame Hall'.
    exists (tasks e nets' prompts model system_prompt timeout).
    split; [now apply call_parallel_complete|].
    split; [unfold tasks; apply length_imap|].
    intros i Hne. rewrite !tasks_lookup, (Hsame i Hne). reflexivity.
Qed.

Lemma call_parallel_isolated_witness :
  exists results : list (result AsyncLLMResponse),
    call_parallel (mkEnv true (Some (lit "key"))) second_fails [2; 0; 1]%nat
      [(lit "fix", 0%Q); (lit "fix", 2 # 10); (lit "fix", 4 # 10)]
      (lit "deepseek-chat") None 120
    = Some results
    /\ length results = 3%nat
    /\ (forall (i : nat) (prompt : pystr) (temp : Q),
          [(lit "fix", 0%Q); (lit "fix", 2 # 10); (lit "fix", 4 # 10)] !! i
          = Some (prompt, temp) ->
          results !! i
          = Some (call_deepseek_async (mkEnv true (Some (lit "key")))
                    (second_fails i) prompt temp (lit "deepseek-chat")
                    None 120))
    /\ (forall (nets' : nat -> net) (completion' : list nat) (j : nat),
          (forall i : nat, i <> j -> nets' i = second_fails i) ->
          (forall i : nat, (i < 3)%nat -> i ∈ completion') ->
          exists results' : list (result AsyncLLMResponse),
            call_parallel (mkEnv true (Some (lit "key"))) nets' completion'
              [(lit "fix", 0%Q); (lit "fix", 2 # 10); (lit "fix", 4 # 10)]
              (lit "deepseek-chat") None 120 = Some results'
            /\ length results' = 3%nat
            /\ forall i : nat, i <> j -> results' !! i = results !! i).
Proof.
  apply (call_parallel_isolated (mkEnv true (Some (lit "key"))) second_fails
           [2; 0; 1]%nat
           [(lit "fix", 0%Q); (lit "fix", 2 # 10); (lit "fix", 4 # 10)]
           (lit "deepseek-chat") None 120).
  intros i Hi. simpl in Hi.
  destruct i as [|[|[|i]]]; [| | |lia]; repeat constructor.
Defined.

(** The results of the example: the second call fails, the first and the
    third are answered, in the order of the requests. *)
Example second_of_three_fails :
  call_parallel (mkEnv true (Some (lit "key"))) second_fails [2; 0; 1]%nat
    [(lit "fix", 0%Q); (lit "fix", 2 # 10); (lit "fix", 4 # 10)]
    (lit "deepseek-chat") None 120
  = Some [Ok (mkResponse (lit "{}") (lit "deepseek-chat") 0 10 20 1000 false);
          Raise (HTTPError "503");
          Ok (mkResponse (lit "{}") (lit "deepseek-chat") (4 # 10) 10 20
                         1000 false)].
Proof. reflexivity. Qed.

End ParallelSpec.

(** ** Response cache *)

Module CacheSpec.
Import LLMCache PyFacts Float64Facts.

Implicit Types (r x y : row) (rows l : list row) (h : pystr).

Lemma Qleb_le (a b : Q) : Qleb a b = true <-> (a <= b)%Q.
Proof. apply Qle_bool_iff. Qed.


(** *** Rows selected and deleted by key *)

Lemma has_hash_true h r : has_hash h r = true <-> prompt_hash r = h.
Proof. unfold has_hash. apply bool_decide_eq_true. Qed.

Lemma elem_of_delete_by_hash h rows x :
  x ∈ delete_by_hash h rows <-> x ∈ rows /\ prompt_hash x <> h.
Proof.
  unfold delete_by_hash. rewrite !list_elem_of_In, filter_In.
  rewrite negb_true_iff, <- not_true_iff_false, has_hash_true. tauto.
Qed.





Lemma select_by_hash_last h rows r :
  prompt_hash r = h ->
  (forall x, x ∈ rows -> prompt_hash x <> h) ->
  select_by_hash h (rows ++ [r]) = Some r.
Proof.
  intros Hr Hn. unfold select_by_hash.
  induction rows as [|x rows IH]; simpl.
  - apply has_hash_true in Hr. now rewrite Hr.
  - destruct (has_hash h x) eqn:E.
    + apply has_hash_true in E. exfalso. eapply Hn; [left|exact E].
    + apply IH. intros y Hy. apply Hn. now right.
Qed.

(** *** [ORDER BY created_at] *)

Lemma insert_by_created_perm r l : insert_by_created r l ≡ₚ r :: l.
Proof.
  induction l as [|x l IH]; simpl; [reflexivity|].
  destruct (Qleb (created_at r) (created_at x)); [reflexivity|].
  rewrite IH. apply Permutation_swap.
Qed.

Lemma order_by_created_at_perm rows : order_by_created_at rows ≡ₚ rows.
Proof.
  unfold order_by_created_at. induction rows as [|x rows IH]; simpl;
    [reflexivity|].
  rewrite insert_by_created_perm. now rewrite IH.
Qed.



(** A row at least as recent as the row being inserted stays last. *)
Lemma insert_by_created_snoc x acc r :
  (created_at x <= created_at r)%Q ->
  insert_by_created x (acc ++ [r]) = insert_by_created x acc ++ [r].
Proof.
  intros Hle. induction acc as [|a acc IH]; simpl.
  - apply Qleb_le in Hle. now rewrite Hle.
  - destruct (Qleb (created_at x) (created_at a)); [reflexivity|].
    now rewrite IH.
Qed.

Lemma order_by_created_at_snoc rows r :
  (forall x, x ∈ rows -> (created_at x <= created_at r)%Q) ->
  order_by_created_at (rows ++ [r]) = order_by_created_at rows ++ [r].
Proof.
  unfold order_by_created_at. induction rows as [|x rows IH]; intros Hle.
  - reflexivity.
  - simpl. rewrite IH by (intros y Hy; apply Hle; now right).
    apply insert_by_created_snoc. apply Hle. left.
Qed.


(** *** The janitor pass *)

Section Cleanup.
Variable self : t.
Variable now c : Q.
Hypothesis Hconn : _conn self = true.
Hypothesis Hunique : keys_unique (table self).
Hypothesis Hmax : 0 <= max_entries self.
Hypothesis Hcut : cutoff self now = Ok c.
Hypothesis Hsize : len (table self) <= SQLITE_INT_MAX.

Let fresh : list row := not_expired c (table self).
Let excess : nat := Z.to_nat (len fresh - max_entries self).
Let sorted : list row := order_by_created_at fresh.
Let victims : list pystr := map prompt_hash (firstn excess sorted).















End Cleanup.

(** *** [set] followed by [get] *)

Section WithHash.
Context {H : Hashlib} {F : FloatFormat}.

Lemma not_expired_app c l1 l2 :
  not_expired c (l1 ++ l2) = not_expired c l1 ++ not_expired c l2.
Proof. unfold not_expired. apply List.filter_app. Qed.

Lemma elem_of_not_expired (c : Q) rows x :
  x ∈ not_expired c rows <-> x ∈ rows /\ ~ (created_at x < c)%Q.
Proof.
  unfold not_expired. rewrite !list_elem_of_In, filter_In.
  rewrite negb_true_iff, <- not_true_iff_false, Qltb_lt. tauto.
Qed.

(** When [max_age_hours * 3600] has at most 53 bits, the cutoff is the
    clock reading less that number of seconds. *)
Lemma cutoff_exact (self : t) (now : Q) :
  Z.abs (max_age_hours self * 3600) <= 2 ^ 53 ->
  cutoff self now = Ok (now - inject_Z (max_age_hours self * 3600))%Q.
Proof.
  intros Hage. unfold cutoff. now rewrite float_of_int_exact.
Qed.

Lemma len_insert_or_replace r rows :
  len (insert_or_replace r rows) <= len rows + 1.
Proof.
  unfold insert_or_replace, delete_by_hash, len.
  rewrite length_app. simpl.
  pose proof (List.filter_length_le (fun x => negb (has_hash (prompt_hash r) x))
                                    rows).
  lia.
Qed.

(** [set] on an open cache, for a key and a response that UTF-8 can encode:
    the upsert, then the janitor pass. *)
Lemma set_unfold (self : t) (now now' : Q) (prompt model : pystr)
  (temperature : Q) (response h : pystr) (b : bytes) :
  _conn self = true ->
  _hash_prompt prompt model temperature = Ok h ->
  utf8_encode response = Ok b ->
  set self now now' prompt model temperature response
  = _cleanup (set_table self
                (insert_or_replace
                   (mkRow h (slice_to 1000 prompt) model temperature response
                          now 0) (table self))) now'.
Proof.
  intros Hconn Hh Hb. unfold set. rewrite Hconn, Hh, Hb. reflexivity.
Qed.

(** After [set], the new row is the last row of the table and the only one
    under its key, as long as it has not expired by the time of the janitor
    pass, no stored row is more recent, and the cache may hold one row. *)
Lemma set_keeps_new_row (self : t) (now now' c : Q) (prompt model : pystr)
  (temperature : Q) (response h : pystr) (b : bytes) :
  _conn self = true ->
  1 <= max_entries self ->
  cutoff self now' = Ok c ->
  len (table self) < SQLITE_INT_MAX ->
  _hash_prompt prompt model temperature = Ok h ->
  utf8_encode response = Ok b ->
  (forall x, x ∈ table self -> (created_at x <= now)%Q) ->
  ~ (now < c)%Q ->
  exists others : list row,
    set self now now' prompt model temperature response
    = (Ok tt,
       set_table self
         (others ++ [mkRow h (slice_to 1000 prompt) model temperature
                           response now 0]))
    /\ forall x, x ∈ others -> prompt_hash x <> h.
Proof.
  intros Hconn Hmax Hcut Hsize Hh Hb Hclock Hlive.
  rewrite (set_unfold self now now' prompt model temperature response h b
             Hconn Hh Hb).
  set (r := mkRow h (slice_to 1000 prompt) model temperature response now 0).
  set (self0 := set_table self (insert_or_replace r (table self))).
  set (old := not_expired c (delete_by_hash h (table self))).
  assert (Hold : forall x, x ∈ old -> prompt_hash x <> h
                                      /\ (created_at x <= now)%Q).
  { intros x Hx. apply elem_of_not_expired in Hx as [Hx _].
    apply elem_of_delete_by_hash in Hx as [Hx Hne]. auto. }
  assert (Hfresh : not_expired c (table self0) = old ++ [r]).
  { unfold self0, insert_or_replace. cbn [table set_table prompt_hash r].
    rewrite not_expired_app. f_equal. unfold not_expired. cbn.
    destruct (Qltb now c) eqn:E; [|reflexivity].
    apply Qltb_lt in E. contradiction. }
  assert (Hcut0 : cutoff self0 now' = Ok c) by exact Hcut.
  assert (Hlen0 : len (old ++ [r]) <= SQLITE_INT_MAX).
  { rewrite <- Hfresh.
    assert (H1 : len (not_expired c (table self0)) <= len (table self0))
      by (unfold not_expired, len; apply inj_le, List.filter_length_le).
    assert (H2 : len (table self0) <= len (table self) + 1)
      by apply len_insert_or_replace.
    lia. }
  unfold _cleanup. cbn [_conn self0 set_table negb].
  rewrite Hconn. cbn [negb]. fold self0. rewrite Hcut0.
  fold (not_expired c (table self0)). rewrite Hfresh.
  change (max_entries self0) with (max_entries self).
  destruct (Z.gtb_spec (len (old ++ [r])) (max_entries self)) as [Hgt|Hle].
  - destruct (Z.gtb_spec (len (old ++ [r]) - max_entries self)
                         SQLITE_INT_MAX); [lia|].
    set (excess := Z.to_nat (len (old ++ [r]) - max_entries self)).
    set (victims := map prompt_hash (firstn excess (order_by_created_at old))).
    assert (Hvic : forall k, k ∈ victims -> k <> h).
    { intros k Hk. apply list_elem_of_fmap in Hk as (y & -> & Hy).
      apply Hold. rewrite <- (order_by_created_at_perm old).
      rewrite <- (take_drop excess (order_by_created_at old)).
      apply elem_of_app. now left. }
    exists (List.filter
              (fun x => negb (bool_decide (prompt_hash x ∈ victims))) old).
    split.
    + f_equal.
      rewrite order_by_created_at_snoc
        by (intros x Hx; now apply Hold).
      rewrite take_app_le.
      2:{ assert (Hl : length (order_by_created_at old) = length old)
            by now rewrite order_by_created_at_perm.
          rewrite Hl. unfold excess. rewrite len_app. unfold len. simpl.
          lia. }
      fold victims. unfold set_table, self0. cbn. f_equal.
      rewrite List.filter_app. f_equal. cbn.
      rewrite bool_decide_eq_false_2; [reflexivity|].
      intros Hin. now apply (Hvic h).
    + intros x Hx. apply list_elem_of_In, filter_In in Hx as [Hx _].
      apply list_elem_of_In in Hx. now apply Hold.
  - exists old. split; [reflexivity | intros x Hx; now apply Hold].
Qed.

(** C1, as stated, fails in two ways.  With [max_entries = 0] the janitor
    pass of [set] evicts the row just written, and the [get] that follows
    finds nothing, although the connection is open and nothing has expired.
    And not every response content can be stored: a content that holds a
    lone surrogate (here U+D800) cannot be bound as UTF-8, so [set] raises
    [UnicodeEncodeError], stores nothing, and the [get] that follows finds
    nothing. *)
Lemma set_then_get_misses_when_no_entry_allowed :
  (set (H := toy_hashlib) (F := toy_format) (init 24 0) 0 0
       (lit "prompt") (lit "model") 0 (lit "answer")
   = (Ok tt, init 24 0)
   /\ fst (get (H := toy_hashlib) (F := toy_format)
               (snd (set (H := toy_hashlib) (F := toy_format) (init 24 0) 0 0
                         (lit "prompt") (lit "model") 0 (lit "answer")))
               0 (lit "prompt") (lit "model") 0)
      = Ok None)
  /\ (set (H := toy_hashlib) (F := toy_format) (init 24 10) 0 0
          (lit "prompt") (lit "model") 0 [0xD800]
      = (Raise UnicodeEncodeError, init 24 10)
      /\ fst (get (H := toy_hashlib) (F := toy_format)
                  (snd (set (H := toy_hashlib) (F := toy_format) (init 24 10)
                            0 0 (lit "prompt") (lit "model") 0 [0xD800]))
                  0 (lit "prompt") (lit "model") 0)
         = Ok None).
Proof. repeat split; vm_compute; reflexivity. Qed.

(** C1, amended: on a cache with an open connection, [max_entries >= 1],
    a [max_age_hours] whose number of seconds has at most 53 bits and a
    table of fewer than [2^63 - 1] rows, for every model, temperature and
    prompt whose key UTF-8 can encode and every response content that UTF-8
    can encode, when no stored entry is more recent than the clock reading
    of [set] and the new entry has not expired at the janitor pass nor at
    the lookup, [set] returns and the [get] that follows with the same
    arguments returns a response whose content is the stored content and
    whose cached flag is true. *)
Theorem set_then_get (self : t) (now now' now'' : Q) (prompt model : pystr)
  (temperature : Q) (response h : pystr) (b : bytes) :
  _conn self = true ->
  1 <= max_entries self ->
  Z.abs (max_age_hours self * 3600) <= 2 ^ 53 ->
  len (table self) < SQLITE_INT_MAX ->
  _hash_prompt prompt model temperature = Ok h ->
  utf8_encode response = Ok b ->
  (forall x, x ∈ table self -> (created_at x <= now)%Q) ->
  ~ (now < now' - inject_Z (max_age_hours self * 3600))%Q ->
  ~ (inject_Z (max_age_hours self) < (now'' - now) / 3600)%Q ->
  fst (set self now now' prompt model temperature response) = Ok tt
  /\ fst (get (snd (set self now now' prompt model temperature response))
              now'' prompt model temperature)
     = Ok (Some {| LlmAsync.content := response; LlmAsync.model := model;
                   LlmAsync.temperature := temperature;
                   LlmAsync.prompt_tokens := 0;
                   LlmAsync.completion_tokens := 0;
                   LlmAsync.latency_ms := 0; LlmAsync.cached := true |}).
Proof.
  intros Hconn Hmax Hage Hsize Hh Hb Hclock Hlive Hfresh.
  destruct (set_keeps_new_row self now now' _ prompt model temperature
              response h b Hconn Hmax (cutoff_exact self now' Hage) Hsize Hh
              Hb Hclock Hlive) as (others & Hs & Ho).
  rewrite Hs. cbn [fst snd]. split; [reflexivity|].
  unfold get. cbn [_conn set_table table max_age_hours].
  rewrite Hconn, Hh. cbn [negb].
  rewrite (select_by_hash_last h others
             (mkRow h (slice_to 1000 prompt) model temperature response now 0)
             eq_refl Ho).
  cbn [created_at LLMCache.response].
  destruct (Qltb (inject_Z (max_age_hours self)) ((now'' - now) / 3600))
    eqn:E; [|reflexivity].
  apply Qltb_lt in E. contradiction.
Qed.

(** *** Expiry on lookup and the janitor pass of [set] *)



End WithHash.

(** A cache of ten entries, written and read at the same clock reading. *)
Lemma set_then_get_witness :
  fst (set (H := toy_hashlib) (F := toy_format) (init 24 10) 0 0
           (lit "prompt") (lit "model") 0 (lit "answer")) = Ok tt
  /\ fst (get (H := toy_hashlib) (F := toy_format)
              (snd (set (H := toy_hashlib) (F := toy_format) (init 24 10)
                        0 0 (lit "prompt") (lit "model") 0 (lit "answer")))
              0 (lit "prompt") (lit "model") 0)
     = Ok (Some {| LlmAsync.content := lit "answer";
                   LlmAsync.model := lit "model";
                   LlmAsync.temperature := 0;
                   LlmAsync.prompt_tokens := 0;
                   LlmAsync.completion_tokens := 0;
                   LlmAsync.latency_ms := 0; LlmAsync.cached := true |}).
Proof.
  apply (set_then_get (H := toy_hashlib) (F := toy_format) (init 24 10)
           0 0 0 (lit "prompt") (lit "model") 0 (lit "answer")
           (lit "model::prompt") (lit "answer")).
  - reflexivity.
  - simpl. lia.
  - simpl. lia.
  - reflexivity.
  - reflexivity.
  - reflexivity.
  - intros x Hx. inversion Hx.
  - intros Hlt. discriminate Hlt.
  - intros Hlt. discriminate Hlt.
Defined.


End CacheSpec.

(** ** Subprocess pool: ownership, capacity, cleanup and shutdown *)

Module PoolFacts.
Import SubprocessPool PoolSpec PyFacts.

Lemma acquire_Some_in_use (o : os) (now : Q) (h h' : heap) (self self' : t)
  (w : ref) :
  acquire o now h self = (Ok (Some w), h', self') ->
  exists worker, h' !! w = Some worker /\ in_use worker = true.
Proof.
  intros Ha. destruct (find_available o h (_workers self)) as [w0|] eqn:Hf.
  - destruct (acquire_reuse o now h self w0 Hf)
      as (i & worker & _ & _ & _ & _ & _ & h0 & Ha0 & Hl & _).
    rewrite Ha0 in Ha. inversion Ha; subst. eauto.
  - destruct (Z.lt_ge_cases (len (_workers self)) (max_workers self))
      as [Hlt|Hge].
    + destruct (spawn o) as [pid|e] eqn:Hsp.
      * destruct (acquire_spawn o now h self pid Hf Hlt Hsp)
          as (w0 & h0 & Ha0 & _ & Hl & _).
        rewrite Ha0 in Ha. inversion Ha; subst. eauto.
      * rewrite (acquire_spawn_fails o now h self e Hf Hlt Hsp) in Ha.
        discriminate.
    + rewrite (acquire_exhausted o now h self Hf) in Ha by lia.
      discriminate.
Qed.

Lemma acquire_Some_was_free (o : os) (now : Q) (h h' : heap) (self self' : t)
  (w : ref) :
  acquire o now h self = (Ok (Some w), h', self') ->
  available o h w \/ h !! w = None.
Proof.
  intros Ha. destruct (find_available o h (_workers self)) as [w0|] eqn:Hf.
  - destruct (acquire_reuse o now h self w0 Hf)
      as (i & worker & _ & Hl & Hu & Hr & _ & h0 & Ha0 & _).
    rewrite Ha0 in Ha. inversion Ha; subst. left. exists worker. auto.
  - destruct (Z.lt_ge_cases (len (_workers self)) (max_workers self))
      as [Hlt|Hge].
    + destruct (spawn o) as [pid|e] eqn:Hsp.
      * destruct (acquire_spawn o now h self pid Hf Hlt Hsp)
          as (w0 & h0 & Ha0 & Hn & _).
        rewrite Ha0 in Ha. inversion Ha; subst. now right.
      * rewrite (acquire_spawn_fails o now h self e Hf Hlt Hsp) in Ha.
        discriminate.
    + rewrite (acquire_exhausted o now h self Hf) in Ha by lia.
      discriminate.
Qed.

(** X1: a worker handed out by [acquire] is not handed out again by the next
    [acquire]: the two callers never hold the same worker. *)
Theorem acquire_never_shares (o o' : os) (now now' : Q) (h h1 h2 : heap)
  (self self1 self2 : t) (w w' : ref) :
  acquire o now h self = (Ok (Some w), h1, self1) ->
  acquire o' now' h1 self1 = (Ok (Some w'), h2, self2) ->
  w <> w'.
Proof.
  intros Ha Ha' ->.
  destruct (acquire_Some_in_use _ _ _ _ _ _ _ Ha) as (worker & Hl & Hu).
  destruct (acquire_Some_was_free _ _ _ _ _ _ _ Ha')
    as [(worker' & Hl' & Hu' & _)|Hn]; congruence.
Qed.

Lemma acquire_never_shares_witness : (0 <> 1)%nat.
Proof.
  apply (acquire_never_shares (mkOs (fun _ => true) (Ok 101%nat))
           (mkOs (fun _ => true) (Ok 102%nat)) 0 1 ∅
           (snd (fst (acquire (mkOs (fun _ => true) (Ok 101%nat)) 0 ∅ (init 2 60))))
           (snd (fst (acquire (mkOs (fun _ => true) (Ok 102%nat)) 1
              (snd (fst (acquire (mkOs (fun _ => true) (Ok 101%nat)) 0 ∅
                                 (init 2 60))))
              (snd (acquire (mkOs (fun _ => true) (Ok 101%nat)) 0 ∅ (init 2 60))))))
           (init 2 60)
           (snd (acquire (mkOs (fun _ => true) (Ok 101%nat)) 0 ∅ (init 2 60)))
           (snd (acquire (mkOs (fun _ => true) (Ok 102%nat)) 1
              (snd (fst (acquire (mkOs (fun _ => true) (Ok 101%nat)) 0 ∅
                                 (init 2 60))))
              (snd (acquire (mkOs (fun _ => true) (Ok 101%nat)) 0 ∅ (init 2 60)))))
           0%nat 1%nat); reflexivity.
Defined.

Lemma cleanup_scan_spec (self : t) (now : Q) (exits : nat -> bool)
  (h : heap) (ws : list ref) (w : ref) :
  w ∈ fst (cleanup_scan self now exits h ws)
  <-> w ∈ ws
      /\ forall worker, h !! w = Some worker ->
                        idle_expired self now worker = false.
Proof.
  induction ws as [|w0 rest IH]; simpl.
  - split; [intros Hin; inversion Hin | intros [Hin _]; inversion Hin].
  - destruct (cleanup_scan self now exits h rest) as [active sent] eqn:Hs.
    simpl in IH. destruct (h !! w0) as [worker0|] eqn:Hl.
    + destruct (idle_expired self now worker0) eqn:Hi; simpl.
      * rewrite IH, elem_of_cons. split; [tauto|].
        intros [[->|Hin] Hk]; [|tauto].
        specialize (Hk worker0 Hl). congruence.
      * rewrite !elem_of_cons, IH. split.
        -- intros [->|[Hin Hk]]; [|tauto]. split; [now left|].
           intros worker Hw. congruence.
        -- intros [[->|Hin] Hk]; [now left|right; tauto].
    + simpl. rewrite !elem_of_cons, IH. split.
      * intros [->|[Hin Hk]]; [|tauto]. split; [now left|].
        intros worker Hw. congruence.
      * intros [[->|Hin] Hk]; [now left|right; tauto].
Qed.

Lemma cleanup_scan_length (self : t) (now : Q) (exits : nat -> bool)
  (h : heap) (ws : list ref) :
  (length (fst (cleanup_scan self now exits h ws)) <= length ws)%nat.
Proof.
  induction ws as [|w0 rest IH]; simpl; [lia|].
  destruct (cleanup_scan self now exits h rest) as [active sent].
  simpl in IH. destruct (h !! w0) as [worker0|]; [|simpl; lia].
  destruct (idle_expired self now worker0); simpl; lia.
Qed.

Lemma cleanup_scan_drops (self : t) (now : Q) (exits : nat -> bool)
  (h : heap) (ws : list ref) (w : ref) (worker : SubprocessWorker) :
  w ∈ ws -> h !! w = Some worker -> idle_expired self now worker = true ->
  (length (fst (cleanup_scan self now exits h ws)) < length ws)%nat
  /\ Terminate (process worker) ∈ snd (cleanup_scan self now exits h ws).
Proof.
  intros Hin Hl Hi. induction ws as [|w0 rest IH]; [inversion Hin|].
  simpl. pose proof (cleanup_scan_length self now exits h rest) as Hlen.
  destruct (cleanup_scan self now exits h rest) as [active sent] eqn:Hs.
  simpl in *. apply elem_of_cons in Hin as [<-|Hin].
  - rewrite Hl, Hi. simpl. split; [lia|].
    apply elem_of_app. left. unfold stop.
    destruct (exits (process worker)); left.
  - specialize (IH Hin) as [IHl IHt].
    destruct (h !! w0) as [worker0|]; [|simpl; split; [lia|exact IHt]].
    destruct (idle_expired self now worker0); simpl.
    + split; [lia|]. apply elem_of_app. now right.
    + split; [lia|exact IHt].
Qed.

Lemma cleanup_workers (self : t) (now : Q) (exits : nat -> bool) (h : heap) :
  _workers (fst (cleanup self now exits h))
  = fst (cleanup_scan self now exits h (_workers self))
  /\ snd (cleanup self now exits h)
     = snd (cleanup_scan self now exits h (_workers self))
  /\ max_workers (fst (cleanup self now exits h)) = max_workers self.
Proof.
  unfold cleanup.
  destruct (cleanup_scan self now exits h (_workers self)). now repeat split.
Qed.

(** X2: [cleanup] keeps every worker that is in use or was used within
    [max_idle_time], adds none, and sends [terminate] to the process of
    every worker it drops. *)
Theorem cleanup_reaps_only_idle (self : t) (now : Q) (exits : nat -> bool)
  (h : heap) (w : ref) (worker : SubprocessWorker) :
  w ∈ _workers self ->
  h !! w = Some worker ->
  ((in_use worker = true
    \/ (now - last_used worker <= max_idle_time self)%Q) ->
   w ∈ _workers (fst (cleanup self now exits h)))
  /\ (in_use worker = false ->
      (max_idle_time self < now - last_used worker)%Q ->
      (w ∉ _workers (fst (cleanup self now exits h)))
      /\ Terminate (process worker) ∈ snd (cleanup self now exits h))
  /\ (forall w', w' ∈ _workers (fst (cleanup self now exits h)) ->
                 w' ∈ _workers self).
Proof.
  intros Hin Hl.
  destruct (cleanup_workers self now exits h) as (Hw & Hs & _).
  rewrite Hw, Hs. split; [|split].
  - intros Hkeep. apply cleanup_scan_spec. split; [exact Hin|].
    intros worker' Hl'. assert (worker' = worker) by congruence. subst.
    unfold idle_expired. destruct Hkeep as [Hu|Hrecent].
    + now rewrite Hu.
    + destruct (Qltb (max_idle_time self) (now - last_used worker)) eqn:E;
        [|apply andb_false_r].
      apply Qltb_lt in E. exfalso. exact (Qlt_not_le _ _ E Hrecent).
  - intros Hu Hold.
    assert (Hi : idle_expired self now worker = true).
    { unfold idle_expired. rewrite Hu. apply Qltb_lt in Hold.
      now rewrite Hold. }
    split.
    + rewrite cleanup_scan_spec. intros [_ Hk].
      specialize (Hk worker Hl). congruence.
    + now apply (cleanup_scan_drops self now exits h _ w worker).
  - intros w' Hw'. now apply cleanup_scan_spec in Hw'.
Qed.

Lemma cleanup_reaps_only_idle_witness :
  (0%nat ∉ _workers (fst (cleanup (mk 2 60 [0%nat]) 100 (fun _ => true)
                                  {[ 0%nat := mkWorker 101 0 false ]})))
  /\ Terminate 101 ∈ snd (cleanup (mk 2 60 [0%nat]) 100 (fun _ => true)
                                  {[ 0%nat := mkWorker 101 0 false ]}).
Proof.
  apply (cleanup_reaps_only_idle (mk 2 60 [0%nat]) 100 (fun _ => true)
           {[ 0%nat := mkWorker 101 0 false ]} 0%nat (mkWorker 101 0 false)).
  - left.
  - reflexivity.
  - reflexivity.
  - reflexivity.
Defined.

(** X3: the pool never holds more than [max_workers] workers: [acquire] keeps
    the bound, and [cleanup] and [shutdown] only shrink the pool. *)
Theorem pool_capacity (o : os) (now : Q) (exits : nat -> bool) (h : heap)
  (self : t) :
  len (_workers self) <= max_workers self ->
  len (_workers (snd (acquire o now h self)))
    <= max_workers (snd (acquire o now h self))
  /\ len (_workers (fst (cleanup self now exits h)))
       <= max_workers (fst (cleanup self now exits h))
  /\ len (_workers (fst (shutdown self exits h)))
       <= max_workers (fst (shutdown self exits h)).
Proof.
  intros Hb. split; [|split].
  - unfold acquire. destruct (find_available o h (_workers self));
      [exact Hb|].
    destruct (Z.ltb_spec (len (_workers self)) (max_workers self));
      [|exact Hb].
    unfold _create_worker. destruct (spawn o) as [pid|e]; [|exact Hb].
    cbn [bind snd _workers max_workers set_workers].
    rewrite len_app. unfold len at 2. simpl. lia.
  - destruct (cleanup_workers self now exits h) as (Hw & _ & Hm).
    rewrite Hw, Hm.
    pose proof (cleanup_scan_length self now exits h (_workers self)).
    unfold len in *. lia.
  - cbn. pose proof (len_nonneg (_workers self)). unfold len in *.
    simpl. lia.
Qed.

Lemma pool_capacity_witness :
  len (_workers (snd (acquire (mkOs (fun _ => true) (Ok 101%nat)) 0 ∅ (init 1 60))))
  <= max_workers (snd (acquire (mkOs (fun _ => true) (Ok 101%nat)) 0 ∅ (init 1 60))).
Proof.
  apply (pool_capacity (mkOs (fun _ => true) (Ok 101%nat)) 0 (fun _ => true) ∅
                       (init 1 60)).
  unfold len. simpl. lia.
Defined.

(** X4: a released worker whose process has exited fills its slot: on a full
    pool whose other workers are in use, [acquire] returns absent.  Once the
    worker has been idle for longer than [max_idle_time], [cleanup] drops
    it; the next [acquire] then starts a new worker when [Popen] returns,
    and raises the error of [Popen], leaving the cleaned pool as it is, when
    [Popen] fails. *)
Theorem cleanup_frees_dead_slot (o : os) (now now' : Q)
  (exits : nat -> bool) (h : heap) (self : t) (w : ref)
  (worker : SubprocessWorker) :
  len (_workers self) = max_workers self ->
  w ∈ _workers self ->
  h !! w = Some worker ->
  in_use worker = false ->
  running o (process worker) = false ->
  (max_idle_time self < now - last_used worker)%Q ->
  (forall w', w' ∈ _workers self -> w' <> w ->
     exists worker', h !! w' = Some worker' /\ in_use worker' = true) ->
  acquire o now' h self = (Ok None, h, self)
  /\ (w ∉ _workers (fst (cleanup self now exits h)))
  /\ (forall pid : nat,
        spawn o = Ok pid ->
        exists (w_new : ref) (h' : heap),
          acquire o now' h (fst (cleanup self now exits h))
          = (Ok (Some w_new), h',
             set_workers (fst (cleanup self now exits h))
                         (_workers (fst (cleanup self now exits h))
                          ++ [w_new]))
          /\ h !! w_new = None
          /\ h' !! w_new = Some {| process := pid; last_used := now';
                                   in_use := true |})
  /\ (forall e : exn,
        spawn o = Raise e ->
        acquire o now' h (fst (cleanup self now exits h))
        = (Raise e, h, fst (cleanup self now exits h))).
Proof.
  intros Hfull Hin Hl Hu Hdead Hold Hbusy.
  destruct (cleanup_workers self now exits h) as (Hw & _ & Hm).
  assert (Hi : idle_expired self now worker = true).
  { unfold idle_expired. rewrite Hu. apply Qltb_lt in Hold.
    now rewrite Hold. }
  destruct (cleanup_scan_drops self now exits h _ w worker Hin Hl Hi)
    as [Hlt _].
  assert (Hnone : find_available o h
                    (_workers (fst (cleanup self now exits h))) = None).
  { apply find_available_none. intros w' Hw'. rewrite Hw in Hw'.
    apply cleanup_scan_spec in Hw' as [Hw' Hk].
    destruct (decide (w' = w)) as [->|Hne].
    - specialize (Hk worker Hl). congruence.
    - destruct (Hbusy w' Hw' Hne) as (worker' & Hl' & Hu').
      eapply in_use_not_available; eauto. }
  assert (Hroom : len (_workers (fst (cleanup self now exits h)))
                  < max_workers (fst (cleanup self now exits h))).
  { rewrite Hw, Hm. unfold len in *. lia. }
  split; [|split; [|split]].
  - apply acquire_exhausted; [|lia].
    apply find_available_none. intros w' Hw'.
    destruct (decide (w' = w)) as [->|Hne].
    + intros (worker' & Hl' & _ & Hr). congruence.
    + destruct (Hbusy w' Hw' Hne) as (worker' & Hl' & Hu').
      eapply in_use_not_available; eauto.
  - rewrite Hw, cleanup_scan_spec. intros [_ Hk].
    specialize (Hk worker Hl). congruence.
  - intros pid Hsp.
    destruct (acquire_spawn o now' h (fst (cleanup self now exits h)) pid
                Hnone Hroom Hsp) as (w_new & h' & Ha & Hn & Hl' & _).
    exists w_new, h'. auto.
  - intros e Hsp. now apply acquire_spawn_fails.
Qed.

Lemma cleanup_frees_dead_slot_witness :
  acquire (mkOs (fun _ => false) (Ok 102%nat)) 200
          {[ 0%nat := mkWorker 101 0 false ]} (mk 1 60 [0%nat])
  = (Ok None, {[ 0%nat := mkWorker 101 0 false ]}, mk 1 60 [0%nat])
  /\ (0%nat ∉ _workers (fst (cleanup (mk 1 60 [0%nat]) 100 (fun _ => true)
                                     {[ 0%nat := mkWorker 101 0 false ]})))
  /\ (forall pid : nat,
        spawn (mkOs (fun _ => false) (Ok 102%nat)) = Ok pid ->
        exists (w_new : ref) (h' : heap),
          acquire (mkOs (fun _ => false) (Ok 102%nat)) 200
                  {[ 0%nat := mkWorker 101 0 false ]}
                  (fst (cleanup (mk 1 60 [0%nat]) 100 (fun _ => true)
                                {[ 0%nat := mkWorker 101 0 false ]}))
          = (Ok (Some w_new), h',
             set_workers
               (fst (cleanup (mk 1 60 [0%nat]) 100 (fun _ => true)
                             {[ 0%nat := mkWorker 101 0 false ]}))
               (_workers
                  (fst (cleanup (mk 1 60 [0%nat]) 100 (fun _ => true)
                                {[ 0%nat := mkWorker 101 0 false ]}))
                ++ [w_new]))
          /\ ({[ 0%nat := mkWorker 101 0 false ]} : heap) !! w_new = None
          /\ h' !! w_new = Some {| process := pid; last_used := 200;
                                   in_use := true |})
  /\ (forall e : exn,
        spawn (mkOs (fun _ => false) (Ok 102%nat)) = Raise e ->
        acquire (mkOs (fun _ => false) (Ok 102%nat)) 200
                {[ 0%nat := mkWorker 101 0 false ]}
                (fst (cleanup (mk 1 60 [0%nat]) 100 (fun _ => true)
                              {[ 0%nat := mkWorker 101 0 false ]}))
        = (Raise e, {[ 0%nat := mkWorker 101 0 false ]},
           fst (cleanup (mk 1 60 [0%nat]) 100 (fun _ => true)
                        {[ 0%nat := mkWorker 101 0 false ]}))).
Proof.
  apply (cleanup_frees_dead_slot (mkOs (fun _ => false) (Ok 102%nat)) 100 200
           (fun _ => true) {[ 0%nat := mkWorker 101 0 false ]}
           (mk 1 60 [0%nat]) 0%nat (mkWorker 101 0 false)).
  - reflexivity.
  - left.
  - reflexivity.
  - reflexivity.
  - reflexivity.
  - reflexivity.
  - intros w' Hw' Hne. apply list_elem_of_singleton in Hw'. congruence.
Defined.

(** X5: [shutdown] empties the pool and sends [terminate] to the process of
    every pooled worker, in use or not; with [max_workers >= 1] the next
    [acquire] starts over with a new worker when [Popen] returns, and raises
    the error of [Popen], leaving the pool empty, when [Popen] fails. *)
Theorem shutdown_stops_all (o : os) (now : Q) (exits : nat -> bool)
  (h : heap) (self : t) :
  1 <= max_workers self ->
  _workers (fst (shutdown self exits h)) = []
  /\ (forall w worker, w ∈ _workers self -> h !! w = Some worker ->
        Terminate (process worker) ∈ snd (shutdown self exits h))
  /\ (forall pid : nat,
        spawn o = Ok pid ->
        exists (w_new : ref) (h' : heap),
          acquire o now h (fst (shutdown self exits h))
          = (Ok (Some w_new), h', set_workers self [w_new])
          /\ h !! w_new = None
          /\ h' !! w_new = Some {| process := pid; last_used := now;
                                   in_use := true |})
  /\ (forall e : exn,
        spawn o = Raise e ->
        acquire o now h (fst (shutdown self exits h))
        = (Raise e, h, fst (shutdown self exits h))).
Proof.
  intros Hmax. split; [reflexivity|]. split; [|split].
  - intros w worker Hin Hl. unfold shutdown. cbn [snd].
    apply list_elem_of_In, in_flat_map. exists w.
    split; [now apply list_elem_of_In|]. rewrite Hl. unfold stop.
    destruct (exits (process worker)); now left.
  - intros pid Hsp.
    destruct (acquire_spawn o now h (fst (shutdown self exits h)) pid)
      as (w_new & h' & Ha & Hn & Hl & _).
    + reflexivity.
    + unfold len. simpl. lia.
    + exact Hsp.
    + exists w_new, h'. split; [exact Ha|]. split; [exact Hn | exact Hl].
  - intros e Hsp. apply acquire_spawn_fails; [reflexivity| |exact Hsp].
    unfold len. simpl. lia.
Qed.

(** A pool of one worker in use, shut down; then [Popen] fails. *)
Lemma shutdown_stops_all_witness :
  _workers (fst (shutdown (mk 1 60 [0%nat]) (fun _ => false)
                          {[ 0%nat := mkWorker 101 0 true ]})) = []
  /\ (forall w worker, w ∈ _workers (mk 1 60 [0%nat]) ->
        ({[ 0%nat := mkWorker 101 0 true ]} : heap) !! w = Some worker ->
        Terminate (process worker)
        ∈ snd (shutdown (mk 1 60 [0%nat]) (fun _ => false)
                        {[ 0%nat := mkWorker 101 0 true ]}))
  /\ (forall pid : nat,
        spawn (mkOs (fun _ => true) (Raise (OSError "[Errno 12]"))) = Ok pid ->
        exists (w_new : ref) (h' : heap),
          acquire (mkOs (fun _ => true) (Raise (OSError "[Errno 12]"))) 5
                  {[ 0%nat := mkWorker 101 0 true ]}
                  (fst (shutdown (mk 1 60 [0%nat]) (fun _ => false)
                                 {[ 0%nat := mkWorker 101 0 true ]}))
          = (Ok (Some w_new), h', set_workers (mk 1 60 [0%nat]) [w_new])
          /\ ({[ 0%nat := mkWorker 101 0 true ]} : heap) !! w_new = None
          /\ h' !! w_new = Some {| process := pid; last_used := 5;
                                   in_use := true |})
  /\ (forall e : exn,
        spawn (mkOs (fun _ => true) (Raise (OSError "[Errno 12]"))) = Raise e ->
        acquire (mkOs (fun _ => true) (Raise (OSError "[Errno 12]"))) 5
                {[ 0%nat := mkWorker 101 0 true ]}
                (fst (shutdown (mk 1 60 [0%nat]) (fun _ => false)
                               {[ 0%nat := mkWorker 101 0 true ]}))
        = (Raise e, {[ 0%nat := mkWorker 101 0 true ]},
           fst (shutdown (mk 1 60 [0%nat]) (fun _ => false)
                         {[ 0%nat := mkWorker 101 0 true ]}))).
Proof.
  apply (shutdown_stops_all (mkOs (fun _ => true) (Raise (OSError "[Errno 12]")))
           5 (fun _ => false)
           {[ 0%nat := mkWorker 101 0 true ]} (mk 1 60 [0%nat])).
  simpl. lia.
Defined.

End PoolFacts.

(** ** Early termination heuristics: counters, buffer and reset *)

Module TerminationFacts.
Import TerminationHeuristics TerminationSpec StringFacts PyFacts.

Section WithHash.
Context {H : Hashlib} {F : FloatFormat}.


Lemma record_attempt_Ok (self self' : t) (diff : pystr) (success : bool) :
  record_attempt self diff success = (Ok tt, self') ->
  exists hash, patch_hash diff = Ok hash.
Proof.
  unfold record_attempt. destruct (patch_hash diff) as [hash|e];
    [eauto | discriminate].
Qed.

(** One recorded attempt, when the call returns. *)
Lemma record_step (self self' : t) (diff : pystr) (success : bool) :
  record_attempt self diff success = (Ok tt, self') ->
  _total_attempts self' = _total_attempts self + 1
  /\ _successful_attempts self'
     = _successful_attempts self + (if success then 1 else 0)
  /\ _consecutive_failures self'
     = (if success then 0 else _consecutive_failures self + 1)
  /\ (len (_patch_hashes self) <= maxlen ->
      len (_patch_hashes self')
      = Z.min (len (_patch_hashes self) + 1) maxlen)
  /\ (min_steps self', max_consecutive_failures self',
      max_similar_patches self', min_success_rate self')
     = (min_steps self, max_consecutive_failures self,
        max_similar_patches self, min_success_rate self).
Proof.
  intros Hr. destruct (record_attempt_Ok _ _ _ _ Hr) as [hash Hh].
  pose proof (record_attempt_spec self diff hash success Hh) as Hs.
  cbn zeta in Hs. rewrite Hr in Hs. cbn [fst snd] in Hs.
  destruct Hs as (_ & Ht & Hsu & Hc & Hp & _ & Hcfg).
  repeat split; try assumption.
  intros Hb. rewrite Hp.
  destruct (Z.ltb_spec (len (_patch_hashes self)) maxlen);
    unfold len, maxlen in *; rewrite length_app, ?length_skipn; simpl; lia.
Qed.




(** *** The buffer after the same patch is recorded again and again *)

Lemma deque_append_copies (l : list pystr) (x : pystr) (k : nat) :
  len l <= maxlen -> (k < 20)%nat ->
  (exists pre, l = pre ++ repeat x k) ->
  exists pre', deque_append l x = pre' ++ repeat x (Datatypes.S k).
Proof.
  intros Hb Hk [pre ->]. unfold deque_append.
  destruct (Z.ltb_spec (len (pre ++ repeat x k)) maxlen).
  - exists pre. rewrite <- List.app_assoc. f_equal.
    change [x] with (repeat x 1). rewrite <- repeat_app.
    f_equal. lia.
  - destruct pre as [|p pre].
    + exfalso. simpl in *. rewrite len_repeat in *. unfold maxlen in *. lia.
    + exists pre. change (skipn 1 ((p :: pre) ++ repeat x k)) with (pre ++ repeat x k).
      rewrite <- List.app_assoc. f_equal.
      change [x] with (repeat x 1). rewrite <- repeat_app. f_equal. lia.
Qed.

Lemma len_deque_append (l : list pystr) (x : pystr) :
  len l <= maxlen ->
  len (deque_append l x) = Z.min (len l + 1) maxlen.
Proof.
  intros Hb. unfold deque_append.
  destruct (Z.ltb_spec (len l) maxlen); rewrite len_app; unfold len in *;
    simpl; [lia|]. rewrite length_skipn. unfold maxlen in *. lia.
Qed.

Lemma record_same_patch (d hd : pystr) (attempts : list (pystr * bool)) :
  patch_hash d = Ok hd ->
  Forall (fun a => fst a = d) attempts ->
  forall (self : t) (k : nat),
    len (_patch_hashes self) <= maxlen ->
    (k + length attempts <= 20)%nat ->
    (exists pre, _patch_hashes self = pre ++ repeat hd k) ->
    exists self',
      record_all self attempts = Ok self'
      /\ len (_patch_hashes self') <= maxlen
      /\ (exists pre', _patch_hashes self'
                       = pre' ++ repeat hd (k + length attempts))
      /\ max_similar_patches self' = max_similar_patches self.
Proof.
  intros Hh Hall. induction Hall as [|[d0 b] rest Hd Hrest IH];
    intros self k Hb Hk Hpre.
  - exists self. simpl. rewrite Nat.add_0_r. auto.
  - simpl in Hd. subst d0. simpl in Hk |- *.
    pose proof (record_attempt_spec self d hd b Hh) as Hs. cbn zeta in Hs.
    destruct (record_attempt self d b) as [r s1] eqn:Hstep.
    cbn [fst snd] in Hs. destruct Hs as (-> & _ & _ & _ & Hp & Hb1 & Hcfg).
    assert (Hp1 : _patch_hashes s1 = deque_append (_patch_hashes self) hd).
    { rewrite Hp. unfold deque_append.
      destruct (len (_patch_hashes self) <? maxlen); reflexivity. }
    destruct (IH s1 (Datatypes.S k)) as (self' & Hr & Hb' & Hpre' & Hm').
    + now apply Hb1.
    + lia.
    + rewrite Hp1. apply deque_append_copies; [exact Hb | lia | exact Hpre].
    + exists self'. split; [exact Hr|]. split; [exact Hb'|]. split.
      * replace (k + Datatypes.S (length rest))%nat
          with (Datatypes.S k + length rest)%nat by lia. exact Hpre'.
      * rewrite Hm'. congruence.
Qed.

(** X7: once the same patch has been recorded [max_similar_patches] times in
    a row (a number between 1 and the buffer's capacity of 20), whatever
    the outcomes, the second rule holds, and [should_terminate] returns
    [Repeated identical patches] unless the consecutive failures have
    already reached their limit. *)
Theorem repeated_patch_terminates (self : t) (d hd : pystr)
  (attempts : list (pystr * bool)) :
  patch_hash d = Ok hd ->
  Forall (fun a => fst a = d) attempts ->
  len attempts = max_similar_patches self ->
  1 <= max_similar_patches self <= 20 ->
  len (_patch_hashes self) <= maxlen ->
  exists self',
    record_all self attempts = Ok self'
    /\ rule_identical self'
    /\ (_consecutive_failures self' < max_consecutive_failures self' ->
        should_terminate self' = Ok (true, lit "Repeated identical patches")).
Proof.
  intros Hh Hall Hlen Hm Hb.
  destruct (record_same_patch d hd attempts Hh Hall self 0%nat Hb)
    as (self' & Hr & Hb' & [pre' Hpre'] & Hm').
  { unfold len in Hlen. lia. }
  { exists (_patch_hashes self). simpl. now rewrite app_nil_r. }
  exists self'. split; [exact Hr|].
  assert (Hn : Z.to_nat (max_similar_patches self') = length attempts)
    by (unfold len in Hlen; lia).
  assert (Hri : rule_identical self').
  { unfold rule_identical. rewrite Hpre', Hn. simpl in *. split.
    - rewrite len_app, len_repeat. pose proof (len_nonneg pre').
      unfold len in Hlen. lia.
    - exists hd. rewrite length_app, repeat_length.
      replace (length pre' + length attempts - length attempts)%nat
        with (length pre') by lia.
      now rewrite drop_app_length. }
  split; [exact Hri|]. intros Hc.
  assert (Hcheck := proj2 (identical_check_spec self' ltac:(lia)) Hri).
  unfold should_terminate.
  destruct (Z.geb_spec (_consecutive_failures self')
                       (max_consecutive_failures self')); [lia|].
  rewrite Hcheck. reflexivity.
Qed.

Lemma record_all_config (attempts : list (pystr * bool)) :
  forall self self' : t,
  record_all self attempts = Ok self' ->
  (min_steps self', max_consecutive_failures self',
   max_similar_patches self', min_success_rate self')
  = (min_steps self, max_consecutive_failures self,
     max_similar_patches self, min_success_rate self).
Proof.
  induction attempts as [|[d b] rest IH]; intros self self' Hr.
  - simpl in Hr. now inversion Hr.
  - simpl in Hr.
    destruct (record_attempt self d b) as [[[]|e] s1] eqn:Hs;
      [|discriminate].
    destruct (record_step _ _ _ _ Hs) as (_ & _ & _ & _ & Hcfg).
    rewrite (IH s1 self' Hr). exact Hcfg.
Qed.

(** X8: whatever has been recorded, [reset] brings the object back to its
    initial state, with the thresholds it was created with; with
    thresholds of at least 1 the object then does not ask for
    termination. *)
Theorem reset_forgets_run (self self' : t)
  (attempts : list (pystr * bool)) :
  record_all self attempts = Ok self' ->
  reset self' = init (min_steps self) (max_consecutive_failures self)
                     (max_similar_patches self) (min_success_rate self)
  /\ (1 <= min_steps self -> 1 <= max_consecutive_failures self ->
      1 <= max_similar_patches self ->
      should_terminate (reset self') = Ok (false, [])).
Proof.
  intros Hr. pose proof (record_all_config attempts self self' Hr) as Hcfg.
  injection Hcfg as H1 H2 H3 H4.
  assert (Hreset : reset self'
                   = init (min_steps self) (max_consecutive_failures self)
                          (max_similar_patches self) (min_success_rate self)).
  { unfold reset, init, set_hashes, set_counters. cbn.
    now rewrite H1, H2, H3, H4. }
  split; [exact Hreset|]. intros Hs Hc Hm. rewrite Hreset.
  unfold should_terminate, init. cbn -[Z.geb].
  destruct (Z.geb_spec 0 (max_consecutive_failures self)); [lia|].
  destruct (Z.geb_spec (len (@nil pystr)) (max_similar_patches self))
    as [Hge|_].
  { unfold len in Hge. simpl in Hge. lia. }
  destruct (Z.geb_spec 0 (min_steps self)); [lia|]. reflexivity.
Qed.

End WithHash.


Lemma repeated_patch_terminates_witness :
  exists self',
    record_all (H := toy_hashlib) default
               [(lit "p", true); (lit "p", false); (lit "p", true)]
    = Ok self'
    /\ rule_identical self'
    /\ (_consecutive_failures self' < max_consecutive_failures self' ->
        should_terminate (F := toy_format) self'
        = Ok (true, lit "Repeated identical patches")).
Proof.
  apply (repeated_patch_terminates (H := toy_hashlib) (F := toy_format)
           default (lit "p") (lit "p")
           [(lit "p", true); (lit "p", false); (lit "p", true)]).
  - reflexivity.
  - repeat constructor.
  - reflexivity.
  - simpl. lia.
  - unfold len, maxlen. simpl. lia.
Defined.

Lemma reset_forgets_run_witness :
  reset (mk 3 5 3 (double (5 # 100)) [lit "a"] 1 1 0)
  = init (min_steps default) (max_consecutive_failures default)
         (max_similar_patches default) (min_success_rate default).
Proof.
  apply (reset_forgets_run (H := toy_hashlib) (F := toy_format) default
           (mk 3 5 3 (double (5 # 100)) [lit "a"] 1 1 0) [(lit "a", false)]).
  reflexivity.
Defined.

End TerminationFacts.

(** ** Retry: what holds for every wrapped function and every policy *)

Module RetryFacts.
Import Retry RetrySpec PyFacts Float64Facts.

Lemma calls_cons_call (tr : list event) : calls (Call :: tr) = 1 + calls tr.
Proof. unfold calls, len. simpl. lia. Qed.

Lemma calls_cons_sleep (d : Q) (tr : list event) :
  calls (Sleep d :: tr) = calls tr.
Proof. reflexivity. Qed.

Lemma calls_nonneg (tr : list event) : 0 <= calls tr.
Proof. unfold calls. apply len_nonneg. Qed.

Section WithPlatform.
Context {P : Platform}.

Lemma sleep_Ok_nonneg (d : Q) : sleep d = Ok tt -> (0 <= d)%Q.
Proof.
  unfold sleep. destruct (float_mul d 1000000000) as [ns| |];
    [|discriminate..].
  destruct (Qleb (- pow2 63) ns && Qleb ns (pow2 63)); [|discriminate].
  destruct (Qltb d 0) eqn:E; [discriminate|]. intros _.
  apply Qnot_lt_le. intros Hlt. apply Qltb_lt in Hlt. congruence.
Qed.

Lemma backoff_delay_capped (p : policy) (a : Z) (d : Q) :
  backoff_delay p a = Ok (Fin d) -> (d <= max_delay p)%Q.
Proof.
  unfold backoff_delay.
  destruct (float_pow (exponential_base p) a) as [pw|e]; [|discriminate].
  cbn [bind]. intros E. inversion E as [Hd].
  change (fle (Fin d) (Fin (max_delay p))). rewrite <- Hd.
  apply py_min_le_r.
Qed.

Section Wrapper.
Context {S T : Type}.
Variable p : policy.
Variable func : S -> result T * S.

Lemma loop_bounds (k : nat) : forall (a : nat) (last : option exn) (s : S)
  (trace0 : list event),
  k = 0%nat \/ Z.of_nat (a + k) = max_retries p + 1 ->
  exists (tr : list event) (r : result T) (s' : S),
    loop p func (map Z.of_nat (seq a k)) last s trace0 = (r, s', trace0 ++ tr)
    /\ calls tr <= Z.of_nat k
    /\ (k = 0%nat -> tr = [] /\ r = raise_last last)
    /\ ((0 < k)%nat -> 1 <= calls tr /\ len (sleeps tr) = calls tr - 1)
    /\ Forall (fun d => (0 <= d)%Q /\ (d <= max_delay p)%Q) (sleeps tr)
    /\ s' = state_after func (Z.to_nat (calls tr)) s.
Proof.
  induction k as [|k IH]; intros a last s trace0 Hk.
  - exists [], (raise_last last), s. cbn [seq map loop]. rewrite app_nil_r.
    split; [destruct last; reflexivity|]. split; [reflexivity|].
    split; [auto|]. split; [lia|]. split; [constructor|]. reflexivity.
  - destruct Hk as [Hk|Hk]; [discriminate|].
    assert (Hone : forall (r : result T) (s1 : S), snd (func s) = s1 ->
              exists (tr : list event) (r0 : result T) (s' : S),
                (r, s1, trace0 ++ [Call]) = (r0, s', trace0 ++ tr)
                /\ calls tr <= Z.of_nat (Datatypes.S k)
                /\ (Datatypes.S k = 0%nat -> tr = [] /\ r0 = raise_last last)
                /\ ((0 < Datatypes.S k)%nat ->
                    1 <= calls tr /\ len (sleeps tr) = calls tr - 1)
                /\ Forall (fun d => (0 <= d)%Q /\ (d <= max_delay p)%Q)
                          (sleeps tr)
                /\ s' = state_after func (Z.to_nat (calls tr)) s).
    { intros r s1 Hs1. exists [Call], r, s1.
      split; [reflexivity|]. split; [unfold calls, len; simpl; lia|].
      split; [discriminate|]. split; [intros _; split; reflexivity|].
      split; [constructor|]. symmetry. exact Hs1. }
    cbn [seq map loop]. destruct (func s) as [r s1] eqn:Ef.
    destruct r as [v|e]; [apply Hone; reflexivity|].
    destruct (retryable_exceptions p e); [|apply Hone; reflexivity].
    destruct (Z.ltb_spec (Z.of_nat a) (max_retries p)) as [Hlt|Hge];
      [|apply Hone; reflexivity].
    destruct (backoff_delay p (Z.of_nat a)) as [[delay| |]|e'] eqn:Hbd;
      [|apply Hone; reflexivity..].
    destruct (sleep delay) as [[]|e'] eqn:Hsl;
      [|apply Hone; reflexivity].
    destruct (IH (Datatypes.S a) (Some e) s1
                 ((trace0 ++ [Call]) ++ [Sleep delay]))
      as (tr & r' & s' & Hl & Hc & _ & Hpos & Hall & Hst).
    { right. lia. }
    destruct (Hpos ltac:(lia)) as [Hc1 Hsl1].
    exists (Call :: Sleep delay :: tr), r', s'.
    split.
    { rewrite Hl. f_equal. rewrite <- !List.app_assoc. reflexivity. }
    rewrite calls_cons_call, calls_cons_sleep.
    split; [lia|]. split; [discriminate|]. split.
    { intros _. split; [lia|].
      change (sleeps (Call :: Sleep delay :: tr)) with (delay :: sleeps tr).
      unfold len in *. simpl length. lia. }
    split.
    { change (sleeps (Call :: Sleep delay :: tr)) with (delay :: sleeps tr).
      constructor; [|exact Hall]. split.
      - now apply sleep_Ok_nonneg.
      - now apply (backoff_delay_capped p (Z.of_nat a)). }
    rewrite Hst.
    replace (Z.to_nat (1 + calls tr))
      with (Datatypes.S (Z.to_nat (calls tr))) by lia.
    rewrite state_after_S, Ef. reflexivity.
Qed.

End Wrapper.

End WithPlatform.

(** X9: whatever the wrapped function does and whatever the policy is, the
    wrapper invokes the function at most [max_retries + 1] times, sleeps
    exactly once between two consecutive invocations and never after the
    last one, every sleep lasts between 0 and [max_delay], and the world is
    left as the invocations made left it; with a negative [max_retries] the
    function is not invoked at all and the wrapper raises [TypeError]. *)
Theorem retry_bounds {P : Platform} {S T : Type} (p : policy)
  (func : S -> result T * S) (s : S) :
  calls (snd (wrapper p func s)) <= Z.max 0 (max_retries p + 1)
  /\ len (sleeps (snd (wrapper p func s)))
     = Z.max 0 (calls (snd (wrapper p func s)) - 1)
  /\ Forall (fun d => (0 <= d)%Q /\ (d <= max_delay p)%Q)
            (sleeps (snd (wrapper p func s)))
  /\ snd (fst (wrapper p func s))
     = state_after func (Z.to_nat (calls (snd (wrapper p func s)))) s
  /\ (max_retries p < 0 ->
      wrapper p func s
      = (Raise (TypeError "exceptions must derive from BaseException"),
         s, [])).
Proof.
  unfold wrapper, range.
  set (k := Z.to_nat (max_retries p + 1)).
  destruct (loop_bounds p func k 0%nat None s [])
    as (tr & r & s' & Hl & Hc & Hz & Hpos & Hall & Hst).
  { destruct k eqn:Ek; [now left | right; lia]. }
  rewrite Hl. cbn [fst snd app]. split; [lia|]. split; [|split; [|split]].
  - destruct k eqn:Ek.
    + destruct (Hz eq_refl) as [-> _]. reflexivity.
    + destruct (Hpos ltac:(lia)) as [H1 ->]. lia.
  - exact Hall.
  - exact Hst.
  - intros Hneg. assert (Hk : k = 0%nat) by lia.
    destruct (Hz Hk) as [-> ->]. rewrite Hst. reflexivity.
Qed.

(** X10: an error that is not retryable is re-raised at once.  Under a
    policy with [max_retries >= 0], [base_delay >= 0] and
    [0 <= max_delay <= 9223372036], when the powers
    [exponential_base ** attempt] of the first [k] attempts are computed
    without overflow and are not negative and the system accepts every
    sleep up to [max_delay]: after [k] retryable failures (each followed by
    its sleep), a failure of the next invocation that
    [retryable_exceptions] does not cover leaves the wrapper with that
    error, [k + 1] invocations and [k] sleeps. *)
Theorem non_retryable_propagates {P : Platform} {S T : Type} (p : policy)
  (func : S -> result T * S) (s : S) (k : nat) (e : exn) :
  0 <= max_retries p ->
  (0 <= base_delay p)%Q ->
  (0 <= max_delay p)%Q ->
  (max_delay p <= 9223372036)%Q ->
  (forall a : Z,
     0 <= a < Z.of_nat k ->
     exists pw : Q, float_pow (exponential_base p) a = Ok pw /\ (0 <= pw)%Q) ->
  (forall t : Z,
     0 <= t <= sleep_ns (max_delay p) -> clock_nanosleep t = Ok tt) ->
  (k <= Z.to_nat (max_retries p))%nat ->
  (forall j, (j < k)%nat ->
     exists e', fst (func (state_after func j s)) = Raise e'
                /\ retryable_exceptions p e' = true) ->
  fst (func (state_after func k s)) = Raise e ->
  retryable_exceptions p e = false ->
  wrapper p func s
  = (Raise e, state_after func (Datatypes.S k) s,
     failed_attempts p 0 k ++ [Call])
  /\ calls (failed_attempts p 0 k ++ [Call]) = Z.of_nat k + 1
  /\ sleeps (failed_attempts p 0 k ++ [Call])
     = map (delay_value p) (map Z.of_nat (seq 0 k)).
Proof.
  intros Hn Hbase Hmax Hcap Hpow Hker Hk Hfail He Hnr. split; [|split].
  - apply (wrapper_stops p func Hbase Hmax Hcap (Z.of_nat k) Hpow Hker s k
             (Raise e)); auto; lia.
  - rewrite calls_app, calls_failed_attempts. unfold calls, len. simpl. lia.
  - rewrite sleeps_app, sleeps_failed_attempts. cbn. now rewrite app_nil_r.
Qed.

(** The first failure, [RuntimeError "0"], is retryable and the second is
    not: two invocations with one sleep of 1 second in between. *)
Lemma non_retryable_propagates_witness :
  wrapper (P := exact_platform)
          (mk 3 1 60 2
              (fun e => match e with
                        | RuntimeError msg => String.eqb msg "0"
                        | _ => false
                        end))
          always_failing 0%nat
  = (Raise (RuntimeError "1"), 2%nat, [Call; Sleep 1; Call]).
Proof.
  apply (non_retryable_propagates (P := exact_platform)
           (mk 3 1 60 2
               (fun e => match e with
                         | RuntimeError msg => String.eqb msg "0"
                         | _ => false
                         end))
           always_failing 0%nat 1%nat (RuntimeError "1")).
  - simpl. lia.
  - discriminate.
  - discriminate.
  - discriminate.
  - intros a Ha. assert (a = 0) by lia. subst a. exists 1%Q.
    split; [reflexivity | discriminate].
  - reflexivity.
  - simpl. lia.
  - intros j Hj. assert (j = 0%nat) by lia. subst j.
    exists (RuntimeError "0"). split; reflexivity.
  - reflexivity.
  - reflexivity.
Defined.

(** A delay that is negative and huge is not refused by [time.sleep] as a
    negative length: its number of nanoseconds is out of range, and the
    wrapper raises [OverflowError] after one invocation. *)
Lemma huge_negative_delay_overflows :
  wrapper (P := exact_platform) (mk 3 (- pow2 1000) 60 2 (fun _ => true))
          always_failing 0%nat
  = (Raise (OverflowError "timestamp too large to convert to C _PyTime_t"),
     1%nat, [Call]).
Proof. vm_compute. reflexivity. Qed.

(** X11: with a negative [base_delay] the first retry never happens.  When
    [base_delay] is a negative float (at most [-2^-1074]) and neither it nor
    [max_delay] is below -9223372036, the delay computed after the first
    failure is negative, [time.sleep] refuses it, and the wrapper raises
    [ValueError] after one invocation in place of the error of the
    function. *)
Theorem negative_delay_aborts {P : Platform} {S T : Type} (p : policy)
  (func : S -> result T * S) (s s1 : S) (e : exn) :
  1 <= max_retries p ->
  (base_delay p <= - pow2 (-1074))%Q ->
  (- (9223372036) <= base_delay p)%Q ->
  (- (9223372036) <= max_delay p)%Q ->
  func s = (Raise e, s1) ->
  retryable_exceptions p e = true ->
  wrapper p func s
  = (Raise (ValueError "sleep length must be non-negative"), s1, [Call]).
Proof.
  intros Hn Hneg Hlow Hlowm Hf Hr. unfold wrapper, range.
  replace (Z.to_nat (max_retries p + 1))
    with (Datatypes.S (Z.to_nat (max_retries p))) by lia.
  cbn [seq map loop]. rewrite Hf, Hr.
  destruct (Z.ltb_spec (Z.of_nat 0) (max_retries p)); [|lia].
  (* the product is the float of the base delay: negative and in range *)
  assert (Hx : exists x : Q,
             float_mul (base_delay p) 1 = Fin x
             /\ (x <= - pow2 (-1074))%Q /\ (- (9223372036) <= x)%Q).
  { unfold float_mul.
    assert (H1 : fle (round64 (base_delay p * 1)) (round64 (- pow2 (-1074))))
      by (apply round64_mono; now rewrite Qmult_1_r).
    assert (H2 : fle (round64 (- (9223372036))) (round64 (base_delay p * 1)))
      by (apply round64_mono; now rewrite Qmult_1_r).
    assert (E1 : round64 (- pow2 (-1074)) = Fin (- pow2 (-1074)))
      by (vm_compute; reflexivity).
    assert (E2 : round64 (- (9223372036)) = Fin (- (9223372036)))
      by (vm_compute; reflexivity).
    rewrite E1 in H1. rewrite E2 in H2.
    destruct (round64 (base_delay p * 1)) as [x| |]; simpl in *;
      try contradiction.
    exists x. auto. }
  destruct Hx as (x & Hx & Hx1 & Hx2).
  assert (Hd : exists d : Q,
             backoff_delay p (Z.of_nat 0) = Ok (Fin d)
             /\ (d < 0)%Q /\ (- (9223372036) <= d)%Q).
  { unfold backoff_delay.
    change (float_pow (exponential_base p) (Z.of_nat 0)) with (Ok 1%Q).
    cbn [bind]. rewrite Hx. cbn [py_min].
    assert (Hx0 : (x < 0)%Q).
    { eapply Qle_lt_trans; [exact Hx1|]. reflexivity. }
    destruct (Qltb (max_delay p) x) eqn:E.
    - exists (max_delay p). split; [reflexivity|]. apply Qltb_lt in E.
      split; [exact (Qlt_trans _ _ _ E Hx0) | exact Hlowm].
    - exists x. auto. }
  destruct Hd as (d & -> & Hd0 & Hd1).
  (* its number of nanoseconds is in range *)
  unfold sleep.
  assert (H1 : fle (float_mul (- (9223372036)) 1000000000)
                   (float_mul d 1000000000))
    by (apply float_mul_mono_l; [discriminate | exact Hd1]).
  assert (H2 : fle (float_mul d 1000000000) (float_mul 0 1000000000))
    by (apply float_mul_mono_l; [discriminate | now apply Qlt_le_weak]).
  assert (E1 : float_mul (- (9223372036)) 1000000000
               = Fin (- (9223372036000000000)))
    by (vm_compute; reflexivity).
  assert (E2 : float_mul 0 1000000000 = Fin 0) by reflexivity.
  rewrite E1 in H1. rewrite E2 in H2.
  destruct (float_mul d 1000000000) as [ns| |]; simpl in H1, H2;
    try contradiction.
  assert (E3 : Qleb (- pow2 63) ns = true).
  { apply Qle_bool_iff. eapply Qle_trans; [|exact H1]. discriminate. }
  assert (E4 : Qleb ns (pow2 63) = true).
  { apply Qle_bool_iff. eapply Qle_trans; [exact H2|]. discriminate. }
  rewrite E3, E4. cbn [andb]. apply Qltb_lt in Hd0. rewrite Hd0. reflexivity.
Qed.

Lemma negative_delay_aborts_witness :
  wrapper (P := exact_platform) (mk 3 (- (1)) 60 2 (fun _ => true))
          always_failing 0%nat
  = (Raise (ValueError "sleep length must be non-negative"), 1%nat, [Call]).
Proof.
  apply (negative_delay_aborts (P := exact_platform)
           (mk 3 (- (1)) 60 2 (fun _ => true))
           always_failing 0%nat 1%nat (RuntimeError (pretty 0%nat))).
  - simpl. lia.
  - discriminate.
  - discriminate.
  - discriminate.
  - reflexivity.
  - reflexivity.
Defined.

End RetryFacts.

(** ** Memoization: sequences of calls, failures and a zero time-to-live *)

Module MemoizeFacts.
Import Memoize MemoizeSpec PyFacts.

Lemma dict_get_set {V} (key : pystr) (v : Q * V) (d : @dict V) :
  dict_get key (dict_set key v d) = Some v.
Proof.
  induction d as [|[k v0] d IH]; simpl.
  - now rewrite bool_decide_eq_true_2.
  - case_bool_decide as Hk; simpl.
    + now rewrite bool_decide_eq_true_2.
    + rewrite bool_decide_eq_false_2 by exact Hk. exact IH.
Qed.

Lemma dict_get_del_other {V} (key k : pystr) (d : @dict V) :
  k <> key -> dict_get k (dict_del key d) = dict_get k d.
Proof.
  intros Hk. induction d as [|[k0 v0] d IH]; [reflexivity|].
  rewrite dict_del_cons. simpl. case_bool_decide as H0.
  - subst k0. rewrite bool_decide_eq_false_2 by congruence. exact IH.
  - simpl. case_bool_decide; [reflexivity | exact IH].
Qed.

Section Wrapper.
Context {A V S : Type}.
Variable key_of : A -> pystr.
Variable ttl_seconds : Q.
Variable maxsize : Z.
Variable func : A -> S -> result V * S.

Local Abbreviation run := (wrapper key_of ttl_seconds maxsize func).
Local Abbreviation stale := (Memoize.stale key_of ttl_seconds).

(** A miss that returns has stored the value under the key, with the time
    of the call. *)
Lemma miss_stores (args : A) (now : Q) (cache cache' : @dict V) (s s' : S)
  (v : V) :
  stale args now cache ->
  run args now cache s = (Ok v, cache', s') ->
  dict_get (key_of args) cache' = Some (now, v)
  /\ func args s = (Ok v, s').
Proof.
  intros Hst. rewrite (wrapper_stale _ _ _ _ _ _ _ _ Hst). cbn zeta.
  destruct (func args s) as [[v0|e] s0]; [|discriminate].
  destruct (len (dict_del (key_of args) cache) >=? maxsize).
  - destruct (oldest_key (dict_del (key_of args) cache)) as [k|e];
      [|discriminate].
    intros E. inversion E; subst. split; [apply dict_get_set | reflexivity].
  - intros E. inversion E; subst. split; [apply dict_get_set | reflexivity].
Qed.

End Wrapper.

(** X12: a value computed on a miss is served afterwards without the function
    being invoked: any call whose arguments give the same key, made less
    than [ttl_seconds] after the miss, returns the stored value and leaves
    the cache and the world as they are.  The key, not the arguments,
    identifies the call. *)
Theorem memoize_store_then_hit {A V S : Type} (key_of : A -> pystr)
  (ttl_seconds : Q) (maxsize : Z) (func : A -> S -> result V * S)
  (args args2 : A) (now now' : Q) (cache cache' : @dict V) (s s' s2 : S)
  (v : V) :
  stale key_of ttl_seconds args now cache ->
  wrapper key_of ttl_seconds maxsize func args now cache s
  = (Ok v, cache', s') ->
  key_of args2 = key_of args ->
  (now' - now < ttl_seconds)%Q ->
  func args s = (Ok v, s')
  /\ wrapper key_of ttl_seconds maxsize func args2 now' cache' s2
     = (Ok v, cache', s2).
Proof.
  intros Hst Hrun Hkey Hfresh.
  destruct (miss_stores key_of ttl_seconds maxsize func args now cache cache'
              s s' v Hst Hrun) as [Hget Hf].
  split; [exact Hf|].
  apply (wrapper_hit key_of ttl_seconds maxsize func args2 now' cache' s2
           now v); [|exact Hfresh].
  rewrite Hkey. exact Hget.
Qed.

Lemma memoize_store_then_hit_witness :
  counting_func tt 0%nat = (Ok 7, 1%nat)
  /\ wrapper unit_key 300 1 counting_func tt 5
             [(unit_key tt, (0%Q, 7))] 1%nat
     = (Ok 7, [(unit_key tt, (0%Q, 7))], 1%nat).
Proof.
  apply (memoize_store_then_hit unit_key 300 1 counting_func tt tt 0 5
           [] [(unit_key tt, (0%Q, 7))] 0%nat 1%nat 1%nat 7).
  - left. reflexivity.
  - reflexivity.
  - reflexivity.
  - reflexivity.
Defined.

(** X13: a failure is not cached.  When the function raises, the wrapper
    raises the same error and stores nothing; an expired entry of the key
    has been removed all the same, so that the next call with that key,
    whenever it is made, invokes the function again. *)
Theorem memoize_failure_not_cached {A V S : Type} (key_of : A -> pystr)
  (ttl_seconds : Q) (maxsize : Z) (func : A -> S -> result V * S)
  (args : A) (now : Q) (cache : @dict V) (s s' : S) (e : exn) :
  stale key_of ttl_seconds args now cache ->
  func args s = (Raise e, s') ->
  wrapper key_of ttl_seconds maxsize func args now cache s
  = (Raise e, dict_del (key_of args) cache, s')
  /\ dict_get (key_of args) (dict_del (key_of args) cache) = None
  /\ (forall k, k <> key_of args ->
        dict_get k (dict_del (key_of args) cache) = dict_get k cache)
  /\ forall (now' : Q) (s2 : S),
       snd (wrapper key_of ttl_seconds maxsize func args now'
                    (dict_del (key_of args) cache) s2)
       = snd (func args s2).
Proof.
  intros Hst Hf.
  assert (Hnone : dict_get (key_of args) (dict_del (key_of args) cache)
                  = None).
  { apply dict_get_none. rewrite keys_dict_del. tauto. }
  split; [|split; [|split]].
  - rewrite (wrapper_stale _ _ _ _ _ _ _ _ Hst). cbn zeta. now rewrite Hf.
  - exact Hnone.
  - intros k Hk. now apply dict_get_del_other.
  - intros now' s2.
    rewrite (wrapper_stale key_of ttl_seconds maxsize func args now'
               (dict_del (key_of args) cache) s2 (or_introl Hnone)).
    cbn zeta. destruct (func args s2) as [[v|e2] s3]; [|reflexivity].
    destruct (len _ >=? maxsize); [|reflexivity].
    destruct (oldest_key _); reflexivity.
Qed.

Lemma memoize_failure_not_cached_witness :
  wrapper unit_key 300 1
          (fun (_ : unit) (s : nat) =>
             (@Raise Z (RuntimeError "boom"), Datatypes.S s))
          tt 400 [(unit_key tt, (0%Q, 7))] 0%nat
  = (Raise (RuntimeError "boom"),
     dict_del (unit_key tt) [(unit_key tt, (0%Q, 7))], 1%nat).
Proof.
  apply (memoize_failure_not_cached unit_key 300 1
           (fun (_ : unit) (s : nat) =>
              (@Raise Z (RuntimeError "boom"), Datatypes.S s))
           tt 400 [(unit_key tt, (0%Q, 7))] 0%nat 1%nat
           (RuntimeError "boom")).
  - right. exists 0%Q, 7. split; [reflexivity|]. intros Hlt.
    discriminate Hlt.
  - reflexivity.
Defined.

(** X14: with [ttl_seconds <= 0] nothing is ever served from the cache: when
    no entry carries a timestamp later than the clock reading of the call,
    the wrapper invokes the function at every call and, for [maxsize >= 1],
    returns what the function returns. *)
Theorem memoize_zero_ttl_always_calls {A V S : Type} (key_of : A -> pystr)
  (ttl_seconds : Q) (maxsize : Z) (func : A -> S -> result V * S)
  (args : A) (now : Q) (cache : @dict V) (s : S) :
  (ttl_seconds <= 0)%Q ->
  1 <= maxsize ->
  (forall k ts v, (k, (ts, v)) ∈ cache -> (ts <= now)%Q) ->
  fst (fst (wrapper key_of ttl_seconds maxsize func args now cache s))
  = fst (func args s)
  /\ snd (wrapper key_of ttl_seconds maxsize func args now cache s)
     = snd (func args s).
Proof.
  intros Httl Hmax Hclock.
  assert (Hst : stale key_of ttl_seconds args now cache).
  { destruct (dict_get (key_of args) cache) as [[ts v]|] eqn:Hg;
      [|left; exact Hg].
    right. exists ts, v. split; [exact Hg|]. intros Hlt.
    apply dict_get_elem in Hg. apply Hclock in Hg.
    assert (H0 : (now - ts < 0)%Q) by (eapply Qlt_le_trans; eauto).
    apply (Qplus_lt_l _ _ ts) in H0. ring_simplify in H0.
    exact (Qlt_not_le _ _ H0 Hg). }
  rewrite (wrapper_stale _ _ _ _ _ _ _ _ Hst). cbn zeta.
  destruct (func args s) as [[v|e] s']; [|now split].
  destruct (Z.geb_spec (len (dict_del (key_of args) cache)) maxsize)
    as [Hge|Hlt]; [|now split].
  assert (Hne : dict_del (key_of args) cache <> []).
  { intros E. rewrite E in Hge. unfold len in Hge. simpl in Hge. lia. }
  destruct (oldest_key_spec _ Hne) as (k & ts & val & -> & _).
  now split.
Qed.

Lemma memoize_zero_ttl_always_calls_witness :
  fst (fst (wrapper unit_key 0 1 counting_func tt 5
                    [(unit_key tt, (5%Q, 3))] 0%nat))
  = fst (counting_func tt 0%nat)
  /\ snd (wrapper unit_key 0 1 counting_func tt 5
                  [(unit_key tt, (5%Q, 3))] 0%nat)
     = snd (counting_func tt 0%nat).
Proof.
  apply (memoize_zero_ttl_always_calls unit_key 0 1 counting_func tt 5
           [(unit_key tt, (5%Q, 3))] 0%nat).
  - discriminate.
  - lia.
  - intros k ts v Hin. apply list_elem_of_singleton in Hin.
    inversion Hin; subst. discriminate.
Defined.

End MemoizeFacts.

(** ** Response cache and cached client: hits, statistics and the round
    trip through the client *)

Module CacheFacts.
Import LLMCache CacheSpec PyFacts.

Implicit Types (r x y : row) (rows l : list row) (h : pystr).

(** The row after [hit_count = hit_count + 1]. *)
Local Abbreviation bumped r :=
  (mkRow (prompt_hash r) (prompt r) (model r) (temperature r) (response r)
         (created_at r) (hit_count r + 1)).

Lemma select_bump_same h rows :
  select_by_hash h (bump_hit_count h rows)
  = option_map (fun r => bumped r) (select_by_hash h rows).
Proof.
  unfold select_by_hash, bump_hit_count.
  induction rows as [|x rows IH]; simpl; [reflexivity|].
  destruct (has_hash h x) eqn:E.
  - assert (E' : has_hash h (bumped x) = true) by exact E.
    rewrite E'. reflexivity.
  - rewrite E. exact IH.
Qed.

Lemma select_bump_other h h' rows :
  h' <> h ->
  select_by_hash h' (bump_hit_count h rows) = select_by_hash h' rows.
Proof.
  intros Hne. unfold select_by_hash, bump_hit_count.
  induction rows as [|x rows IH]; simpl; [reflexivity|].
  destruct (has_hash h x) eqn:E.
  - apply has_hash_true in E.
    assert (E1 : has_hash h' (bumped x) = false).
    { unfold has_hash. apply bool_decide_eq_false_2. simpl. congruence. }
    assert (E2 : has_hash h' x = false).
    { unfold has_hash. apply bool_decide_eq_false_2. congruence. }
    rewrite E1, E2. exact IH.
  - destruct (has_hash h' x); [reflexivity | exact IH].
Qed.

Lemma bump_absent h rows :
  h ∉ map prompt_hash rows -> bump_hit_count h rows = rows.
Proof.
  unfold bump_hit_count. induction rows as [|x rows IH]; simpl;
    [reflexivity|].
  rewrite not_elem_of_cons. intros [Hne Hn].
  destruct (has_hash h x) eqn:E.
  - apply has_hash_true in E. congruence.
  - now rewrite IH.
Qed.

Lemma sum_bump h rows r :
  keys_unique rows ->
  select_by_hash h rows = Some r ->
  sum_hit_count (bump_hit_count h rows) = sum_hit_count rows + 1.
Proof.
  unfold keys_unique, select_by_hash.
  induction rows as [|x rows IH]; [discriminate|].
  cbn [map find]. rewrite NoDup_cons. intros [Hx Hnd] Hsel.
  change (bump_hit_count h (x :: rows))
    with ((if has_hash h x then bumped x else x) :: bump_hit_count h rows).
  destruct (has_hash h x) eqn:E.
  - apply has_hash_true in E. subst h.
    rewrite bump_absent by exact Hx.
    unfold sum_hit_count. cbn [map fold_right hit_count]. lia.
  - specialize (IH Hnd Hsel). unfold sum_hit_count in *.
    cbn [map fold_right]. lia.
Qed.

Lemma select_elem h rows r :
  select_by_hash h rows = Some r -> r ∈ rows /\ prompt_hash r = h.
Proof.
  unfold select_by_hash. intros Hf. apply find_some in Hf as [Hin Hh].
  split; [now apply list_elem_of_In | now apply has_hash_true].
Qed.

Section WithHash.
Context {H : Hashlib} {F : FloatFormat}.

(** The response a hit builds from a row. *)
Local Abbreviation served r model temperature :=
  (LlmAsync.mkResponse (response r) model temperature 0 0 0 true).

Lemma get_hit (self : t) (now : Q) (prompt model : pystr) (temperature : Q)
  h r :
  _conn self = true ->
  _hash_prompt prompt model temperature = Ok h ->
  select_by_hash h (table self) = Some r ->
  ~ (inject_Z (max_age_hours self) < (now - created_at r) / 3600)%Q ->
  get self now prompt model temperature
  = (Ok (Some (served r model temperature)),
     set_table self (bump_hit_count h (table self))).
Proof.
  intros Hconn Hh Hsel Hage. unfold get. rewrite Hconn, Hh, Hsel.
  cbn [negb].
  destruct (Qltb (inject_Z (max_age_hours self))
                 ((now - created_at r) / 3600)) eqn:E; [|reflexivity].
  apply Qltb_lt in E. contradiction.
Qed.

(** What [get] leaves behind when it reports nothing. *)
Lemma get_miss_state (self : t) (now : Q) (prompt model : pystr)
  (temperature : Q) :
  fst (get self now prompt model temperature) = Ok None ->
  _conn (snd (get self now prompt model temperature)) = _conn self
  /\ max_entries (snd (get self now prompt model temperature))
     = max_entries self
  /\ max_age_hours (snd (get self now prompt model temperature))
     = max_age_hours self
  /\ forall x, x ∈ table (snd (get self now prompt model temperature)) ->
               x ∈ table self.
Proof.
  unfold get. destruct (_conn self) eqn:Hc; cbn [negb]; [|now auto].
  destruct (_hash_prompt prompt model temperature) as [h|e];
    [|discriminate].
  destruct (select_by_hash h (table self)) as [r|]; [|now auto].
  destruct (Qltb _ _); [|discriminate].
  intros _. cbn [fst snd set_table _conn max_entries max_age_hours table].
  repeat split; try assumption.
  intros x Hx. apply elem_of_delete_by_hash in Hx. tauto.
Qed.

(** A lookup adds no row. *)
Lemma get_len (self : t) (now : Q) (prompt model : pystr) (temperature : Q) :
  len (table (snd (get self now prompt model temperature)))
  <= len (table self).
Proof.
  unfold get. destruct (_conn self); cbn [negb]; [|cbn; lia].
  destruct (_hash_prompt prompt model temperature) as [h|e]; [|cbn; lia].
  destruct (select_by_hash h (table self)) as [r|]; [|cbn; lia].
  destruct (Qltb _ _); cbn [snd table set_table].
  - unfold delete_by_hash, len. apply inj_le, List.filter_length_le.
  - unfold bump_hit_count, len. rewrite length_map. lia.
Qed.

End WithHash.

(** X15: a hit counts once.  On an open cache with a unique key per row, a
    lookup that finds a row not older than [max_age_hours] returns the
    stored response marked as cached, adds one to the hit count of that
    row and changes no other row: the statistics show the same number of
    entries and one more hit. *)
Theorem get_hit_counts {H : Hashlib} {F : FloatFormat} (self : t) (now : Q)
  (prompt model : pystr) (temperature : Q) (h : pystr) (r : row) :
  _conn self = true ->
  keys_unique (table self) ->
  _hash_prompt prompt model temperature = Ok h ->
  select_by_hash h (table self) = Some r ->
  ~ (inject_Z (max_age_hours self) < (now - created_at r) / 3600)%Q ->
  fst (get self now prompt model temperature)
  = Ok (Some (LlmAsync.mkResponse (response r) model temperature 0 0 0 true))
  /\ select_by_hash h
       (table (snd (get self now prompt model temperature)))
     = Some (mkRow (prompt_hash r) (LLMCache.prompt r) (LLMCache.model r)
                   (LLMCache.temperature r) (response r) (created_at r)
                   (hit_count r + 1))
  /\ (forall h', h' <> h ->
        select_by_hash h'
          (table (snd (get self now prompt model temperature)))
        = select_by_hash h' (table self))
  /\ match stats self,
           stats (snd (get self now prompt model temperature)) with
     | Stats entries total _, Stats entries' total' _ =>
         entries' = entries /\ total' = total + 1
     | _, _ => False
     end.
Proof.
  intros Hconn Hu Hh Hsel Hage.
  rewrite (get_hit self now prompt model temperature h r Hconn Hh Hsel Hage).
  cbn [fst snd table set_table]. split; [reflexivity|]. split; [|split].
  - rewrite select_bump_same, Hsel. reflexivity.
  - intros h' Hne. now apply select_bump_other.
  - unfold stats. cbn [_conn set_table table]. rewrite Hconn. cbn [negb].
    split.
    + unfold len, bump_hit_count. now rewrite length_map.
    + now apply (sum_bump h (table self) r).
Qed.

Lemma get_hit_counts_witness :
  fst (get (H := toy_hashlib) (F := toy_format)
           (mk 24 10 true [mkRow (lit "m::p") (lit "p") (lit "m") 0
                                 (lit "answer") 0 2])
           3600 (lit "p") (lit "m") 0)
  = Ok (Some (LlmAsync.mkResponse (lit "answer") (lit "m") 0 0 0 0 true)).
Proof.
  apply (get_hit_counts (H := toy_hashlib) (F := toy_format)
           (mk 24 10 true [mkRow (lit "m::p") (lit "p") (lit "m") 0
                                 (lit "answer") 0 2])
           3600 (lit "p") (lit "m") 0 (lit "m::p")
           (mkRow (lit "m::p") (lit "p") (lit "m") 0 (lit "answer") 0 2)).
  - reflexivity.
  - apply NoDup_singleton.
  - reflexivity.
  - reflexivity.
  - intros Hlt. discriminate Hlt.
Defined.

(** X16: a lookup never serves an entry older than [max_age_hours], and never
    anything on a closed cache: whenever [get] returns a response, the
    connection is open, the content is that of a stored row under the key
    of the call whose age is at most [max_age_hours], the response is
    marked as cached, carries no token counts and no latency, and its model
    and temperature are those of the call. *)
Theorem get_serves_only_fresh {H : Hashlib} {F : FloatFormat} (self : t)
  (now : Q) (prompt model : pystr) (temperature : Q)
  (resp : LlmAsync.AsyncLLMResponse) :
  fst (get self now prompt model temperature) = Ok (Some resp) ->
  _conn self = true
  /\ exists h r,
       _hash_prompt prompt model temperature = Ok h
       /\ r ∈ table self /\ prompt_hash r = h
       /\ ((now - created_at r) / 3600 <= inject_Z (max_age_hours self))%Q
       /\ resp = LlmAsync.mkResponse (response r) model temperature 0 0 0
                                     true.
Proof.
  unfold get. destruct (_conn self) eqn:Hc; cbn [negb]; [|discriminate].
  destruct (_hash_prompt prompt model temperature) as [h|e];
    [|discriminate].
  destruct (select_by_hash h (table self)) as [r|] eqn:Hsel;
    [|discriminate].
  destruct (Qltb (inject_Z (max_age_hours self))
                 ((now - created_at r) / 3600)) eqn:E; [discriminate|].
  cbn [fst]. intros Hr. inversion Hr; subst resp. split; [reflexivity|].
  exists h, r. destruct (select_elem h (table self) r Hsel) as [Hin Hk].
  split; [reflexivity|]. split; [exact Hin|]. split; [exact Hk|].
  split; [|reflexivity].
  apply Qnot_lt_le. intros Hlt. apply Qltb_lt in Hlt. congruence.
Qed.

Lemma get_serves_only_fresh_witness :
  _conn (mk 24 10 true [mkRow (lit "m::p") (lit "p") (lit "m") 0
                              (lit "answer") 0 2]) = true
  /\ exists h r,
       _hash_prompt (H := toy_hashlib) (F := toy_format) (lit "p") (lit "m") 0
       = Ok h
       /\ r ∈ table (mk 24 10 true [mkRow (lit "m::p") (lit "p") (lit "m") 0
                                          (lit "answer") 0 2])
       /\ prompt_hash r = h
       /\ ((3600 - created_at r) / 3600 <= inject_Z 24)%Q
       /\ LlmAsync.mkResponse (lit "answer") (lit "m") 0 0 0 0 true
          = LlmAsync.mkResponse (response r) (lit "m") 0 0 0 0 true.
Proof.
  apply (get_serves_only_fresh (H := toy_hashlib) (F := toy_format)
           (mk 24 10 true [mkRow (lit "m::p") (lit "p") (lit "m") 0
                                 (lit "answer") 0 2])
           3600 (lit "p") (lit "m") 0
           (LlmAsync.mkResponse (lit "answer") (lit "m") 0 0 0 0 true)).
  reflexivity.
Defined.

End CacheFacts.

Module CachedClientFacts.
Import LlmAsync CachedClient CacheSpec CacheFacts PyFacts.

Lemma async_response_fields (e : env) (n : net) (prompt : pystr)
  (temperature : Q) (model : pystr) (system_prompt : option pystr)
  (timeout : Q) (resp : AsyncLLMResponse) :
  call_deepseek_async e n prompt temperature model system_prompt timeout
  = Ok resp ->
  cached resp = false /\ LlmAsync.model resp = model
  /\ LlmAsync.temperature resp = temperature.
Proof.
  unfold call_deepseek_async.
  destruct (HTTPX_AVAILABLE e); cbn [negb]; [|discriminate].
  destruct (no_api_key e).
  - intros E. inversion E. auto.
  - cbn zeta. destruct (post n _) as [ex|r]; [discriminate|].
    destruct (raise_for_status r) as [[]|ex]; cbn [bind]; [|discriminate].
    destruct (json r) as [data|ex]; cbn [bind]; [|discriminate].
    destruct (first_choice_content data) as [c|ex]; cbn [bind];
      [|discriminate].
    intros E. inversion E. auto.
Qed.

Section WithHash.
Context {H : Hashlib} {F : FloatFormat}.

(** A miss followed by an answered API call stores the answer, and a later
    lookup within [max_age_hours] finds it. *)
Lemma miss_then_stored (e : env) (n : net) (t_get t_set t_cleanup t_get2 : Q)
  (prompt : pystr) (temperature : Q) (model : pystr)
  (system_prompt : option pystr) (cache : LLMCache.t) (h : pystr)
  (resp : AsyncLLMResponse) (b : bytes) :
  LLMCache._conn cache = true ->
  1 <= LLMCache.max_entries cache ->
  Z.abs (LLMCache.max_age_hours cache * 3600) <= 2 ^ 53 ->
  len (LLMCache.table cache) < LLMCache.SQLITE_INT_MAX ->
  LLMCache._hash_prompt prompt model temperature = Ok h ->
  utf8_encode (content resp) = Ok b ->
  (forall x, x ∈ LLMCache.table cache ->
             (LLMCache.created_at x <= t_set)%Q) ->
  ~ (t_set < t_cleanup
             - inject_Z (LLMCache.max_age_hours cache * 3600))%Q ->
  ~ (inject_Z (LLMCache.max_age_hours cache) < (t_get2 - t_set) / 3600)%Q ->
  fst (LLMCache.get cache t_get prompt model temperature) = Ok None ->
  call_deepseek_async e n prompt temperature model system_prompt
                      DEFAULT_TIMEOUT = Ok resp ->
  exists cache1,
    call_deepseek_cached e n t_get t_set t_cleanup prompt temperature model
                         system_prompt true cache
    = (Ok resp, cache1)
    /\ forall (e' : env) (n' : net) (t_set' t_cleanup' : Q)
         (system_prompt' : option pystr),
         fst (call_deepseek_cached e' n' t_get2 t_set' t_cleanup' prompt
                temperature model system_prompt' true cache1)
         = Ok (mkResponse (content resp) model temperature 0 0 0 true).
Proof.
  intros Hconn Hmax Hbits Hsize Hh Hb Hclock Hlive Hage Hmiss Hasync.
  destruct (get_miss_state cache t_get prompt model temperature Hmiss)
    as (Hc1 & Hm1 & Ha1 & Hsub).
  pose proof (get_len cache t_get prompt model temperature) as Hlen.
  destruct (async_response_fields _ _ _ _ _ _ _ _ Hasync) as (Hnc & _ & _).
  unfold call_deepseek_cached at 1.
  destruct (LLMCache.get cache t_get prompt model temperature)
    as [looked c1] eqn:Hget.
  cbn [fst snd] in *. subst looked. rewrite Hasync, Hnc. cbn [andb negb].
  destruct (set_keeps_new_row c1 t_set t_cleanup
              (t_cleanup - inject_Z (LLMCache.max_age_hours c1 * 3600))
              prompt model temperature (content resp) h b)
    as (others & Hset & Hothers).
  { congruence. }
  { lia. }
  { apply cutoff_exact. now rewrite Ha1. }
  { lia. }
  { exact Hh. }
  { exact Hb. }
  { intros x Hx. apply Hclock, Hsub, Hx. }
  { rewrite Ha1. exact Hlive. }
  rewrite Hset. eexists. split; [reflexivity|].
  intros e' n' t_set' t_cleanup' system_prompt'.
  unfold call_deepseek_cached.
  rewrite (get_hit _ t_get2 prompt model temperature h
             (LLMCache.mkRow h (slice_to 1000 prompt) model temperature
                             (content resp) t_set 0)).
  - reflexivity.
  - cbn. congruence.
  - exact Hh.
  - cbn [LLMCache.table LLMCache.set_table].
    apply select_by_hash_last; [reflexivity | exact Hothers].
  - cbn. rewrite Ha1. exact Hage.
Qed.

(** When the response content cannot be encoded, [set] raises and the
    error leaves the cached client; nothing is stored. *)
Lemma unencodable_answer_raises (e : env) (n : net)
  (t_get t_set t_cleanup : Q) (prompt : pystr) (temperature : Q)
  (model : pystr) (system_prompt : option pystr) (cache : LLMCache.t)
  (h : pystr) (resp : AsyncLLMResponse) (ex : exn) :
  LLMCache._conn cache = true ->
  LLMCache._hash_prompt prompt model temperature = Ok h ->
  utf8_encode (content resp) = Raise ex ->
  fst (LLMCache.get cache t_get prompt model temperature) = Ok None ->
  call_deepseek_async e n prompt temperature model system_prompt
                      DEFAULT_TIMEOUT = Ok resp ->
  call_deepseek_cached e n t_get t_set t_cleanup prompt temperature model
                       system_prompt true cache
  = (Raise ex, snd (LLMCache.get cache t_get prompt model temperature)).
Proof.
  intros Hconn Hh Hb Hmiss Hasync.
  destruct (get_miss_state cache t_get prompt model temperature Hmiss)
    as (Hc1 & _).
  destruct (async_response_fields _ _ _ _ _ _ _ _ Hasync) as (Hnc & _ & _).
  unfold call_deepseek_cached.
  destruct (LLMCache.get cache t_get prompt model temperature)
    as [looked c1] eqn:Hget.
  cbn [fst snd] in *. subst looked. rewrite Hasync, Hnc. cbn [andb negb].
  unfold LLMCache.set. rewrite Hc1, Hconn, Hh, Hb. reflexivity.
Qed.

End WithHash.

(** X17: a stored answer is served without the network.  On an open cache, a
    call with caching whose key holds a row not older than [max_age_hours]
    returns the stored content marked as cached whatever the environment
    and the network are (no client library, no credential, a failing
    transport), and whatever the system prompt is; the hit count of the row
    is the only thing that changes. *)
Theorem cached_hit_skips_network {H : Hashlib} {F : FloatFormat}
  (e : env) (n : net) (t_get t_set t_cleanup : Q) (prompt : pystr)
  (temperature : Q) (model : pystr) (system_prompt : option pystr)
  (cache : LLMCache.t) (h : pystr) (r : LLMCache.row) :
  LLMCache._conn cache = true ->
  LLMCache._hash_prompt prompt model temperature = Ok h ->
  LLMCache.select_by_hash h (LLMCache.table cache) = Some r ->
  ~ (inject_Z (LLMCache.max_age_hours cache)
     < (t_get - LLMCache.created_at r) / 3600)%Q ->
  call_deepseek_cached e n t_get t_set t_cleanup prompt temperature model
                       system_prompt true cache
  = (Ok (mkResponse (LLMCache.response r) model temperature 0 0 0 true),
     LLMCache.set_table cache
       (LLMCache.bump_hit_count h (LLMCache.table cache))).
Proof.
  intros Hconn Hh Hsel Hage. unfold call_deepseek_cached.
  rewrite (get_hit cache t_get prompt model temperature h r Hconn Hh Hsel
             Hage).
  reflexivity.
Qed.

Lemma cached_hit_skips_network_witness :
  call_deepseek_cached (H := toy_hashlib) (F := toy_format)
    (mkEnv false None)
    (mkNet (fun _ => PostRaises (HTTPError "unreachable")) 0 0)
    3600 3600 3600 (lit "p") 0 (lit "m") None true
    (LLMCache.mk 24 10 true
       [LLMCache.mkRow (lit "m::p") (lit "p") (lit "m") 0 (lit "answer") 0 2])
  = (Ok (mkResponse (lit "answer") (lit "m") 0 0 0 0 true),
     LLMCache.set_table
       (LLMCache.mk 24 10 true
          [LLMCache.mkRow (lit "m::p") (lit "p") (lit "m") 0 (lit "answer")
                          0 2])
       (LLMCache.bump_hit_count (lit "m::p")
          [LLMCache.mkRow (lit "m::p") (lit "p") (lit "m") 0 (lit "answer")
                          0 2])).
Proof.
  apply (cached_hit_skips_network (H := toy_hashlib) (F := toy_format)
           (mkEnv false None)
           (mkNet (fun _ => PostRaises (HTTPError "unreachable")) 0 0)
           3600 3600 3600 (lit "p") 0 (lit "m") None
           (LLMCache.mk 24 10 true
              [LLMCache.mkRow (lit "m::p") (lit "p") (lit "m") 0
                              (lit "answer") 0 2])
           (lit "m::p")
           (LLMCache.mkRow (lit "m::p") (lit "p") (lit "m") 0 (lit "answer")
                           0 2)).
  - reflexivity.
  - reflexivity.
  - reflexivity.
  - intros Hlt. discriminate Hlt.
Defined.

(** X18: the round trip through the client.  On a cache with an open
    connection, [max_entries >= 1], a [max_age_hours] whose number of
    seconds has at most 53 bits and fewer than [2^63 - 1] rows, for a key
    that UTF-8 can encode, when the lookup misses, the API call is answered
    with a content that UTF-8 can encode, no stored entry is more recent
    than the clock reading of [set] and the new entry has not expired at
    the janitor pass: the call returns the answer (not marked as cached)
    and stores its content; a later call with the same prompt, model and
    temperature, made before the entry is older than [max_age_hours],
    returns that content marked as cached, with no token counts, whatever
    the environment, the network and the system prompt of the later call
    are: the system prompt is not part of the key.  When the content cannot
    be encoded, the call raises the encoding error and stores nothing. *)
Theorem cached_miss_then_hit {H : Hashlib} {F : FloatFormat}
  (e : env) (n : net) (t_get t_set t_cleanup t_get2 : Q)
  (prompt : pystr) (temperature : Q) (model : pystr)
  (system_prompt : option pystr) (cache : LLMCache.t) (h : pystr)
  (resp : AsyncLLMResponse) :
  LLMCache._conn cache = true ->
  1 <= LLMCache.max_entries cache ->
  Z.abs (LLMCache.max_age_hours cache * 3600) <= 2 ^ 53 ->
  len (LLMCache.table cache) < LLMCache.SQLITE_INT_MAX ->
  LLMCache._hash_prompt prompt model temperature = Ok h ->
  (forall x, x ∈ LLMCache.table cache ->
             (LLMCache.created_at x <= t_set)%Q) ->
  ~ (t_set < t_cleanup
             - inject_Z (LLMCache.max_age_hours cache * 3600))%Q ->
  ~ (inject_Z (LLMCache.max_age_hours cache) < (t_get2 - t_set) / 3600)%Q ->
  fst (LLMCache.get cache t_get prompt model temperature) = Ok None ->
  call_deepseek_async e n prompt temperature model system_prompt
                      DEFAULT_TIMEOUT = Ok resp ->
  cached resp = false
  /\ (forall b : bytes,
        utf8_encode (content resp) = Ok b ->
        exists cache1,
          call_deepseek_cached e n t_get t_set t_cleanup prompt temperature
                               model system_prompt true cache
          = (Ok resp, cache1)
          /\ forall (e' : env) (n' : net) (t_set' t_cleanup' : Q)
               (system_prompt' : option pystr),
               fst (call_deepseek_cached e' n' t_get2 t_set' t_cleanup'
                      prompt temperature model system_prompt' true cache1)
               = Ok (mkResponse (content resp) model temperature 0 0 0 true))
  /\ (forall ex : exn,
        utf8_encode (content resp) = Raise ex ->
        call_deepseek_cached e n t_get t_set t_cleanup prompt temperature
                             model system_prompt true cache
        = (Raise ex,
           snd (LLMCache.get cache t_get prompt model temperature))).
Proof.
  intros Hconn Hmax Hbits Hsize Hh Hclock Hlive Hage Hmiss Hasync.
  split; [|split].
  - now destruct (async_response_fields _ _ _ _ _ _ _ _ Hasync).
  - intros b Hb.
    now apply (miss_then_stored e n t_get t_set t_cleanup t_get2 prompt
                 temperature model system_prompt cache h resp b).
  - intros ex Hb.
    now apply (unencodable_answer_raises e n t_get t_set t_cleanup prompt
                 temperature model system_prompt cache h resp ex).
Qed.

(** An answer [{}] is stored and served a minute later; an answer that
    holds a lone surrogate makes the call raise. *)
Lemma cached_miss_then_hit_witness :
  (exists cache1,
     call_deepseek_cached (H := toy_hashlib) (F := toy_format)
       (mkEnv true (Some (lit "key"))) (second_fails 0) 0 0 0 (lit "p") 0
       (lit "m") None true (LLMCache.init 24 10)
     = (Ok (mkResponse (lit "{}") (lit "m") 0 10 20 1000 false), cache1)
     /\ forall (e' : env) (n' : net) (t_set' t_cleanup' : Q)
          (system_prompt' : option pystr),
          fst (call_deepseek_cached (H := toy_hashlib) (F := toy_format)
                 e' n' 60 t_set' t_cleanup' (lit "p") 0 (lit "m")
                 system_prompt' true cache1)
          = Ok (mkResponse (lit "{}") (lit "m") 0 0 0 0 true))
  /\ call_deepseek_cached (H := toy_hashlib) (F := toy_format)
       (mkEnv true (Some (lit "key")))
       (mkNet (fun _ => ok_reply [0xD800]) 0 1) 0 0 0 (lit "p") 0
       (lit "m") None true (LLMCache.init 24 10)
     = (Raise UnicodeEncodeError, LLMCache.init 24 10).
Proof.
  split.
  - destruct (cached_miss_then_hit (H := toy_hashlib) (F := toy_format)
                (mkEnv true (Some (lit "key"))) (second_fails 0) 0 0 0 60
                (lit "p") 0 (lit "m") None (LLMCache.init 24 10) (lit "m::p")
                (mkResponse (lit "{}") (lit "m") 0 10 20 1000 false))
      as (_ & Hstored & _).
    + reflexivity.
    + simpl. lia.
    + simpl. lia.
    + reflexivity.
    + reflexivity.
    + intros x Hx. inversion Hx.
    + intros Hlt. discriminate Hlt.
    + intros Hlt. discriminate Hlt.
    + reflexivity.
    + reflexivity.
    + apply (Hstored (lit "{}")). reflexivity.
  - destruct (cached_miss_then_hit (H := toy_hashlib) (F := toy_format)
                (mkEnv true (Some (lit "key")))
                (mkNet (fun _ => ok_reply [0xD800]) 0 1) 0 0 0 60
                (lit "p") 0 (lit "m") None (LLMCache.init 24 10) (lit "m::p")
                (mkResponse [0xD800] (lit "m") 0 10 20 1000 false))
      as (_ & _ & Hraise).
    + reflexivity.
    + simpl. lia.
    + simpl. lia.
    + reflexivity.
    + reflexivity.
    + intros x Hx. inversion Hx.
    + intros Hlt. discriminate Hlt.
    + intros Hlt. discriminate Hlt.
    + reflexivity.
    + reflexivity.
    + apply (Hraise UnicodeEncodeError). reflexivity.
Defined.

(** X19: the placeholder is cached like an answer.  Without a credential and
    with the client library present, on a cache with an open connection,
    [max_entries >= 1], a [max_age_hours] whose number of seconds has at
    most 53 bits and fewer than [2^63 - 1] rows, for a key that UTF-8 can
    encode, when the lookup misses, no stored entry is more recent than the
    clock reading of [set] and the new entry has not expired at the janitor
    pass: a call with caching returns the mock content and stores it, and a
    later call with the same prompt, model and temperature, made before the
    entry is older than [max_age_hours], gets the mock content back, marked
    as cached, even from an environment that has a credential and a working
    network. *)
Theorem mock_response_is_cached {H : Hashlib} {F : FloatFormat}
  (e : env) (n : net) (t_get t_set t_cleanup t_get2 : Q)
  (prompt : pystr) (temperature : Q) (model : pystr)
  (system_prompt : option pystr) (cache : LLMCache.t) (h : pystr) :
  HTTPX_AVAILABLE e = true ->
  no_api_key e = true ->
  LLMCache._conn cache = true ->
  1 <= LLMCache.max_entries cache ->
  Z.abs (LLMCache.max_age_hours cache * 3600) <= 2 ^ 53 ->
  len (LLMCache.table cache) < LLMCache.SQLITE_INT_MAX ->
  LLMCache._hash_prompt prompt model temperature = Ok h ->
  (forall x, x ∈ LLMCache.table cache ->
             (LLMCache.created_at x <= t_set)%Q) ->
  ~ (t_set < t_cleanup
             - inject_Z (LLMCache.max_age_hours cache * 3600))%Q ->
  ~ (inject_Z (LLMCache.max_age_hours cache) < (t_get2 - t_set) / 3600)%Q ->
  fst (LLMCache.get cache t_get prompt model temperature) = Ok None ->
  exists cache1,
    call_deepseek_cached e n t_get t_set t_cleanup prompt temperature model
                         system_prompt true cache
    = (Ok (mkResponse mock_content model temperature 0 0 0 false), cache1)
    /\ forall (e' : env) (n' : net) (t_set' t_cleanup' : Q)
         (system_prompt' : option pystr),
         fst (call_deepseek_cached e' n' t_get2 t_set' t_cleanup' prompt
                temperature model system_prompt' true cache1)
         = Ok (mkResponse mock_content model temperature 0 0 0 true).
Proof.
  intros Hx Hk Hconn Hmax Hbits Hsize Hh Hclock Hlive Hage Hmiss.
  assert (Hb : exists b : bytes, utf8_encode mock_content = Ok b)
    by (eexists; vm_compute; reflexivity).
  destruct Hb as (b & Hb).
  apply (miss_then_stored e n t_get t_set t_cleanup t_get2 prompt
           temperature model system_prompt cache h
           (mkResponse mock_content model temperature 0 0 0 false) b);
    try assumption.
  unfold call_deepseek_async. rewrite Hx, Hk. reflexivity.
Qed.

(** The placeholder stored at 0 is served at 60 seconds to an environment
    with a credential. *)
Lemma mock_response_is_cached_witness :
  exists cache1,
    call_deepseek_cached (H := toy_hashlib) (F := toy_format)
      (mkEnv true None) (second_fails 1) 0 0 0 (lit "p") 0 (lit "m") None
      true (LLMCache.init 24 10)
    = (Ok (mkResponse mock_content (lit "m") 0 0 0 0 false), cache1)
    /\ forall (e' : env) (n' : net) (t_set' t_cleanup' : Q)
         (system_prompt' : option pystr),
         fst (call_deepseek_cached (H := toy_hashlib) (F := toy_format)
                e' n' 60 t_set' t_cleanup' (lit "p") 0 (lit "m")
                system_prompt' true cache1)
         = Ok (mkResponse mock_content (lit "m") 0 0 0 0 true).
Proof.
  apply (mock_response_is_cached (H := toy_hashlib) (F := toy_format)
           (mkEnv true None) (second_fails 1) 0 0 0 60 (lit "p") 0 (lit "m")
           None (LLMCache.init 24 10) (lit "m::p")).
  - reflexivity.
  - reflexivity.
  - reflexivity.
  - simpl. lia.
  - simpl. lia.
  - reflexivity.
  - reflexivity.
  - intros x Hx. inversion Hx.
  - intros Hlt. discriminate Hlt.
  - intros Hlt. discriminate Hlt.
  - reflexivity.
Defined.

(** X20: without a usable cache the cached client is the plain client.  With
    [use_cache] false, or on a cache whose connection is closed, the call
    returns what [call_deepseek_async] returns under the default timeout
    (a response that is not marked as cached, or its error) and leaves the
    cache object and its table as they are, whatever the table holds. *)
Theorem cached_call_without_cache {H : Hashlib} {F : FloatFormat}
  (e : env) (n : net) (t_get t_set t_cleanup : Q) (prompt : pystr)
  (temperature : Q) (model : pystr) (system_prompt : option pystr)
  (use_cache : bool) (cache : LLMCache.t) :
  use_cache = false \/ LLMCache._conn cache = false ->
  call_deepseek_cached e n t_get t_set t_cleanup prompt temperature model
                       system_prompt use_cache cache
  = (call_deepseek_async e n prompt temperature model system_prompt
                         DEFAULT_TIMEOUT, cache)
  /\ forall resp,
       fst (call_deepseek_cached e n t_get t_set t_cleanup prompt
              temperature model system_prompt use_cache cache) = Ok resp ->
       cached resp = false.
Proof.
  intros Hoff.
  assert (Heq : call_deepseek_cached e n t_get t_set t_cleanup prompt
                  temperature model system_prompt use_cache cache
                = (call_deepseek_async e n prompt temperature model
                     system_prompt DEFAULT_TIMEOUT, cache)).
  { unfold call_deepseek_cached.
    destruct use_cache.
    - destruct Hoff as [Hoff|Hoff]; [discriminate|].
      unfold LLMCache.get. rewrite Hoff. cbn [negb].
      destruct (call_deepseek_async e n prompt temperature model
                  system_prompt DEFAULT_TIMEOUT) as [resp|ex] eqn:Ha;
        [|reflexivity].
      destruct (async_response_fields _ _ _ _ _ _ _ _ Ha) as (-> & _).
      cbn [andb negb]. unfold LLMCache.set. rewrite Hoff. reflexivity.
    - destruct (call_deepseek_async e n prompt temperature model
                  system_prompt DEFAULT_TIMEOUT); reflexivity. }
  split; [exact Heq|]. rewrite Heq. cbn [fst]. intros resp Ha.
  now destruct (async_response_fields _ _ _ _ _ _ _ _ Ha).
Qed.

Lemma cached_call_without_cache_witness :
  call_deepseek_cached (H := toy_hashlib) (F := toy_format)
    (mkEnv true None) (second_fails 1) 0 0 0 (lit "p") 0 (lit "m") None
    true (LLMCache.close (LLMCache.init 24 10))
  = (call_deepseek_async (mkEnv true None) (second_fails 1) (lit "p") 0
       (lit "m") None DEFAULT_TIMEOUT,
     LLMCache.close (LLMCache.init 24 10))
  /\ forall resp,
       fst (call_deepseek_cached (H := toy_hashlib) (F := toy_format)
              (mkEnv true None) (second_fails 1) 0 0 0 (lit "p") 0 (lit "m")
              None true (LLMCache.close (LLMCache.init 24 10))) = Ok resp ->
       cached resp = false.
Proof.
  apply (cached_call_without_cache (H := toy_hashlib) (F := toy_format)
           (mkEnv true None) (second_fails 1) 0 0 0 (lit "p") 0 (lit "m")
           None true (LLMCache.close (LLMCache.init 24 10))).
  right. reflexivity.
Defined.

End CachedClientFacts.

(** ** Streaming client: what the generator yields *)

Module StreamingFacts.
Import LlmAsync LlmStreaming StringFacts PyFacts.

Section Stream.
Context {J : Type}.
Variable json_loads : pystr -> option J.
Variable delta_content : J -> result pystr.

Local Abbreviation consume := (LlmStreaming.consume json_loads delta_content).

Lemma consume_stops_at_done (pre post : list pystr) (ending : result unit) :
  consume (pre ++ lit "data: [DONE]" :: post) ending = consume pre (Ok tt).
Proof.
  induction pre as [|line pre IH]; [reflexivity|].
  cbn [app LlmStreaming.consume].
  destruct (prefixb (lit "data: ") line); [|exact IH].
  cbn zeta. case_bool_decide; [reflexivity|].
  destruct (json_loads (skipn 6 line)) as [data|]; [|exact IH].
  destruct (delta_content data) as [content|ex]; [|reflexivity].
  destruct (0 <? len content); [|exact IH]. now rewrite IH.
Qed.


End Stream.

(** X21: the stream ends at the line [data: [DONE]].  When the request is
    answered with a good status, nothing that comes after that line
    matters: not the lines that follow it, not the way the transport ends.
    The generator yields what the lines before it yield and ends
    normally, unless one of those lines made it raise. *)
Theorem stream_stops_at_done {J : Type} (json_loads : pystr -> option J)
  (delta_content : J -> result pystr) (e : env)
  (stream : request -> stream_exchange) (prompt : pystr) (temperature : Q)
  (model : pystr) (system_prompt : option pystr) (timeout : Q)
  (pre post : list pystr) (ending : result unit) :
  HTTPX_AVAILABLE e = true ->
  no_api_key e = false ->
  (forall req, stream req
               = Streaming (mkStreamReply (Ok tt)
                              (pre ++ lit "data: [DONE]" :: post) ending)) ->
  call_deepseek_streaming json_loads delta_content e stream prompt
                          temperature model system_prompt timeout
  = consume json_loads delta_content pre (Ok tt).
Proof.
  intros Hx Hk Hs. unfold call_deepseek_streaming. rewrite Hx, Hk.
  cbn [negb]. cbn zeta. rewrite Hs. cbn [stream_status stream_lines stream_end].
  apply consume_stops_at_done.
Qed.

Lemma stream_stops_at_done_witness :
  call_deepseek_streaming (fun s => Some s) (fun s => Ok s)
    (mkEnv true (Some (lit "key")))
    (fun _ => Streaming (mkStreamReply (Ok tt)
                ([lit "data: ab"] ++ lit "data: [DONE]" :: [lit "data: cd"])
                (Raise (HTTPError "reset"))))
    (lit "p") 0 (lit "m") None 120
  = consume (fun s => Some s) (fun s => Ok s) [lit "data: ab"] (Ok tt).
Proof.
  apply (stream_stops_at_done (fun s => Some s) (fun s => Ok s)
           (mkEnv true (Some (lit "key")))
           (fun _ => Streaming (mkStreamReply (Ok tt)
                       ([lit "data: ab"] ++ lit "data: [DONE]"
                                         :: [lit "data: cd"])
                       (Raise (HTTPError "reset"))))
           (lit "p") 0 (lit "m") None 120
           [lit "data: ab"] [lit "data: cd"] (Raise (HTTPError "reset"))).
  - reflexivity.
  - reflexivity.
  - intros req. reflexivity.
Defined.



(** X23: where no request is sent, the two clients agree.  Without the
    client library both raise the same [RuntimeError], and without a
    credential the stream consists of one chunk, the content of the
    response the plain client returns, whatever the network would do. *)
Theorem streaming_agrees_offline {J : Type} (json_loads : pystr -> option J)
  (delta_content : J -> result pystr) (e : env)
  (stream : request -> stream_exchange) (n : net) (prompt : pystr)
  (temperature : Q) (model : pystr) (system_prompt : option pystr)
  (timeout timeout' : Q) :
  HTTPX_AVAILABLE e = false \/ no_api_key e = true ->
  call_deepseek_streaming json_loads delta_content e stream prompt
                          temperature model system_prompt timeout
  = match call_deepseek_async e n prompt temperature model system_prompt
                              timeout' with
    | Ok response => ([content response], Ok tt)
    | Raise ex => ([], Raise ex)
    end.
Proof.
  intros Hoff. unfold call_deepseek_streaming, call_deepseek_async.
  destruct (HTTPX_AVAILABLE e); cbn [negb]; [|reflexivity].
  destruct Hoff as [Hoff|Hoff]; [discriminate|]. rewrite Hoff. reflexivity.
Qed.

Lemma streaming_agrees_offline_witness :
  call_deepseek_streaming (fun s => Some s) (fun s => Ok s)
    (mkEnv true None) (fun _ => StreamRaises (HTTPError "unreachable"))
    (lit "p") 0 (lit "m") None 120
  = match call_deepseek_async (mkEnv true None) (second_fails 1) (lit "p") 0
                              (lit "m") None 120 with
    | Ok response => ([content response], Ok tt)
    | Raise ex => ([], Raise ex)
    end.
Proof.
  apply (streaming_agrees_offline (fun s => Some s) (fun s => Ok s)
           (mkEnv true None) (fun _ => StreamRaises (HTTPError "unreachable"))
           (second_fails 1) (lit "p") 0 (lit "m") None 120 120).
  right. reflexivity.
Defined.

End StreamingFacts.

(** ** Patches generated in parallel *)

Module PatchesFacts.
Import LlmAsync ParallelSpec.

Section Patches.
Context {J : Type}.
Variable json_loads : pystr -> result J.

Local Abbreviation to_dict := (LlmAsync.to_dict json_loads).
Local Abbreviation patches_of := (LlmAsync.patches_of json_loads).

(** [pt] is the patch of the response [resp]. *)
Local Abbreviation patch_of resp pt :=
  (match resp with
   | Raise ex => pt = ErrorPatch ex
   | Ok r => to_dict r = Ok pt
   end).

Lemma patches_of_ok (responses : list (result AsyncLLMResponse)) :
  (forall (i : nat) (r : AsyncLLMResponse),
     responses !! i = Some (Ok r) -> exists pt, to_dict r = Ok pt) ->
  exists patches : list (patch J),
    patches_of responses = Ok patches
    /\ length patches = length responses
    /\ forall (i : nat) (resp : result AsyncLLMResponse),
         responses !! i = Some resp ->
         exists pt, patches !! i = Some pt /\ patch_of resp pt.
Proof.
  induction responses as [|resp rest IH]; intros Hok.
  - exists []. split; [reflexivity|]. split; [reflexivity|].
    intros i resp Hi. discriminate Hi.
  - destruct IH as (pts & Hpts & Hlen & Hnth).
    { intros i r Hi. apply (Hok (Datatypes.S i) r). exact Hi. }
    assert (Hhead : exists pt,
              match resp with
              | Raise ex => Ok (ErrorPatch ex)
              | Ok r => to_dict r
              end = Ok pt /\ patch_of resp pt).
    { destruct resp as [r|ex].
      - destruct (Hok 0%nat r eq_refl) as (pt & Hpt). exists pt. auto.
      - exists (ErrorPatch ex). split; reflexivity. }
    destruct Hhead as (pt & Hpt & Hof).
    exists (pt :: pts). cbn [LlmAsync.patches_of]. rewrite Hpt. cbn [bind].
    rewrite Hpts. cbn [bind]. split; [reflexivity|]. split.
    + simpl. now rewrite Hlen.
    + intros [|i] resp' Hi; simpl in Hi.
      * inversion Hi; subst. exists pt. auto.
      * now apply Hnth.
Qed.

Lemma patches_of_raises (responses : list (result AsyncLLMResponse))
  (i : nat) (r : AsyncLLMResponse) (ex : exn) :
  responses !! i = Some (Ok r) -> to_dict r = Raise ex ->
  exists ex', patches_of responses = Raise ex'.
Proof.
  revert i. induction responses as [|resp rest IH]; intros i Hi Hex;
    [discriminate Hi|].
  cbn [LlmAsync.patches_of]. destruct i as [|i]; simpl in Hi.
  - inversion Hi; subst. rewrite Hex. exists ex. reflexivity.
  - destruct (match resp with
              | Raise ex0 => Ok (ErrorPatch ex0)
              | Ok r0 => to_dict r0
              end) as [pt|ex0]; [|exists ex0; reflexivity].
    cbn [bind]. destruct (IH i Hi Hex) as (ex' & ->).
    exists ex'. reflexivity.
Qed.

End Patches.

(** X24: one patch per temperature, in the order of the temperatures.  When
    every call completes, and for response contents that are texts:  if
    [to_dict] returns for every response, [generate_patches_parallel]
    returns as many patches as temperatures (the three defaults when none
    are given, none for an empty list), and the [i]-th patch comes from the
    call at the [i]-th temperature under the default timeout: what
    [to_dict] makes of the response (the parsed content, or the
    invalid-JSON record when [json.loads] raises [JSONDecodeError]), or the
    error record when that call raised, which never affects the other
    patches.  If [json.loads] raises another error on the content of some
    response, that error is not caught: [generate_patches_parallel] raises
    and no patch is returned. *)
Theorem patches_per_temperature {J : Type} (json_loads : pystr -> result J)
  (e : env) (nets : nat -> net) (completion : list nat) (prompt : pystr)
  (temperatures : option (list Q)) (model : pystr)
  (system_prompt : option pystr) :
  (forall i : nat,
     (i < length (default [0%Q; double (2 # 10); double (4 # 10)]
                          temperatures))%nat ->
     i ∈ completion) ->
  ((forall (i : nat) (temp : Q) (r : AsyncLLMResponse),
      default [0%Q; double (2 # 10); double (4 # 10)] temperatures !! i
      = Some temp ->
      call_deepseek_async e (nets i) prompt temp model system_prompt
                          DEFAULT_TIMEOUT = Ok r ->
      exists pt, to_dict json_loads r = Ok pt) ->
   exists patches : list (patch J),
     generate_patches_parallel json_loads e nets completion prompt
                               temperatures model system_prompt
     = Some (Ok patches)
     /\ length patches
        = length (default [0%Q; double (2 # 10); double (4 # 10)]
                          temperatures)
     /\ forall (i : nat) (temp : Q),
          default [0%Q; double (2 # 10); double (4 # 10)] temperatures !! i
          = Some temp ->
          exists pt : patch J,
            patches !! i = Some pt
            /\ match call_deepseek_async e (nets i) prompt temp model
                                         system_prompt DEFAULT_TIMEOUT with
               | Raise ex => pt = ErrorPatch ex
               | Ok r =>
                   to_dict json_loads r = Ok pt
                   /\ pt = match json_loads (content r) with
                           | Ok v => Parsed v
                           | Raise _ => InvalidJson (content r)
                           end
               end)
  /\ (forall (i : nat) (temp : Q) (r : AsyncLLMResponse) (ex : exn),
        default [0%Q; double (2 # 10); double (4 # 10)] temperatures !! i
        = Some temp ->
        call_deepseek_async e (nets i) prompt temp model system_prompt
                            DEFAULT_TIMEOUT = Ok r ->
        to_dict json_loads r = Raise ex ->
        exists ex' : exn,
          generate_patches_parallel json_loads e nets completion prompt
                                    temperatures model system_prompt
          = Some (Raise ex')).
Proof.
  intros Hall. unfold generate_patches_parallel. cbn zeta.
  set (temps := default [0%Q; double (2 # 10); double (4 # 10)] temperatures)
    in *.
  rewrite call_parallel_complete by (rewrite length_map; exact Hall).
  cbn [option_map].
  set (responses := tasks e nets (map (fun temp => (prompt, temp)) temps)
                          model system_prompt DEFAULT_TIMEOUT).
  assert (Hresp : forall (i : nat) (temp : Q),
            temps !! i = Some temp ->
            responses !! i
            = Some (call_deepseek_async e (nets i) prompt temp model
                                        system_prompt DEFAULT_TIMEOUT)).
  { intros i temp Hi. unfold responses. rewrite tasks_lookup.
    change (map ?f ?l) with (f <$> l). rewrite list_lookup_fmap, Hi.
    reflexivity. }
  assert (Hlen : length responses = length temps).
  { unfold responses, tasks. rewrite length_imap. now rewrite length_map. }
  split.
  - intros Hok.
    destruct (patches_of_ok json_loads responses)
      as (patches & Hp & Hl & Hnth).
    { intros i r Hi.
      destruct (temps !! i) as [temp|] eqn:Ht.
      - rewrite (Hresp i temp Ht) in Hi. inversion Hi as [Hc].
        now apply (Hok i temp r).
      - apply lookup_ge_None in Ht. apply lookup_lt_Some in Hi. lia. }
    exists patches. split; [now rewrite Hp|]. split; [congruence|].
    intros i temp Hi.
    destruct (Hnth i _ (Hresp i temp Hi)) as (pt & Hpt & Hof).
    exists pt. split; [exact Hpt|].
    destruct (call_deepseek_async e (nets i) prompt temp model system_prompt
                DEFAULT_TIMEOUT) as [r|ex]; [|exact Hof].
    simpl in Hof. split; [exact Hof|].
    unfold to_dict in Hof.
    destruct (json_loads (content r)) as [v|[]]; inversion Hof; reflexivity.
  - intros i temp r ex Hi Hcall Hex.
    destruct (patches_of_raises json_loads responses i r ex) as (ex' & ->).
    + rewrite (Hresp i temp Hi), Hcall. reflexivity.
    + exact Hex.
    + exists ex'. reflexivity.
Qed.

(** Three calls that complete in the order 2, 0, 1, the second of which
    fails in transport: with a [json.loads] that parses everything, three
    patches; with one that raises [RecursionError], no patch. *)
Lemma patches_per_temperature_witness :
  generate_patches_parallel (fun s : pystr => Ok s)
    (mkEnv true (Some (lit "key"))) second_fails [2; 0; 1]%nat (lit "fix")
    None (lit "m") None
  = Some (Ok [Parsed (lit "{}"); ErrorPatch (HTTPError "503");
              Parsed (lit "{}")])
  /\ exists ex' : exn,
       generate_patches_parallel (fun _ : pystr => @Raise pystr RecursionError)
         (mkEnv true (Some (lit "key"))) second_fails [2; 0; 1]%nat
         (lit "fix") None (lit "m") None
       = Some (Raise ex').
Proof.
  split.
  - destruct (patches_per_temperature (fun s : pystr => Ok s)
                (mkEnv true (Some (lit "key"))) second_fails [2; 0; 1]%nat
                (lit "fix") None (lit "m") None) as [Hok _].
    + intros i Hi. simpl in Hi.
      destruct i as [|[|[|i]]]; [| | |lia]; repeat constructor.
    + destruct Hok as (patches & Hp & _).
      * intros i temp r _ _. eexists. reflexivity.
      * pose proof Hp as Hp2. rewrite Hp. vm_compute in Hp2.
        injection Hp2 as <-. vm_compute. reflexivity.
  - destruct (patches_per_temperature
                (fun _ : pystr => @Raise pystr RecursionError)
                (mkEnv true (Some (lit "key"))) second_fails [2; 0; 1]%nat
                (lit "fix") None (lit "m") None) as [_ Hraise].
    + intros i Hi. simpl in Hi.
      destruct i as [|[|[|i]]]; [| | |lia]; repeat constructor.
    + apply (Hraise 0%nat 0%Q
               (mkResponse (lit "{}") (lit "m") 0 10 20 1000 false)
               RecursionError); reflexivity.
Defined.

End PatchesFacts.

(** ** Batch processing *)

Module BatchFacts.
Import Batch.

Lemma fill_from {A B} (processor : A -> result B) (items : list A) :
  forall (filled : list (option B)) (outs : list B),
    Forall2 (fun item out => processor item = Ok out) items outs ->
    fill processor (imap (fun idx item => ((length filled + idx)%nat, item))
                         items)
         (filled ++ replicate (length items) None)
    = Ok (filled ++ map Some outs).
Proof.
  induction items as [|item items IH]; intros filled outs Hall.
  - inversion Hall; subst. reflexivity.
  - inversion Hall as [|? out ? outs' Hitem Hrest]; subst.
    cbn [imap fill length replicate]. rewrite Hitem.
    rewrite Nat.add_0_r.
    rewrite (insert_app_r_alt filled) by lia.
    rewrite Nat.sub_diag. cbn [insert list_insert].
    specialize (IH (filled ++ [Some out]) outs' Hrest).
    rewrite length_app in IH. cbn [length] in IH.
    rewrite <- !List.app_assoc in IH. cbn [app] in IH.
    cbn [map]. rewrite <- IH. f_equal. apply imap_ext. intros i x _. cbn.
    f_equal. lia.
Qed.

Lemma fill_raises {A B} (processor : A -> result B) (pre : list A) :
  forall (k : nat) (results : list (option B)) (item : A) (post : list A)
         (ex : exn),
    Forall (fun x => exists out, processor x = Ok out) pre ->
    processor item = Raise ex ->
    fill processor (imap (fun idx x => ((k + idx)%nat, x))
                         (pre ++ item :: post)) results
    = Raise ex.
Proof.
  induction pre as [|x pre IH]; intros k results item post ex Hpre Hitem.
  - cbn [app imap fill]. now rewrite Hitem.
  - inversion Hpre as [|? ? [out Hout] Hrest]; subst.
    cbn [app imap fill]. rewrite Hout.
    rewrite <- (IH (Datatypes.S k) (<[(k + 0)%nat := Some out]> results)
                   item post ex Hrest Hitem).
    f_equal. apply imap_ext. intros i y _. cbn. f_equal. lia.
Qed.

(** X25: [batch_process] is a map over the items.  With [max_workers >= 1]:
    when the processor returns for every item, the result holds the
    outputs in the order of the items, one per item and no empty slot; when
    it fails on some item, the call raises the error of the first item, in
    the order of the items, that fails.  [batch_size] plays no part.  With
    [max_workers <= 0] the call raises [ValueError] even for no items. *)
Theorem batch_process_is_map {A B : Type} (items : list A)
  (processor : A -> result B) (batch_size max_workers : Z) :
  (1 <= max_workers ->
   (forall outs : list B,
      Forall2 (fun item out => processor item = Ok out) items outs ->
      batch_process items processor batch_size max_workers
      = Ok (map Some outs))
   /\ (forall (pre post : list A) (item : A) (ex : exn),
         items = pre ++ item :: post ->
         Forall (fun x => exists out, processor x = Ok out) pre ->
         processor item = Raise ex ->
         batch_process items processor batch_size max_workers = Raise ex))
  /\ (max_workers <= 0 ->
      batch_process items processor batch_size max_workers
      = Raise (ValueError "max_workers must be greater than 0"))
  /\ forall batch_size' : Z,
       batch_process items processor batch_size' max_workers
       = batch_process items processor batch_size max_workers.
Proof.
  split; [|split].
  - intros Hw. unfold batch_process.
    destruct (Z.leb_spec max_workers 0); [lia|]. split.
    + intros outs Hall.
      exact (fill_from processor items [] outs Hall).
    + intros pre post item ex -> Hpre Hitem.
      exact (fill_raises processor pre 0%nat _ item post ex Hpre Hitem).
  - intros Hw. unfold batch_process.
    destruct (Z.leb_spec max_workers 0); [reflexivity | lia].
  - reflexivity.
Qed.

End BatchFacts.

(** ** Output limit: the length of a truncated output *)

Module ResourceLimitsFacts.
Import ResourceLimits PyFacts.

Lemma len_truncation_marker (dropped : Z) :
  len (truncation_marker dropped) = 23 + len (str_of_int dropped).
Proof.
  unfold truncation_marker. rewrite !len_app. unfold len at 1 3. simpl length.
  lia.
Qed.

(** X26: a truncated output is longer than the budget.  When [limit_output]
    cuts a text, the result holds [max_chars] characters of the text and
    the marker, which is at least 23 characters long: the result always
    exceeds the budget, and a text that exceeds the budget by fewer than 23
    characters comes back longer than it was. *)
Theorem limit_output_overshoots (self : t) (output : pystr) :
  0 <= max_output_size_mb self ->
  len output > max_output_size_mb self * 1024 * 1024 ->
  len (limit_output self output)
  = max_output_size_mb self * 1024 * 1024
    + len (truncation_marker
             (len output - max_output_size_mb self * 1024 * 1024))
  /\ max_output_size_mb self * 1024 * 1024 + 23
     <= len (limit_output self output)
  /\ (len output < max_output_size_mb self * 1024 * 1024 + 23 ->
      len output < len (limit_output self output)).
Proof.
  intros Hmb Hgt. unfold limit_output.
  set (max_chars := max_output_size_mb self * 1024 * 1024) in *.
  destruct (Z.gtb_spec (len output) max_chars) as [_|Hle]; [|lia].
  rewrite slice_to_nonneg by lia.
  rewrite len_app, len_firstn by lia.
  rewrite len_truncation_marker.
  pose proof (len_nonneg (str_of_int (len output - max_chars))).
  repeat split; lia.
Qed.

Lemma limit_output_overshoots_witness :
  len (limit_output (mk 4096 300 100 0) (lit "abc"))
  = 0 * 1024 * 1024 + len (truncation_marker (len (lit "abc") - 0 * 1024 * 1024))
  /\ 0 * 1024 * 1024 + 23 <= len (limit_output (mk 4096 300 100 0) (lit "abc"))
  /\ (len (lit "abc") < 0 * 1024 * 1024 + 23 ->
      len (lit "abc") < len (limit_output (mk 4096 300 100 0) (lit "abc"))).
Proof.
  apply (limit_output_overshoots (mk 4096 300 100 0) (lit "abc")).
  - simpl. lia.
  - vm_compute. reflexivity.
Defined.

End ResourceLimitsFacts.

(** ** Conditional compression *)

Module CompressionFacts.
Import Compression PyFacts.

(** X27: [compress_if_large] never stores more than the encoded text.
    Whatever [gzip] does, the data returned are either the UTF-8 bytes of
    the content, flagged as not compressed, or the compressed bytes,
    flagged as compressed, and then the encoded content is at least
    [threshold] bytes long and the compressed data are shorter than nine
    tenths of it; in particular an empty content is never compressed. *)
Theorem compress_if_large_saves {G : Gzip} (content : pystr) (threshold : Z)
  (flag : bool) (data : bytes) :
  compress_if_large content threshold = Ok (flag, data) ->
  exists content_bytes : bytes,
    utf8_encode content = Ok content_bytes
    /\ (flag = false -> data = content_bytes)
    /\ (flag = true ->
        data = gzip_compress content_bytes
        /\ threshold <= len content_bytes
        /\ 10 * len data < 9 * len content_bytes)
    /\ len data <= len content_bytes
    /\ (content = [] -> flag = false).
Proof.
  unfold compress_if_large.
  destruct (utf8_encode content) as [b|ex] eqn:He; [|discriminate].
  cbn [bind]. intros Hc. exists b. split; [reflexivity|].
  assert (Hcases : (flag = false /\ data = b)
                   \/ (flag = true /\ data = gzip_compress b
                       /\ threshold <= len b
                       /\ 10 * len data < 9 * len b)).
  { destruct (Z.geb_spec (len b) threshold) as [Hge|Hlt].
    - destruct (Qltb (inject_Z (len (gzip_compress b)))
                     (inject_Z (len b) * (9 # 10))) eqn:Hq.
      + inversion Hc; subst. right. split; [reflexivity|].
        split; [reflexivity|]. split; [lia|].
        apply Qltb_lt in Hq. unfold Qlt in Hq. simpl in Hq. lia.
      + inversion Hc; subst. now left.
    - inversion Hc; subst. now left. }
  destruct Hcases as [[-> ->]|(-> & -> & Ht & Hs)].
  - split; [reflexivity|]. split; [discriminate|]. split; [lia|]. reflexivity.
  - split; [discriminate|]. split; [auto|].
    pose proof (len_nonneg (gzip_compress b)).
    split; [lia|]. intros ->. simpl in He. inversion He; subst b.
    unfold len in Hs at 2. simpl in Hs. lia.
Qed.

Lemma compress_if_large_saves_witness :
  exists content_bytes : bytes,
    utf8_encode (lit "fix") = Ok content_bytes
    /\ (false = false -> lit "fix" = content_bytes)
    /\ (false = true ->
        lit "fix" = gzip_compress (Gzip := stored_codec) content_bytes
        /\ 1000 <= len content_bytes
        /\ 10 * len (lit "fix") < 9 * len content_bytes)
    /\ len (lit "fix") <= len content_bytes
    /\ (lit "fix" = [] -> false = false).
Proof.
  apply (compress_if_large_saves (G := stored_codec) (lit "fix") 1000 false
           (lit "fix")).
  reflexivity.
Defined.

End CompressionFacts.
